(** * tr45h: symbol table, AST automaton, first-pass parser and scheduler

    A shallow embedding of the interpreter core of the repository:

    - [SymbolTable]  src/interpreter/symbols.js (class SymbolTable), with the
      browser event loop (pending [setTimeout] callbacks and suspended
      [async] continuations) made explicit;
    - [AST]          the automaton classes ASTNode / Terminal / NonTerminal /
      Sequence / Choice (second part of src/interpreter/symbols.js), as
      objects in a store addressed by reference;
    - [FirstPass]    the first-pass parser (FirstPassParser,
      src/unnamed/part_000), the part that parses identifiers and their
      query parameters;
    - [Scheduler]    src/A0/lang/runtime/scheduler/index.js, the timer
      life cycle of class Scheduler;
    - [Analyzer]     the rest of FirstPassParser: the tests on the token
      ahead, statements, sequences, choices, function chains, [analyze];
    - [Transport]    the rest of class Scheduler: the subscriptions of the
      constructor, recording, [scheduleThread].

    Conventions.  A JS object used as a dictionary is a [gmap] with string
    keys, its own properties.  The [in] operator also finds the names an
    object inherits from [Object.prototype]; the facts that depend on an
    identifier being absent are stated for the other names
    ([SymbolTable.ordinary]).  [null] and [undefined] are [None].
    Integers are [Z]; weights and random draws are rationals [Q], added
    and multiplied exactly, and the facts about sums of weights are stated
    where double arithmetic agrees with that.  A thrown exception is an
    explicit outcome.  *)

From Stdlib Require Import QArith Qround Ascii String.
From stdpp Require Import gmap strings list fin_maps pretty.
Close Scope Q_scope.
Open Scope string_scope.
Open Scope list_scope.
Open Scope nat_scope.

(** ** Lexical tokens (src/interpreter/types/tokens.js) *)

Module Tokens.

(** [newLexicalToken]: { type, value, start, length, block }. *)
Record LexicalToken := mkLexicalToken {
  tok_type   : string;
  tok_value  : string;
  tok_start  : Z;
  tok_length : Z;
  tok_block  : string }.

Module LexicalTokenType.
Definition Bracket    := "BRACKET".
Definition Delimiter  := "DELIMITER".
Definition Quote      := "QUOTE".
Definition Rest       := "REST".
Definition Operator   := "OPERATOR".
Definition Comment    := "COMMENT".
Definition Number     := "NUMBER".
Definition Hz         := "HZ".
Definition HzUnit     := "HZ_UNIT".
Definition Identifier := "IDENTIFIER".
Definition Error      := "ERROR".
End LexicalTokenType.

Module SemanticTokenType.
Definition Variable_          := "VARIABLE".
Definition VariableDecl       := "VARIABLE_DECL".
Definition AssignmentOp       := "ASSIGNEMENT_OP".
Definition Fn                 := "FN".
Definition FnBracket          := "FN_BRACKET".
Definition FnParameter        := "FN_PARAMETER".
Definition FnParamKvDelimiter := "FN_PARAM_KV_DELIMITER".
Definition FnParamDelimiter   := "FN_PARAM_DELIMITER".
Definition SoundLiteral       := "SOUND_LITERAL".
Definition BeatDivBracket     := "BEAT_DIV_BRACKET".
Definition SequenceBracket    := "SEQUENCE_BRACKET".
Definition ChoiceOp           := "CHOICE_OP".
Definition RepetitionOp       := "REPETITION_OP".
Definition ChainingOp         := "CHAINING_OP".
End SemanticTokenType.

End Tokens.

(** ** lodash helpers on arrays of strings *)

Module Lodash.

(** [_.uniq]: duplicates removed, first occurrences kept in order. *)
Fixpoint uniq (l : list string) : list string :=
  match l with
  | [] => []
  | x :: l' => x :: filter (λ y, y ≠ x) (uniq l')
  end.

(** [_.xor a b]: the values found in exactly one of the two arrays. *)
Definition xor (a b : list string) : list string :=
  uniq (filter (λ x, x ∉ b) a ++ filter (λ x, x ∉ a) b).

(** [_.intersection a b]: the values of [a] also found in [b]. *)
Definition intersection (a b : list string) : list string :=
  uniq (filter (λ x, x ∈ b) a).

(** [_.keys] and [_.values] of an object used as a dictionary (in the
    order of the map, which no caller here depends on). *)
Definition keys {V} (o : gmap string V) : list string := (map_to_list o).*1.
Definition values {V} (o : gmap string V) : list V := (map_to_list o).*2.

(** [_.flatMap]. *)
Definition flatMap {A B} (l : list A) (f : A → list B) : list B := l ≫= f.

End Lodash.

(** ** The symbol table (src/interpreter/symbols.js, class SymbolTable) *)

Module SymbolTable.
Import Tokens.

(** The decoded sample stored under [value] once a sound is available. *)
Definition AudioBuffer := list Z.

(** The object literal handed to [merge]:
    { identifier, type, status, value }, where every property but
    [identifier] may be left out.  [None] is a property that is not
    written, [Some v] one that is, with [v = None] for [null]. *)
Record Symbol := mkSymbol {
  identifier : string;
  type       : option (option string);
  status     : option (option string);
  value      : option (option AudioBuffer) }.

(** A record kept in [this.symbols]. *)
Record SymbolRecord := mkSymbolRecord {
  rec_identifier : string;
  rec_type       : option string;
  rec_status     : option string;
  rec_value      : option AudioBuffer }.

(** The value handed over by the lexer: tokens, and errors that carry the
    tokens of the span they cover. *)
Record LexicalError := mkLexicalError {
  err_tokens : list LexicalToken }.

Record LexicalAnalysisResults := mkLexicon {
  lex_tokens : list LexicalToken;
  lex_errors : list LexicalError }.

(** The fields of [this] ([theme] only selects a CSS class and is left
    out). *)
Record SymbolTable := mkSymbolTable {
  symbols                  : gmap string SymbolRecord;
  activeIdentifiersByBlock : gmap string (list string);
  fetchWaitInterval        : Z }.

(** One entry of the freesound search response. *)
Record SearchResult := mkSearchResult {
  name           : string;
  preview_hq_mp3 : string }.

(** A pending [setTimeout(() => this._fetchNewSound(symbol), delay)]. *)
Record Timer := mkTimer {
  delay    : Z;
  callback : Symbol }.

(** A call of [_fetchNewSound] suspended at one of its three [await]s. *)
Inductive Task :=
| AwaitSearch  (symbol : Symbol)
| AwaitPreview (symbol : Symbol) (previewUrl : string)
| AwaitDecode  (symbol : Symbol).

(** What an awaited promise settles with.  [SearchJson results r] is the
    parsed search response together with the value [Math.random()] returns
    in that continuation. *)
Inductive Response :=
| SearchJson  (results : option (list SearchResult)) (r : Q)
| ArrayBuffer (bytes : list Z)
| Decoded     (audio : AudioBuffer)
| Rejected.

(** Effects on the outside world, in the order they happen. *)
Inductive Effect :=
| FetchSearch  (query : string)
| FetchPreview (url : string)
| DecodeAudioData (bytes : list Z)
| VisualStatus (identifier : string) (status : string).

(** The table object together with the event loop around it. *)
Record World := mkWorld {
  table   : SymbolTable;
  timers  : list Timer;
  tasks   : list Task;
  effects : list Effect }.

(** [new SymbolTable(theme)]. *)
Definition constructor : SymbolTable :=
  {| symbols := ∅; activeIdentifiersByBlock := ∅; fetchWaitInterval := 1000 |}.

Definition initial : World :=
  {| table := constructor; timers := []; tasks := []; effects := [] |}.

Definition set_symbols (m : gmap string SymbolRecord) (w : World) : World :=
  {| table := {| symbols := m;
                 activeIdentifiersByBlock := activeIdentifiersByBlock (table w);
                 fetchWaitInterval := fetchWaitInterval (table w) |};
     timers := timers w; tasks := tasks w; effects := effects w |}.

Definition set_activeIdentifiersByBlock (a : gmap string (list string)) (w : World) : World :=
  {| table := {| symbols := symbols (table w);
                 activeIdentifiersByBlock := a;
                 fetchWaitInterval := fetchWaitInterval (table w) |};
     timers := timers w; tasks := tasks w; effects := effects w |}.

Definition set_timers (ts : list Timer) (w : World) : World :=
  {| table := table w; timers := ts; tasks := tasks w; effects := effects w |}.

Definition set_tasks (ts : list Task) (w : World) : World :=
  {| table := table w; timers := timers w; tasks := ts; effects := effects w |}.

Definition emit (e : Effect) (w : World) : World :=
  {| table := table w; timers := timers w; tasks := tasks w;
     effects := effects w ++ [e] |}.

(** [setTimeout(cb, ms)]: the callback joins the pending timers. *)
Definition setTimeout (cb : Symbol) (ms : Z) (w : World) : World :=
  set_timers (timers w ++ [{| delay := ms; callback := cb |}]) w.

(** [await]: the rest of the call is parked until the promise settles. *)
Definition suspend (t : Task) (w : World) : World :=
  set_tasks (tasks w ++ [t]) w.



(** [identifier in this.symbols], for an [ordinary] identifier: the table
    has a record of its own for it. *)
Definition has (id : string) (w : World) : bool :=
  bool_decide (is_Some (symbols (table w) !! id)).

(** [{ ...fields, ...symbol }], where [fields] is the existing record or
    [{ type: null, status: null, value: null }]. *)
Definition spread (fields : option SymbolRecord) (symbol : Symbol) : SymbolRecord :=
  {| rec_identifier := identifier symbol;
     rec_type   := default (fields ≫= rec_type)   (type symbol);
     rec_status := default (fields ≫= rec_status) (status symbol);
     rec_value  := default (fields ≫= rec_value)  (value symbol) |}.

(** [symbol.type && symbol.type === 'sound']. *)
Definition is_sound (symbol : Symbol) : bool :=
  bool_decide (type symbol = Some (Some "sound")).

Definition merge (symbol : Symbol) (w : World) : World :=
  let exists_ := has (identifier symbol) w in
  let fields := symbols (table w) !! identifier symbol in
  let w' := set_symbols (<[identifier symbol := spread fields symbol]> (symbols (table w))) w in
  if negb exists_ && is_sound symbol
  then setTimeout symbol (fetchWaitInterval (table w')) w'
  else w'.


Definition remove (id : string) (w : World) : World :=
  set_symbols (delete id (symbols (table w))) w.

(** The values of the IDENTIFIER tokens of an array of tokens. *)
Definition identifierValues (ts : list LexicalToken) : list string :=
  tok_value <$> filter (λ t, tok_type t = LexicalTokenType.Identifier) ts.

Definition updateActiveIdentifiers (blockKey : string)
    (lexicon : LexicalAnalysisResults) (w : World) : World :=
  let w1 := set_activeIdentifiersByBlock
      (<[blockKey := Lodash.uniq
           (identifierValues (lex_tokens lexicon) ++
            identifierValues (Lodash.flatMap (lex_errors lexicon) err_tokens))]>
         (activeIdentifiersByBlock (table w))) w in
  let allActiveIdentifiers :=
    Lodash.uniq (Lodash.flatMap (Lodash.values (activeIdentifiersByBlock (table w1))) id) in
  let identifiersInSymbolTable := Lodash.keys (symbols (table w1)) in
  let danglingIdentifiers :=
    Lodash.intersection
      (Lodash.xor identifiersInSymbolTable allActiveIdentifiers)
      identifiersInSymbolTable in
  foldl (λ w' danglingIdentifier, remove danglingIdentifier w') w1 danglingIdentifiers.

Definition updateVisualStatus (id : string) (st : string) (w : World) : World :=
  emit (VisualStatus id st) w.

Definition statusUpdate (id : string) (st : string) : Symbol :=
  {| identifier := id; type := None; status := Some (Some st); value := None |}.

(** [_fetchNewSound], up to its first [await]. *)
Definition _fetchNewSound (symbol : Symbol) (w : World) : World :=
  if negb (has (identifier symbol) w) then w
  else
    let w := merge (statusUpdate (identifier symbol) "searching") w in
    let w := updateVisualStatus (identifier symbol) "searching" w in
    let w := emit (FetchSearch (identifier symbol)) w in
    suspend (AwaitSearch symbol) w.

(** [Math.floor(r * n)] as an array index. *)
Definition floorIndex (r : Q) (n : nat) : option nat :=
  let i := Qfloor (r * inject_Z (Z.of_nat n))%Q in
  if (0 <=? i)%Z then Some (Z.to_nat i) else None.

(** [_fetchNewSound], from one settled [await] to the next one or to its
    end.  A rejected promise, or an exception, ends the call. *)
Definition resume (t : Task) (r : Response) (w : World) : World :=
  match t, r with
  | AwaitSearch symbol, SearchJson results rnd =>
      match results with
      | None | Some [] =>
          let w := merge (statusUpdate (identifier symbol) "unavailable") w in
          updateVisualStatus (identifier symbol) "unavailable" w
      | Some results =>
          match floorIndex rnd (length results) ≫= (results !!.) with
          | None => w
          | Some result =>
              let previewUrl := preview_hq_mp3 result in
              let w := merge (statusUpdate (identifier symbol) "downloading") w in
              let w := updateVisualStatus (identifier symbol) "downloading" w in
              let w := emit (FetchPreview previewUrl) w in
              suspend (AwaitPreview symbol previewUrl) w
          end
      end
  | AwaitPreview symbol _, ArrayBuffer buffer =>
      let w := emit (DecodeAudioData buffer) w in
      suspend (AwaitDecode symbol) w
  | AwaitDecode symbol, Decoded audio =>
      let w := merge {| identifier := identifier symbol; type := None;
                        value := Some (Some audio);
                        status := Some (Some "available") |} w in
      updateVisualStatus (identifier symbol) "available" w
  | _, _ => w
  end.


(** What can happen to the table: a call from the analysis path, a timer
    that fires, or an awaited promise that settles. *)
Inductive Event :=
| Merge  (symbol : Symbol)
| Remove (id : string)
| UpdateActiveIdentifiers (blockKey : string) (lexicon : LexicalAnalysisResults)
| TimerFires (i : nat)
| Settles (i : nat) (r : Response).

Definition step (w : World) (e : Event) : World :=
  match e with
  | Merge symbol => merge symbol w
  | Remove id => remove id w
  | UpdateActiveIdentifiers blockKey lexicon => updateActiveIdentifiers blockKey lexicon w
  | TimerFires i =>
      match timers w !! i with
      | Some t => _fetchNewSound (callback t) (set_timers (delete i (timers w)) w)
      | None => w
      end
  | Settles i r =>
      match tasks w !! i with
      | Some t => resume t r (set_tasks (delete i (tasks w)) w)
      | None => w
      end
  end.

Definition run (w : World) (es : list Event) : World := foldl step w es.



(** The union of the active identifiers of all blocks. *)
Definition active (id : string) (w : World) : Prop :=
  ∃ blockKey ids, activeIdentifiersByBlock (table w) !! blockKey = Some ids ∧ id ∈ ids.

(** C2 as the specification words it: after the call, absent from the
    symbols map iff absent from the union of the active identifiers. *)
Definition absentIffInactive : Prop :=
  ∀ (blockKey : string) (lexicon : LexicalAnalysisResults) (w : World)
    (id : string),
    let w' := updateActiveIdentifiers blockKey lexicon w in
    symbols (table w') !! id = None ↔ ¬ active id w'.

(** Worlds to run the table in. *)
Module Example.

Definition kick : Symbol :=
  {| identifier := "kick"; type := Some (Some "sound"); status := None;
     value := None |}.

Definition identifierToken (v : string) : LexicalToken :=
  {| tok_type := LexicalTokenType.Identifier; tok_value := v;
     tok_start := 0; tok_length := Z.of_nat (String.length v);
     tok_block := "A" |}.

(** A block whose only token is the identifier [x]. *)
Definition onlyX : LexicalAnalysisResults :=
  {| lex_tokens := [identifierToken "x"]; lex_errors := [] |}.

(** Block A names [x] and nothing was merged. *)
Definition activeNotMerged : World := updateActiveIdentifiers "A" onlyX initial.

(** The sound [kick] and the variable [x] were merged. *)
Definition kickAndX : World :=
  run initial [Merge kick;
               Merge {| identifier := "x"; type := Some (Some "variable");
                        status := None; value := None |}].



End Example.

End SymbolTable.

(** ** The automaton: classes ASTNode, Terminal, NonTerminal, Sequence and
       Choice (in the sources at hand they follow the symbol table, in
       src/interpreter/symbols.js from line 159 on) *)

Module AST.

(** A fully resolved step:
    { type: 'sound', value: "...", fx: [], ppqn: 32 }. *)
Record Step := mkStep {
  step_type  : string;
  step_value : string;
  fx         : list string;
  ppqn       : Z }.

(** Nodes are objects: a parent holds references to its children. *)
Definition ref := nat.

(** [Math.random()]: the values it returns, and how many were taken. *)
Record RNG := mkRNG {
  draws : nat → Q;
  taken : nat }.

Definition Math_random (g : RNG) : Q * RNG :=
  (draws g (taken g), {| draws := draws g; taken := S (taken g) |}).

(** The optional third argument of the Choice constructor. *)
Definition ChoiceFn := list ref → list Q → RNG → option ref * RNG.

(** The three instantiable classes with their fields; [_current] and
    [_next] are the fields of the base class ASTNode, [_currentNode] the
    one of NonTerminal. *)
Inductive Node :=
| Terminal (_current _next : Step)
| Sequence (_current _next : Step) (_currentNode : option ref)
           (_currentNodeIndex : Z) (_seq : list ref)
| Choice   (_current _next : Step) (_currentNode : option ref)
           (_choices : list ref) (_pdf _cdf : list Q) (_choose : ChoiceFn).

Record Store := mkStore {
  heap : gmap ref Node;
  rng  : RNG }.

Inductive Exn := TypeError | NotImplementedError.

Inductive Outcome (A : Type) :=
| Return (a : A) (σ : Store)
| Throw (e : Exn) (σ : Store)
| OutOfFuel.
Arguments Return {A} a σ.
Arguments Throw {A} e σ.
Arguments OutOfFuel {A}.

(** [current()] and [next()]. *)
Definition current (n : Node) : Step :=
  match n with
  | Terminal c _ | Sequence c _ _ _ _ | Choice c _ _ _ _ _ _ => c
  end.

Definition next (n : Node) : Step :=
  match n with
  | Terminal _ x | Sequence _ x _ _ _ | Choice _ x _ _ _ _ _ => x
  end.

Definition currentNode (n : Node) : option ref :=
  match n with
  | Terminal _ _ => None
  | Sequence _ _ c _ _ | Choice _ _ c _ _ _ _ => c
  end.

Definition set_current (s : Step) (n : Node) : Node :=
  match n with
  | Terminal _ x => Terminal s x
  | Sequence _ x c i q => Sequence s x c i q
  | Choice _ x c ch p d f => Choice s x c ch p d f
  end.

Definition set_next (s : Step) (n : Node) : Node :=
  match n with
  | Terminal c _ => Terminal c s
  | Sequence c _ cn i q => Sequence c s cn i q
  | Choice c _ cn ch p d f => Choice c s cn ch p d f
  end.

(** The methods, called through a reference ([undefined.current()] and
    the like throw, here [None]). *)
Definition current_of (σ : Store) (l : option ref) : option Step :=
  l ≫= λ r, current <$> heap σ !! r.

Definition next_of (σ : Store) (l : option ref) : option Step :=
  l ≫= λ r, next <$> heap σ !! r.

Definition write (l : ref) (n : Node) (σ : Store) : Store :=
  {| heap := <[l := n]> (heap σ); rng := rng σ |}.

(** [new]: the object gets a reference no live object has. *)
Definition new (n : Node) (σ : Store) : Outcome ref :=
  let l := fresh (dom (heap σ)) in Return l (write l n σ).

(** [array[i]] for a JS number [i]. *)
Definition at_index {A} (l : list A) (i : Z) : option A :=
  if (0 <=? i)%Z then l !! Z.to_nat i else None.

(** [new Terminal(step)]. *)
Definition newTerminal (step : Step) (σ : Store) : Outcome ref :=
  new (Terminal step step) σ.

(** [new Sequence(seq)]: [super(seq[0])] runs the NonTerminal constructor,
    whose [super(currentNode.current())] throws on [undefined]. *)
Definition newSequence (seq : list ref) (σ : Store) : Outcome ref :=
  match current_of σ (seq !! 0%nat) with
  | None => Throw TypeError σ
  | Some initialStep =>
      new (Sequence initialStep initialStep (seq !! 0%nat) 0 seq) σ
  end.

(** [let acc = 0; pdf.map(p => (acc = p + acc))].  The sums are exact
    here; the code adds doubles, which round and overflow.  The two agree
    on weights that are integers with a sum of at most 2^53
    ([exactWeights]), and a weight that is not negative never lowers a
    running sum in either. *)
Fixpoint cumulative (acc : Q) (pdf : list Q) : list Q :=
  match pdf with
  | [] => []
  | p :: pdf' => let acc' := (p + acc)%Q in acc' :: cumulative acc' pdf'
  end.

(** [cdf.filter(c => c <= Math.random() * total)]: the callback runs once
    per entry, so every entry is compared with a draw of its own. *)
Fixpoint filterDraws (total : Q) (cdf : list Q) (g : RNG) : list Q * RNG :=
  match cdf with
  | [] => ([], g)
  | c :: cdf' =>
      let '(r, g1) := Math_random g in
      let keep := Qle_bool c (r * total) in
      let '(rest, g2) := filterDraws total cdf' g1 in
      (if keep then c :: rest else rest, g2)
  end.

(** [choose]: [total] is [cdf[cdf.length - 1]], read only when [cdf] has
    an entry. *)
Definition choose : ChoiceFn := λ choices cdf g,
  let total := default 0%Q (last cdf) in
  let '(kept, g') := filterDraws total cdf g in
  (choices !! length kept, g').

(** [new Choice(choices, pdf, choiceFn)]. *)
Definition newChoice (choices : list ref) (pdf : list Q) (choiceFn : ChoiceFn)
    (σ : Store) : Outcome ref :=
  let cdf := cumulative 0 pdf in
  let '(c, g) := choiceFn choices cdf (rng σ) in
  let σ1 := {| heap := heap σ; rng := g |} in
  match current_of σ1 c with
  | None => Throw TypeError σ1
  | Some initialStep =>
      new (Choice initialStep initialStep c choices pdf cdf choiceFn) σ1
  end.

(** [advanceCurrentNode()] of Sequence and of Choice. *)
Definition advanceCurrentNode (l : ref) (σ : Store) : Outcome bool :=
  match heap σ !! l with
  | Some (Sequence c x _ i seq) =>
      let '(i', hasCycled) :=
        if (i =? Z.of_nat (length seq) - 1)%Z then (0%Z, true)
        else ((i + 1)%Z, false) in
      Return hasCycled (write l (Sequence c x (at_index seq i') i' seq) σ)
  | Some (Choice c x _ choices pdf cdf f) =>
      let '(chosen, g) := f choices cdf (rng σ) in
      Return true {| heap := <[l := Choice c x chosen choices pdf cdf f]> (heap σ);
                     rng := g |}
  | Some (Terminal _ _) | None => Throw TypeError σ
  end.

(** [advance()]: Terminal returns true; NonTerminal advances its current
    node, moves on when that one has cycled, then shifts [_next] into
    [_current] and reads the new [_next].  The recursion follows the
    references, so it is bounded by [fuel]. *)
Fixpoint advance (fuel : nat) (l : ref) (σ : Store) : Outcome bool :=
  match fuel with
  | O => OutOfFuel
  | S fuel' =>
      match heap σ !! l with
      | None => Throw TypeError σ
      | Some (Terminal _ _) => Return true σ
      | Some n =>
          match currentNode n with
          | None => Throw TypeError σ
          | Some c =>
              match advance fuel' c σ with
              | Return childHasCycled σ1 =>
                  match (if childHasCycled then advanceCurrentNode l σ1
                         else Return false σ1) with
                  | Return thisHasCycled σ2 =>
                      match heap σ2 !! l with
                      | None => Throw TypeError σ2
                      | Some n2 =>
                          let n3 := set_current (next n2) n2 in
                          match next_of σ2 (currentNode n2) with
                          | None => Throw TypeError (write l n3 σ2)
                          | Some s => Return thisHasCycled (write l (set_next s n3) σ2)
                          end
                      end
                  | Throw e σ2 => Throw e σ2
                  | OutOfFuel => OutOfFuel
                  end
              | Throw e σ1 => Throw e σ1
              | OutOfFuel => OutOfFuel
              end
          end
      end
  end.

(** [advance()] called [n] times in a row, with the values it returned. *)
Fixpoint advances (fuel : nat) (n : nat) (l : ref) (σ : Store) : Outcome (list bool) :=
  match n with
  | O => Return [] σ
  | S n' =>
      match advance fuel l σ with
      | Return b σ1 =>
          match advances fuel n' l σ1 with
          | Return bs σ2 => Return (b :: bs) σ2
          | Throw e σ2 => Throw e σ2
          | OutOfFuel => OutOfFuel
          end
      | Throw e σ1 => Throw e σ1
      | OutOfFuel => OutOfFuel
      end
  end.

(** [_currentNodeIndex] of a Sequence. *)
Definition currentNodeIndex (σ : Store) (l : ref) : option Z :=
  match heap σ !! l with
  | Some (Sequence _ _ _ i _) => Some i
  | _ => None
  end.

Definition is_Terminal (σ : Store) (l : ref) : Prop :=
  ∃ c x, heap σ !! l = Some (Terminal c x).

(** The index of the first entry that satisfies [p] (the length when
    there is none). *)
Fixpoint firstIndex (p : Q → bool) (l : list Q) : nat :=
  match l with
  | [] => 0
  | c :: l' => if p c then 0 else S (firstIndex p l')
  end.


(** The first cumulative entry strictly greater than the draw. *)
Definition firstAbove (d : Q) (cdf : list Q) : nat :=
  firstIndex (λ c, negb (Qle_bool c d)) cdf.

Definition strictlyIncreasing (l : list Q) : Prop :=
  ∀ (i j : nat) (a b : Q), (i < j)%nat → l !! i = Some a → l !! j = Some b → (a < b)%Q.

Definition nonDecreasing (l : list Q) : Prop :=
  ∀ (i j : nat) (a b : Q), (i ≤ j)%nat → l !! i = Some a → l !! j = Some b → (a <= b)%Q.

(** Weights whose running sums double arithmetic computes exactly:
    positive integers with a sum of at most 2^53. *)
Definition exactWeights (pdf : list Q) : Prop :=
  ∃ ws : list Z,
    pdf = inject_Z <$> ws ∧ Forall (λ w, 0 < w)%Z ws ∧
    (foldr Z.add 0 ws ≤ 2 ^ 53)%Z.

(** The cumulative table of a Choice. *)
Definition cdf_of (σ : Store) (l : ref) : option (list Q) :=
  match heap σ !! l with
  | Some (Choice _ _ _ _ _ cdf _) => Some cdf
  | _ => None
  end.

Definition choices_of (σ : Store) (l : ref) : option (list ref) :=
  match heap σ !! l with
  | Some (Choice _ _ _ choices _ _ _) => Some choices
  | _ => None
  end.

(** Every value [Math.random()] returns lies in [0, 1). *)
Definition unitDraws (g : RNG) : Prop :=
  ∀ n, (0 <= draws g n)%Q ∧ (draws g n < 1)%Q.


(** C6 as the specification words it: whatever the weights, the table of
    a Choice that was built has one entry per child and is strictly
    increasing. *)
Definition cdfStrictlyIncreasing : Prop :=
  ∀ (σ : Store) (choices : list ref) (pdf : list Q) (choiceFn : ChoiceFn)
    (l : ref) (σ' : Store) (cdf : list Q),
    length pdf = length choices →
    newChoice choices pdf choiceFn σ = Return l σ' →
    cdf_of σ' l = Some cdf →
    length cdf = length choices ∧ strictlyIncreasing cdf.

(** The store a call leaves. *)
Definition storeOf {A} (o : Outcome A) (σ : Store) : Store :=
  match o with
  | Return _ σ' | Throw _ σ' => σ'
  | OutOfFuel => σ
  end.

(** Stores to run the automaton on. *)
Module Example.

Definition step (v : string) : Step :=
  {| step_type := "sound"; step_value := v; fx := []; ppqn := 32 |}.

(** [Math.random()] returns 0.5 every time. *)
Definition halves : RNG := {| draws := λ _, (1 # 2)%Q; taken := 0 |}.

(** [Math.random()] returns 0.1, 0.9, 0.1, 0.1, ... *)
Definition lowHighLow : RNG :=
  {| draws := λ n, if (n =? 1)%nat then (9 # 10)%Q else (1 # 10)%Q; taken := 0 |}.

(** Two Terminals: [kick] under reference 0, [snare] under reference 1. *)
Definition terminals : Store :=
  {| heap := {[ 0 := Terminal (step "kick") (step "kick");
                1 := Terminal (step "snare") (step "snare") ]};
     rng := halves |}.

(** After [new Sequence([kick, snare, kick])], under reference 2. *)
Definition withSequence : Store := storeOf (newSequence [0; 1; 0] terminals) terminals.

(** After [new Choice([kick, snare], [1, 1])], under reference 2. *)
Definition withChoice : Store :=
  storeOf (newChoice [0; 1] [1; 1]%Q choose terminals) terminals.

End Example.

End AST.

(** ** The first-pass parser (class FirstPassParser, src/unnamed/part_000):
       identifiers and their parameters *)

Module FirstPass.
Import Tokens.

(** A parameter map such as [{ a: 1, b: 2 }]: its own properties in
    enumeration order, array indices first in ascending order, then the
    other names in the order in which they were first written.  A value is kept as the text a
    template literal renders it with. *)
Definition Parameters := list (string * string).

(** The object literal handed to [pushToken]: a property that is missing
    is [None]. *)
Record Fields := mkFields {
  f_id         : option string;
  f_type       : option string;
  f_value      : option string;
  f_start      : option Z;
  f_length     : option Z;
  f_block      : option string;
  f_parameters : option Parameters }.

(** [newSemanticToken(fields)]. *)
Record SemanticToken := mkSemanticToken {
  st_id         : option string;
  st_instance   : string;
  st_type       : option string;
  st_value      : option string;
  st_start      : option Z;
  st_length     : option Z;
  st_block      : option string;
  st_parameters : option Parameters }.

(** An error of the lexical analysis, and the argument of [pushError]:
    { start, length, reasons, block }. *)
Record ErrorToken := mkErrorToken {
  et_start   : Z;
  et_length  : Z;
  et_reasons : list string;
  et_block   : string }.

(** [this.token], [this.block] and [this.result]. *)
Record Parser := mkParser {
  stream        : list LexicalToken;
  index         : Z;
  block_key     : string;
  block_index   : Z;
  result_tokens : list SemanticToken;
  result_errors : list ErrorToken }.

Inductive Outcome (A : Type) :=
| Return (a : A) (p : Parser)
| Throw (p : Parser)
| OutOfFuel.
Arguments Return {A} a p.
Arguments Throw {A} p.
Arguments OutOfFuel {A}.

(** A method: it reads and updates the parser, and returns, throws a
    TypeError, or (a loop that was given too little fuel) does not finish. *)
Definition M (A : Type) : Type := Parser → Outcome A.

Definition ret {A} (a : A) : M A := λ p, Return a p.

Definition bind {A B} (m : M A) (k : A → M B) : M B := λ p,
  match m p with
  | Return a p' => k a p'
  | Throw p' => Throw p'
  | OutOfFuel => OutOfFuel
  end.

Definition throw {A} : M A := λ p, Throw p.

Definition outOfFuel {A} : M A := λ _, OutOfFuel.

(** Reading a property of [null] or [undefined] throws. *)
Definition defined {A} (o : option A) : M A :=
  match o with
  | Some a => ret a
  | None => throw
  end.

Definition when (b : bool) (m : M unit) : M unit := if b then m else ret tt.

Notation "'do' x ← m ; k" := (bind m (λ x, k))
  (at level 10, x name, m at level 100, k at level 200).

(** [${x}] for a string and for a number that may be [undefined]. *)
Definition render (o : option string) : string := default "undefined" o.
Definition renderZ (o : option Z) : string := default "undefined" (pretty <$> o).

Definition newSemanticToken (fields : Fields) : SemanticToken :=
  {| st_id := f_id fields;
     st_instance := render (f_block fields) +:+ "-" +:+ renderZ (f_start fields);
     st_type := f_type fields;
     st_value := f_value fields;
     st_start := f_start fields;
     st_length := f_length fields;
     st_block := f_block fields;
     st_parameters := f_parameters fields |}.

(** [{ ...token }] for a token the stream may not have had. *)
Definition ofToken (t : option LexicalToken) : Fields :=
  match t with
  | Some t =>
      {| f_id := None; f_type := Some (tok_type t); f_value := Some (tok_value t);
         f_start := Some (tok_start t); f_length := Some (tok_length t);
         f_block := Some (tok_block t); f_parameters := None |}
  | None =>
      {| f_id := None; f_type := None; f_value := None; f_start := None;
         f_length := None; f_block := None; f_parameters := None |}
  end.

(** [{ ...fields, type }]. *)
Definition withType (ty : string) (fields : Fields) : Fields :=
  {| f_id := f_id fields; f_type := Some ty; f_value := f_value fields;
     f_start := f_start fields; f_length := f_length fields;
     f_block := f_block fields; f_parameters := f_parameters fields |}.

(** [{ ...fields, type, id, parameters }]. *)
Definition withIdParameters (ty id : string) (parameters : Parameters)
    (fields : Fields) : Fields :=
  {| f_id := Some id; f_type := Some ty; f_value := f_value fields;
     f_start := f_start fields; f_length := f_length fields;
     f_block := f_block fields; f_parameters := Some parameters |}.

Definition set_index (i : Z) (p : Parser) : Parser :=
  {| stream := stream p; index := i; block_key := block_key p;
     block_index := block_index p; result_tokens := result_tokens p;
     result_errors := result_errors p |}.

(** [array[i]] for a JS number [i]. *)
Definition at_index {A} (l : list A) (i : Z) : option A :=
  if (0 <=? i)%Z then l !! Z.to_nat i else None.

Definition peek (skipAhead : Z) (p : Parser) : option LexicalToken :=
  let at_ := (index p + skipAhead)%Z in
  if ((at_ <=? Z.of_nat (length (stream p)) - 1) && (at_ >=? 0))%Z
  then at_index (stream p) at_
  else None.

(** [this.token.stream[++this.token.index]]. *)
Definition advance : M (option LexicalToken) := λ p,
  let p' := set_index (index p + 1) p in
  Return (at_index (stream p') (index p')) p'.

(** [this.token.stream[this.token.index++]]. *)
Definition consume : M (option LexicalToken) := λ p,
  Return (at_index (stream p) (index p)) (set_index (index p + 1) p).

Definition pushToken (fields : Fields) : M unit := λ p,
  Return tt
    {| stream := stream p; index := index p; block_key := block_key p;
       block_index := block_index p;
       result_tokens := result_tokens p ++ [newSemanticToken fields];
       result_errors := result_errors p |}.

(** [pushError(error) { this.result.errors.push(newErrorToken(error)) }]:
    [newErrorToken] is imported from the token module, which exports no
    such name, so the call of it throws a TypeError and nothing is
    pushed. *)
Definition pushError (error : ErrorToken) : M unit := throw.

(** [this.peek(k)] inside a method. *)
Definition peekM (skipAhead : Z) : M (option LexicalToken) := λ p,
  Return (peek skipAhead p) p.

Definition blockKey : M string := λ p, Return (block_key p) p.

(** [/[...]/.test(s)] for a character class: does [s] hold one of the
    characters. *)
Fixpoint test (class : list ascii) (s : string) : bool :=
  match s with
  | EmptyString => false
  | String c s' => bool_decide (c ∈ class) || test class s'
  end.

Definition closeParen : ascii := ")"%char.
Definition comma : ascii := ","%char.
Definition colon : ascii := ":"%char.

(** [\s], for the characters of the ASCII range. *)
Definition isSpace (c : ascii) : bool :=
  bool_decide (c ∈ [" "%char; "009"%char; "010"%char; "011"%char;
                    "012"%char; "013"%char]).

(** [s.replace(/\s+/g, '_')]: [inRun] tells that the character before
    was white space too. *)
Fixpoint replaceSpaces (inRun : bool) (s : string) : string :=
  match s with
  | EmptyString => EmptyString
  | String c s' =>
      if isSpace c
      then (if inRun then replaceSpaces true s'
            else String "_"%char (replaceSpaces true s'))
      else String c (replaceSpaces false s')
  end.

(** A decimal digit. *)
Definition digit (c : ascii) : option N :=
  let n := N_of_ascii c in
  if ((48 <=? n) && (n <=? 57))%N then Some (n - 48)%N else None.

Fixpoint digits (s : string) (acc : N) : option N :=
  match s with
  | EmptyString => Some acc
  | String c s' =>
      match digit c with
      | Some d => digits s' (10 * acc + d)%N
      | None => None
      end
  end.

(** A property name that is an array index: the canonical numeral of an
    integer from 0 to 2^32 - 2. *)
Definition arrayIndex (k : string) : option N :=
  match k with
  | EmptyString => None
  | String c rest =>
      if bool_decide (c = "0"%char) && negb (bool_decide (rest = EmptyString))
      then None
      else
        match digits k 0 with
        | Some n => if (n <=? 4294967294)%N then Some n else None
        | None => None
        end
  end.

(** A new array index goes before the first name that is no smaller
    index. *)
Fixpoint insertIndex (n : N) (k v : string) (o : Parameters) : Parameters :=
  match o with
  | [] => [(k, v)]
  | (k', v') :: o' =>
      match arrayIndex k' with
      | Some n' =>
          if (n' <? n)%N then (k', v') :: insertIndex n k v o'
          else (k, v) :: o
      | None => (k, v) :: o
      end
  end.

(** A name the map has keeps its place. *)
Fixpoint update (k v : string) (o : Parameters) : Parameters :=
  match o with
  | [] => []
  | (k', v') :: o' =>
      if bool_decide (k = k') then (k, v) :: o' else (k', v') :: update k v o'
  end.

(** [o[k] = v] on a parameter map.  An object enumerates its array
    indices first, in ascending order, then its other names in the order
    they were added. *)
Definition assign (k v : string) (o : Parameters) : Parameters :=
  if bool_decide (k ∈ o.*1) then update k v o
  else
    match arrayIndex k with
    | Some n => insertIndex n k v o
    | None => o ++ [(k, v)]
    end.

(** [{ ...parameters, ...more }]. *)
Definition spread (parameters more : Parameters) : Parameters :=
  foldl (λ o kv, assign kv.1 kv.2 o) parameters more.

(** [reduce(parameters, (acc, v, k) => ..., '')]. *)
Definition paramStr (parameters : Parameters) : string :=
  foldl (λ acc kv,
           acc +:+ (if bool_decide (acc = EmptyString) then EmptyString else "_")
               +:+ kv.1 +:+ "-" +:+ kv.2)
        EmptyString parameters.

(** The id of a sound literal. *)
Definition soundLiteralId (value : string) (parameters : Parameters) : string :=
  replaceSpaces false value +:+ "__" +:+ paramStr parameters.

(** The suffix as a list of [key-value] items joined by [_]. *)
Definition keyValueItems (parameters : Parameters) : list string :=
  (λ kv, kv.1 +:+ "-" +:+ kv.2) <$> parameters.

Section WithSymbolTable.

(** The methods of the symbol table the parser calls.  Their code is not
    part of the sources at hand, so they are parameters here. *)
Variable isVariable : string → bool.
Variable isFn : string → bool.
Variable isFnParameter : string → string → bool.
Variable isFnFlagParameter : string → string → bool.
Variable isValidFnArg : string → string → LexicalToken → bool.
Variable translateFnArgs : string → string → list LexicalToken → Parameters.

Definition isSoundLiteral (identifier : string) : bool :=
  negb (isFn identifier) && negb (isVariable identifier).

Definition hasFnParameters (fnName : string) (p : Parser) : bool :=
  match peek 0 p, peek 1 p with
  | Some t, Some t1 =>
      bool_decide (tok_value t = "(") && isFnParameter fnName (tok_value t1)
  | _, _ => false
  end.

Definition hasQueryParameters (p : Parser) : bool :=
  match peek (-1) p with
  | Some t =>
      bool_decide (tok_type t = LexicalTokenType.Identifier) &&
      isSoundLiteral (tok_value t) &&
      hasFnParameters "_soundFn" p
  | None => false
  end.

(** [while (this.peek() && !/[\),]/.test(this.peek().value)) this.advance()]. *)
Fixpoint skipToEndOfParamScope (fuel : nat) : M unit :=
  match fuel with
  | O => outOfFuel
  | S fuel' =>
      do t ← peekM 0;
      match t with
      | Some t =>
          if negb (test [closeParen; comma] (tok_value t))
          then do _ ← advance; skipToEndOfParamScope fuel'
          else ret tt
      | None => ret tt
      end
  end.

Definition parseErrorUntilEndOfParamScope (fuel : nat) : M unit :=
  do t ← peekM 0;
  do t ← defined t;
  let start := tok_start t in
  do _ ← skipToEndOfParamScope fuel;
  do t ← peekM 0;
  do t ← defined t;
  do _ ← when (test [comma] (tok_value t)) (do _ ← advance; ret tt);
  do prev ← peekM (-1);
  do prev ← defined prev;
  let end_ := (tok_start prev + tok_length prev)%Z in
  do key ← blockKey;
  pushError {| et_start := start; et_length := end_ - start;
               et_reasons := []; et_block := key |}.

(** [while (this.peek() && !/[,\)]/.test(this.peek().value))
       args.push(this.consume())]. *)
Fixpoint collectArgs (fuel : nat) (args : list LexicalToken) : M (list LexicalToken) :=
  match fuel with
  | O => outOfFuel
  | S fuel' =>
      do t ← peekM 0;
      match t with
      | Some t =>
          if negb (test [comma; closeParen] (tok_value t))
          then do a ← consume; do a ← defined a; collectArgs fuel' (args ++ [a])
          else ret args
      | None => ret args
      end
  end.

(** [if (/[,]/.test(this.peek().value)) this.pushToken({...this.consume(),
     type: FnParamDelimiter})]. *)
Definition parseParamDelimiter : M unit :=
  do t ← peekM 0;
  do t ← defined t;
  when (test [comma] (tok_value t))
    (do d ← consume;
     pushToken (withType SemanticTokenType.FnParamDelimiter (ofToken d))).

(** The [while] loop of [parseFnParameters]. *)
Fixpoint parseFnParametersLoop (fuel : nat) (fnName : string)
    (parameters : Parameters) : M Parameters :=
  match fuel with
  | O => outOfFuel
  | S fuel' =>
      do t ← peekM 0;
      match t with
      | None => ret parameters
      | Some t =>
          if test [closeParen] (tok_value t) then ret parameters
          else if negb (isFnParameter fnName (tok_value t)) then
            do _ ← parseErrorUntilEndOfParamScope fuel';
            parseFnParametersLoop fuel' fnName parameters
          else if isFnFlagParameter fnName (tok_value t) then
            let parameters :=
              spread parameters (translateFnArgs fnName (tok_value t) []) in
            do f ← consume;
            do _ ← pushToken (withType SemanticTokenType.FnParameter (ofToken f));
            do _ ← parseParamDelimiter;
            parseFnParametersLoop fuel' fnName parameters
          else
            do t1 ← peekM 1;
            do t2 ← peekM 2;
            if match t1 with
               | Some t1 => negb (test [colon] (tok_value t1))
               | None => false
               end then
              do _ ← parseErrorUntilEndOfParamScope fuel';
              parseFnParametersLoop fuel' fnName parameters
            else if match t2 with
                    | Some t2 => negb (isValidFnArg fnName (tok_value t) t2)
                    | None => false
                    end then
              do _ ← parseErrorUntilEndOfParamScope fuel';
              parseFnParametersLoop fuel' fnName parameters
            else
              do paramName ← consume;
              do kvDelimiter ← consume;
              do args ← collectArgs fuel' [];
              do _ ← pushToken (withType SemanticTokenType.FnParameter (ofToken paramName));
              do _ ← pushToken (withType SemanticTokenType.FnParamKvDelimiter
                                  (ofToken kvDelimiter));
              do _ ← foldr (λ a k, do _ ← pushToken (ofToken (Some a)); k) (ret tt) args;
              (* [paramName] is the token peeked above, so it has a value *)
              let parameters :=
                spread parameters
                  (translateFnArgs fnName (render (tok_value <$> paramName)) args) in
              do _ ← parseParamDelimiter;
              parseFnParametersLoop fuel' fnName parameters
      end
  end.

Definition parseFnParameters (fuel : nat) (fnName : string) : M Parameters :=
  do b ← consume;
  do _ ← pushToken (withType SemanticTokenType.FnBracket (ofToken b));
  do parameters ← parseFnParametersLoop fuel fnName [];
  do b ← consume;
  do _ ← pushToken (withType SemanticTokenType.FnBracket (ofToken b));
  ret parameters.

(** [let parameters = {}; if (this.hasQueryParameters()) parameters =
     this.parseFnParameters(`_soundFn`)]. *)
Definition parseQueryParameters (fuel : nat) : M Parameters := λ p,
  if hasQueryParameters p then parseFnParameters fuel "_soundFn" p
  else Return [] p.

(** The token [parseIdentifier] pushes for a sound literal. *)
Definition soundLiteralFields (soundLiteral : LexicalToken)
    (parameters : Parameters) : Fields :=
  withIdParameters SemanticTokenType.SoundLiteral
    (soundLiteralId (tok_value soundLiteral) parameters) parameters
    (ofToken (Some soundLiteral)).

Definition parseIdentifier (fuel : nat) : M unit :=
  do t ← peekM 0;
  do t ← defined t;
  if isVariable (tok_value t) then
    do v ← consume;
    pushToken (withType SemanticTokenType.Variable_ (ofToken v))
  else if isSoundLiteral (tok_value t) then
    do soundLiteral ← consume;
    do soundLiteral ← defined soundLiteral;
    do parameters ← parseQueryParameters fuel;
    pushToken (soundLiteralFields soundLiteral parameters)
  else ret tt.

End WithSymbolTable.

(** The tokens still ahead of the cursor. *)
Definition remaining (p : Parser) : nat :=
  Z.to_nat (Z.of_nat (length (stream p)) - index p).

(** [analyze] starts a block with [reset]. *)
Definition reset (tokens : list LexicalToken) (errors : list ErrorToken)
    (key : string) (index : Z) : Parser :=
  {| stream := tokens; index := 0; block_key := key; block_index := index;
     result_tokens := []; result_errors := errors |}.

(** A call that started in [p] has finished (it returned or threw), and
    when it returned it left the stream alone and moved the cursor at
    least [n] tokens on. *)
Definition finishes {A} (n : Z) (p : Parser) (o : Outcome A) : Prop :=
  match o with
  | Return _ p' => stream p' = stream p ∧ (index p + n ≤ index p')%Z
  | Throw _ => True
  | OutOfFuel => False
  end.

(** C7 as the specification words it: two sound literals with the same
    text and the same set of parameters get the same id, whatever the
    order the parameters were written in. *)
Definition sameParameterSet (a b : option Parameters) : Prop :=
  match a, b with
  | Some a, Some b => a ≡ₚ b
  | _, _ => False
  end.

Definition idIgnoresParameterOrder : Prop :=
  ∀ isVariable isFn isFnParameter isFnFlagParameter isValidFnArg translateFnArgs
    (fuel : nat) (p q p' q' : Parser) (tp tq : SemanticToken),
    parseIdentifier isVariable isFn isFnParameter isFnFlagParameter
      isValidFnArg translateFnArgs fuel p = Return tt p' →
    parseIdentifier isVariable isFn isFnParameter isFnFlagParameter
      isValidFnArg translateFnArgs fuel q = Return tt q' →
    last (result_tokens p') = Some tp →
    last (result_tokens q') = Some tq →
    st_type tp = Some SemanticTokenType.SoundLiteral →
    st_type tq = Some SemanticTokenType.SoundLiteral →
    st_value tp = st_value tq →
    sameParameterSet (st_parameters tp) (st_parameters tq) →
    st_id tp = st_id tq.

(** A symbol table to run the parser with: no variables, no functions,
    and a sound function with the key-value parameters [a] and [b] whose
    arguments are kept as they are written. *)
Module Example.

Definition isVariable (identifier : string) : bool := false.
Definition isFn (identifier : string) : bool := false.
Definition isFnParameter (fnName k : string) : bool :=
  bool_decide (fnName = "_soundFn") && bool_decide (k ∈ ["a"; "b"]).
Definition isFnFlagParameter (fnName k : string) : bool := false.
Definition isValidFnArg (fnName k : string) (arg : LexicalToken) : bool := true.
Definition translateFnArgs (fnName k : string) (args : list LexicalToken) : Parameters :=
  [(k, String.concat "," (tok_value <$> args))].

Definition token (ty v : string) (start : Z) : LexicalToken :=
  {| tok_type := ty; tok_value := v; tok_start := start;
     tok_length := Z.of_nat (String.length v); tok_block := "block" |}.

(** [kick(a: 1, b: 2)] *)
Definition kick_a_b : list LexicalToken :=
  [token "IDENTIFIER" "kick" 0; token "BRACKET" "(" 4;
   token "IDENTIFIER" "a" 5; token "DELIMITER" ":" 6; token "NUMBER" "1" 8;
   token "DELIMITER" "," 9;
   token "IDENTIFIER" "b" 11; token "DELIMITER" ":" 12; token "NUMBER" "2" 14;
   token "BRACKET" ")" 15].

(** [kick(b: 2, a: 1)] *)
Definition kick_b_a : list LexicalToken :=
  [token "IDENTIFIER" "kick" 0; token "BRACKET" "(" 4;
   token "IDENTIFIER" "b" 5; token "DELIMITER" ":" 6; token "NUMBER" "2" 8;
   token "DELIMITER" "," 9;
   token "IDENTIFIER" "a" 11; token "DELIMITER" ":" 12; token "NUMBER" "1" 14;
   token "BRACKET" ")" 15].

(** [bass  drum(b: 2, a: 1)], a literal of two words *)
Definition bass_drum_b_a : list LexicalToken :=
  [token "IDENTIFIER" "bass  drum" 0; token "BRACKET" "(" 10;
   token "IDENTIFIER" "b" 11; token "DELIMITER" ":" 12; token "NUMBER" "2" 14;
   token "DELIMITER" "," 15;
   token "IDENTIFIER" "a" 17; token "DELIMITER" ":" 18; token "NUMBER" "1" 20;
   token "BRACKET" ")" 21].

(** A sound function whose parameters are named [1] and [2], and
    [kick(2: x, 1: y)]. *)
Definition isIndexParameter (fnName k : string) : bool :=
  bool_decide (fnName = "_soundFn") && bool_decide (k ∈ ["1"; "2"]).

Definition kick_2_1 : list LexicalToken :=
  [token "IDENTIFIER" "kick" 0; token "BRACKET" "(" 4;
   token "NUMBER" "2" 5; token "DELIMITER" ":" 6; token "IDENTIFIER" "x" 8;
   token "DELIMITER" "," 9;
   token "NUMBER" "1" 11; token "DELIMITER" ":" 12; token "IDENTIFIER" "y" 14;
   token "BRACKET" ")" 15].

Definition parse (tokens : list LexicalToken) : Outcome unit :=
  parseIdentifier isVariable isFn isFnParameter isFnFlagParameter
    isValidFnArg translateFnArgs 11 (reset tokens [] "block" 0).

(** The last token a parse pushed. *)
Definition lastToken (o : Outcome unit) : option SemanticToken :=
  match o with
  | Return _ p => last (result_tokens p)
  | _ => None
  end.

End Example.

End FirstPass.

(** ** The scheduler (src/A0/lang/runtime/scheduler/index.js): its timer *)

Module Scheduler.

(** The value [setInterval] returns. *)
Definition TimerId := nat.

(** [audioContext.state]. *)
Inductive AudioState := suspended | running.

Section WithThread.

(** Class Thread lives in ./thread, which is not part of the sources at
    hand: a thread and its two methods are parameters. *)
Variable Thread : Type.
Variable resetReadHead : Thread → Thread.
Variable threadRun : Z → Thread → Thread.

(** The fields of [this] that the life-cycle methods read or write. *)
Record Scheduler := mkScheduler {
  threads           : gmap string Thread;
  isPlaying         : bool;
  isPaused          : bool;
  isRecording       : bool;
  bpm_current       : Z;
  bpm_next          : Z;
  lookAheadInterval : Z;
  timerFn           : option TimerId;
  gain              : Z }.

(** The scheduler with what it acts on: the interval timers the event
    loop holds (id and period) and the state of the audio context. *)
Record World := mkWorld {
  this      : Scheduler;
  intervals : gmap TimerId Z;
  audio     : AudioState }.

Definition set_timerFn (t : option TimerId) (s : Scheduler) : Scheduler :=
  {| threads := threads s; isPlaying := isPlaying s; isPaused := isPaused s;
     isRecording := isRecording s; bpm_current := bpm_current s;
     bpm_next := bpm_next s; lookAheadInterval := lookAheadInterval s;
     timerFn := t; gain := gain s |}.

Definition set_threads (ts : gmap string Thread) (s : Scheduler) : Scheduler :=
  {| threads := ts; isPlaying := isPlaying s; isPaused := isPaused s;
     isRecording := isRecording s; bpm_current := bpm_current s;
     bpm_next := bpm_next s; lookAheadInterval := lookAheadInterval s;
     timerFn := timerFn s; gain := gain s |}.

(** The state the constructor leaves, [toggleMute(true)] included. *)
Definition constructor (audio0 : AudioState) : World :=
  {| this := {| threads := ∅; isPlaying := true; isPaused := false;
                isRecording := false; bpm_current := 128; bpm_next := 128;
                lookAheadInterval := 100; timerFn := None; gain := 0 |};
     intervals := ∅;
     audio := audio0 |}.

(** [setInterval(fn, ms)]: a timer under an id no active timer has. *)
Definition setInterval (ms : Z) (w : World) : TimerId * World :=
  let id := fresh (dom (intervals w)) in
  (id, {| this := this w; intervals := <[id := ms]> (intervals w); audio := audio w |}).

(** [clearInterval(id)]; [clearInterval(null)] does nothing. *)
Definition clearInterval (id : option TimerId) (w : World) : World :=
  match id with
  | Some id => {| this := this w; intervals := delete id (intervals w); audio := audio w |}
  | None => w
  end.

Definition start (w : World) : World :=
  match timerFn (this w) with
  | Some _ => w
  | None =>
      let '(id, w1) := setInterval (lookAheadInterval (this w)) w in
      {| this := set_timerFn (Some id) (this w1);
         intervals := intervals w1; audio := audio w1 |}
  end.

Definition stop (w : World) : World :=
  let w1 := clearInterval (timerFn (this w)) w in
  {| this := set_threads (resetReadHead <$> threads (this w1))
               (set_timerFn None (this w1));
     intervals := intervals w1;
     audio := suspended |}.

Definition pause (w : World) : World :=
  let w1 := clearInterval (timerFn (this w)) w in
  {| this := set_timerFn None (this w1);
     intervals := intervals w1;
     audio := suspended |}.

Definition killThread (key : string) (w : World) : World :=
  {| this := set_threads (delete key (threads (this w))) (this w);
     intervals := intervals w; audio := audio w |}.

Definition toggleMute (isMuted : bool) (w : World) : World :=
  {| this := {| threads := threads (this w); isPlaying := isPlaying (this w);
                isPaused := isPaused (this w); isRecording := isRecording (this w);
                bpm_current := bpm_current (this w); bpm_next := bpm_next (this w);
                lookAheadInterval := lookAheadInterval (this w);
                timerFn := timerFn (this w);
                gain := if isMuted then 0 else 1 |};
     intervals := intervals w; audio := audio w |}.

(** The callback handed to [setInterval]: one tick. *)
Definition tick (w : World) : World :=
  let s := this w in
  {| this := {| threads := threadRun (bpm_current s) <$> threads s;
                isPlaying := isPlaying s; isPaused := isPaused s;
                isRecording := isRecording s;
                bpm_current := bpm_next s; bpm_next := bpm_next s;
                lookAheadInterval := lookAheadInterval s;
                timerFn := timerFn s; gain := gain s |};
     intervals := intervals w;
     audio := running |}.

(** What can happen to a scheduler. *)
Inductive Op :=
| Start | Stop | Pause | Tick
| ToggleMute (isMuted : bool)
| KillThread (key : string).

Definition apply (w : World) (o : Op) : World :=
  match o with
  | Start => start w
  | Stop => stop w
  | Pause => pause w
  | Tick => tick w
  | ToggleMute m => toggleMute m w
  | KillThread k => killThread k w
  end.

(** The number of interval timers that are active. *)
Definition activeTimers (w : World) : nat := size (intervals w).

(** The timers the event loop holds are the one [timerFn] names, if any. *)
Definition timerOwned (w : World) : Prop :=
  intervals w =
    match timerFn (this w) with
    | Some id => {[ id := lookAheadInterval (this w) ]}
    | None => ∅
    end.

End WithThread.

Arguments threads {Thread} s.
Arguments isPlaying {Thread} s.
Arguments timerFn {Thread} s.
Arguments lookAheadInterval {Thread} s.
Arguments this {Thread} w.
Arguments intervals {Thread} w.
Arguments audio {Thread} w.
Arguments constructor {Thread} audio0.
Arguments start {Thread} w.
Arguments pause {Thread} w.
Arguments toggleMute {Thread} isMuted w.
Arguments killThread {Thread} key w.
Arguments activeTimers {Thread} w.
Arguments timerOwned {Thread} w.
Arguments clearInterval {Thread} id w.
Arguments setInterval {Thread} ms w.

End Scheduler.

(** ** The first-pass parser, the rest of the class: the tests on the
       token ahead, statements, sequences, choices and function chains

    Two things the class uses are defined nowhere.  [newErrorToken] is
    imported from the token module, which does not export it, so every
    call of [FirstPass.pushError] throws a TypeError.
    [parseRepetitionOperator] is called by [parseSequence] and is no
    method of the class: that call throws a TypeError too. *)

Module Analyzer.
Import Tokens FirstPass.

(** What a regular expression is matched against when it is handed a
    token object instead of the token's value. *)
Definition objectObject : string := "[object Object]".

Definition openParen : ascii := "("%char.
Definition openBracket : ascii := "["%char.
Definition closeBracket : ascii := "]"%char.

(** [{ ...fields, type, parameters }]. *)
Definition withParameters (ty : string) (parameters : Parameters)
    (fields : Fields) : Fields :=
  {| f_id := f_id fields; f_type := Some ty; f_value := f_value fields;
     f_start := f_start fields; f_length := f_length fields;
     f_block := f_block fields; f_parameters := Some parameters |}.

(** [this.result]. *)
Definition result (p : Parser) : list SemanticToken * list ErrorToken :=
  (result_tokens p, result_errors p).

Definition isAssignment (p : Parser) : bool :=
  match peek 0 p, peek 1 p with
  | Some t, Some t1 =>
      bool_decide (tok_type t = LexicalTokenType.Identifier) &&
      bool_decide (tok_type t1 = LexicalTokenType.Operator) &&
      bool_decide (tok_value t1 = "=")
  | _, _ => false
  end.

Definition isSequence (p : Parser) : bool :=
  match peek 0 p with
  | Some t =>
      bool_decide (tok_type t = LexicalTokenType.Identifier) ||
      test [openParen; openBracket] (tok_value t)
  | None => false
  end.

Definition isComment (p : Parser) : bool :=
  match peek 0 p with
  | Some t => bool_decide (tok_type t = LexicalTokenType.Comment)
  | None => false
  end.

Definition isNumber (p : Parser) : bool :=
  match peek 0 p with
  | Some t => bool_decide (tok_type t = LexicalTokenType.Number)
  | None => false
  end.

Definition isHz (p : Parser) : bool :=
  match peek 0 p, peek 1 p with
  | Some t, Some t1 =>
      bool_decide (tok_type t = LexicalTokenType.Hz) &&
      bool_decide (tok_type t1 = LexicalTokenType.HzUnit)
  | _, _ => false
  end.

(** The two bracket tests of [isChoice] are given the tokens themselves,
    not their values. *)
Definition isChoice (p : Parser) : bool :=
  match peek 0 p, peek (-1) p, peek 1 p with
  | Some t, Some prev, Some next =>
      bool_decide (tok_value t = "|") &&
      (bool_decide (tok_type prev = LexicalTokenType.Identifier) ||
       test [closeParen; closeBracket] objectObject) &&
      (bool_decide (tok_type next = LexicalTokenType.Identifier) ||
       test [openParen; openBracket] objectObject)
  | _, _, _ => false
  end.

Definition isChoiceParameter (p : Parser) : bool :=
  match peek 0 p, peek 1 p, peek 2 p with
  | Some t, Some t1, Some t2 =>
      bool_decide (tok_value t = "(") &&
      bool_decide (tok_type t1 = LexicalTokenType.Number) &&
      bool_decide (tok_value t2 = ")")
  | _, _, _ => false
  end.

Section WithSymbolTable.

Variable isVariable : string → bool.
Variable isFn : string → bool.
Variable isFnParameter : string → string → bool.
Variable isFnFlagParameter : string → string → bool.
Variable isValidFnArg : string → string → LexicalToken → bool.
Variable translateFnArgs : string → string → list LexicalToken → Parameters.

(** The [console.log] calls of [isChainOperator] are left out. *)
Definition isChainOperator (p : Parser) : bool :=
  match peek 0 p, peek (-1) p, peek 1 p with
  | Some t, Some prev, Some next =>
      bool_decide (tok_type t = LexicalTokenType.Operator) &&
      bool_decide (tok_value t = ".") &&
      (test [closeParen; closeBracket] (tok_value prev) ||
       bool_decide (tok_type prev = LexicalTokenType.Identifier)) &&
      bool_decide (tok_type next = LexicalTokenType.Identifier) &&
      isFn (tok_value next)
  | _, _, _ => false
  end.

(** [this.peek() && (A) || (B)]: the second alternative reads
    [this.peek().type] whether or not there is a token. *)
Definition isRepetitionOperator : M bool := λ p,
  let starFirst :=
    match peek 0 p, peek 1 p, peek (-1) p with
    | Some t, Some t1, Some prev =>
        bool_decide (tok_type t = LexicalTokenType.Operator) &&
        bool_decide (tok_value t = "*") &&
        bool_decide (tok_type t1 = LexicalTokenType.Number) &&
        (test [closeParen; closeBracket] (tok_value prev) ||
         bool_decide (tok_type prev = LexicalTokenType.Identifier))
    | _, _, _ => false
    end in
  if starFirst then Return true p
  else
    match peek 0 p with
    | None => Throw p
    | Some t =>
        Return
          (bool_decide (tok_type t = LexicalTokenType.Number) &&
           match peek 1 p, peek 2 p with
           | Some t1, Some t2 =>
               bool_decide (tok_type t1 = LexicalTokenType.Operator) &&
               bool_decide (tok_value t1 = "*") &&
               (test [openParen; openBracket] (tok_value t2) ||
                (bool_decide (tok_type t1 = LexicalTokenType.Identifier) &&
                 negb (isFn (tok_value t1))))
           | _, _ => false
           end) p
    end.

Definition parseEndOfStatement : M unit :=
  do t ← peekM 0;
  match t with
  | None => ret tt
  | Some t =>
      if bool_decide (tok_type t = LexicalTokenType.Comment) then
        do c ← consume; pushToken (ofToken c)
      else
        do endToken ← (λ p, Return (last (stream p)) p);
        do endToken ← defined endToken;
        let end_ := (tok_start endToken + tok_length endToken)%Z in
        do key ← blockKey;
        pushError {| et_start := tok_start t;
                     et_length := end_ - tok_start t;
                     et_reasons := []; et_block := key |}
  end.

Definition parseComment : M unit :=
  do t ← peekM 0;
  match t with
  | Some t =>
      if bool_decide (tok_type t = LexicalTokenType.Comment)
      then do c ← consume; pushToken (ofToken c)
      else ret tt
  | None => ret tt
  end.

(** [getLastTokenEnd].  Without a last token, reading its [start]
    throws.  For a last token without [start] or [length] (one pushed
    from [undefined]) JS computes NaN, which the integers here do not
    have: the model ends the call there.  [parseAssignment], its only
    caller, reaches it after it pushed two tokens of the stream, whose
    [start] and [length] are numbers. *)
Definition getLastTokenEnd : M Z := λ p,
  match last (result_tokens p) with
  | Some t =>
      match st_start t, st_length t with
      | Some s, Some n => Return (s + n)%Z p
      | _, _ => Throw p
      end
  | None => Throw p
  end.

(** [parseFn], with [parseFnChain] (the chaining operator is consumed,
    then the function is parsed) unfolded at its recursive call. *)
Fixpoint parseFn (fuel : nat) : M unit :=
  match fuel with
  | O => outOfFuel
  | S fuel' =>
      do fnToken ← consume;
      do fnToken ← defined fnToken;
      do has ← (λ p, Return (hasFnParameters isFnParameter (tok_value fnToken) p) p);
      do parameters ←
        (if has
         then parseFnParameters isFnParameter isFnFlagParameter isValidFnArg
                translateFnArgs fuel' (tok_value fnToken)
         else ret []);
      do _ ← pushToken (withParameters SemanticTokenType.Fn parameters
                          (ofToken (Some fnToken)));
      do chain ← (λ p, Return (isChainOperator p) p);
      if chain then
        do op ← consume;
        do _ ← pushToken (withType SemanticTokenType.ChainingOp (ofToken op));
        parseFn fuel'
      else ret tt
  end.

Definition parseFnChain (fuel : nat) : M unit :=
  do op ← consume;
  do _ ← pushToken (withType SemanticTokenType.ChainingOp (ofToken op));
  parseFn fuel.

(** [parseChoice]; [parseSequence] is the method it calls for a branch. *)
Fixpoint parseChoice (parseSequence : M unit) (fuel : nat) : M unit :=
  match fuel with
  | O => outOfFuel
  | S fuel' =>
      do again ← (λ p, Return (isChoice p) p);
      if again then
        do op ← consume;
        do _ ← pushToken (withType SemanticTokenType.ChoiceOp (ofToken op));
        do weighted ← (λ p, Return (isChoiceParameter p) p);
        do _ ← when weighted
          (do l ← consume;
           do _ ← pushToken (withType SemanticTokenType.FnBracket (ofToken l));
           do n ← consume;
           do _ ← pushToken (ofToken n);
           do r ← consume;
           pushToken (withType SemanticTokenType.FnBracket (ofToken r)));
        do branch ← (λ p, Return (isSequence p) p);
        if branch then
          do _ ← parseSequence;
          parseChoice parseSequence fuel'
        else parseEndOfStatement
      else ret tt
  end.

(** The [while] loop of [parseSequence]; it tells whether the method goes
    on to the closing bracket ([true]) or has returned ([false]).  The
    class has no method [parseRepetitionOperator]: the call throws. *)
Fixpoint parseSteps (parseSequence : M unit) (fuel : nat) : M bool :=
  match fuel with
  | O => outOfFuel
  | S fuel' =>
      do t ← peekM 0;
      match t with
      | None => ret true
      | Some t =>
          if test [closeParen; closeBracket] (tok_value t) then ret true
          else if bool_decide (tok_type t = LexicalTokenType.Identifier) then
            do _ ← parseIdentifier isVariable isFn isFnParameter
                     isFnFlagParameter isValidFnArg translateFnArgs fuel';
            parseSteps parseSequence fuel'
          else
            do seq ← (λ p, Return (isSequence p) p);
            if seq then
              do _ ← parseSequence; parseSteps parseSequence fuel'
            else
              do choice ← (λ p, Return (isChoice p) p);
              if choice then
                do _ ← parseChoice parseSequence fuel';
                parseSteps parseSequence fuel'
              else
                do chain ← (λ p, Return (isChainOperator p) p);
                if chain then
                  do _ ← parseFnChain fuel'; parseSteps parseSequence fuel'
                else
                  do repetition ← isRepetitionOperator;
                  if repetition then throw
                  else do _ ← parseEndOfStatement; ret false
      end
  end.

Fixpoint parseSequence (fuel : nat) : M unit :=
  match fuel with
  | O => outOfFuel
  | S fuel' =>
      do t ← peekM 0;
      do t ← defined t;
      do _ ←
        (if test [openParen] (tok_value t) then
           do b ← consume;
           pushToken (withType SemanticTokenType.SequenceBracket (ofToken b))
         else if test [openBracket] (tok_value t) then
           do b ← consume;
           pushToken (withType SemanticTokenType.BeatDivBracket (ofToken b))
         else ret tt);
      do goOn ← parseSteps (parseSequence fuel') fuel';
      if goOn then
        do t ← peekM 0;
        match t with
        | Some t =>
            if test [closeParen] (tok_value t) then
              do b ← consume;
              pushToken (withType SemanticTokenType.SequenceBracket (ofToken b))
            else if test [closeBracket] (tok_value t) then
              do b ← consume;
              pushToken (withType SemanticTokenType.BeatDivBracket (ofToken b))
            else ret tt
        | None => ret tt
        end
      else ret tt
  end.

Definition parseAssignment (fuel : nat) : M unit :=
  do t ← peekM 0;
  do t ← defined t;
  let start := tok_start t in
  do decl ← consume;
  do _ ← pushToken (withType SemanticTokenType.VariableDecl (ofToken decl));
  do op ← consume;
  do _ ← pushToken (withType SemanticTokenType.AssignmentOp (ofToken op));
  do number ← (λ p, Return (isNumber p) p);
  if number then
    do n ← consume; do _ ← pushToken (ofToken n); parseEndOfStatement
  else
    do hz ← (λ p, Return (isHz p) p);
    if hz then
      do h ← consume; do _ ← pushToken (ofToken h);
      do u ← consume; do _ ← pushToken (ofToken u);
      parseEndOfStatement
    else
      do next ← peekM 0;
      if match next with Some t => isFn (tok_value t) | None => false end then
        do _ ← parseFn fuel; parseEndOfStatement
      else
        do seq ← (λ p, Return (isSequence p) p);
        if seq then do _ ← parseSequence fuel; parseComment
        else
          do end_ ← getLastTokenEnd;
          do key ← blockKey;
          pushError {| et_start := start; et_length := end_ - start;
                       et_reasons := []; et_block := key |}.

(** [analyze(tokens, blockKey, blockIndex)], where [tokens] is the value
    the lexer returns: its tokens and its errors. *)
Definition analyze (fuel : nat) (tokens : list LexicalToken)
    (errors : list ErrorToken) (blockKey : string) (blockIndex : Z)
    : Outcome (list SemanticToken * list ErrorToken) :=
  (do _ ← (λ p,
       if isAssignment p then parseAssignment fuel p
       else if isSequence p then parseSequence fuel p
       else parseEndOfStatement p);
   λ p, Return (result p) p)
    (reset tokens errors blockKey blockIndex).

End WithSymbolTable.

End Analyzer.

(** ** The scheduler, the rest of the class: the transport and memory
       subscriptions of the constructor, recording, [scheduleThread] *)

Module Transport.
Import Scheduler.

(** Calls on the recorder ([recorder.start()], [recorder.stop()],
    [Recorder.download(blob, filename)]), in the order they are made. *)
Inductive RecorderCall := RecorderStart | RecorderStop | RecorderDownload.

(** A promise of the recorder whose [then] callback has not run yet. *)
Inductive Promise := Starting | Stopping.

Section WithThread.

Variable Thread : Type.
Variable resetReadHead : Thread → Thread.
Variable threadRun : Z → Thread → Thread.

(** [new Thread(this.mem.get(key), this.sym, this.audio.context,
    this.theme)]: the thread built for the variable [key]. *)
Variable newThread : string → Thread.

Record Session := mkSession {
  world    : World Thread;
  recorder : list RecorderCall;
  promises : list Promise }.

Definition onWorld (f : World Thread → World Thread) (s : Session) : Session :=
  {| world := f (world s); recorder := recorder s; promises := promises s |}.

Definition onScheduler (f : Scheduler Thread → Scheduler Thread)
    (w : World Thread) : World Thread :=
  {| this := f (this w); intervals := intervals w; audio := audio w |}.

Definition set_isPlaying (b : bool) (s : Scheduler Thread) : Scheduler Thread :=
  {| threads := threads s; isPlaying := b; isPaused := isPaused Thread s;
     isRecording := isRecording Thread s; bpm_current := bpm_current Thread s;
     bpm_next := bpm_next Thread s; lookAheadInterval := lookAheadInterval s;
     timerFn := timerFn s; gain := gain Thread s |}.

Definition set_isPaused (b : bool) (s : Scheduler Thread) : Scheduler Thread :=
  {| threads := threads s; isPlaying := isPlaying s; isPaused := b;
     isRecording := isRecording Thread s; bpm_current := bpm_current Thread s;
     bpm_next := bpm_next Thread s; lookAheadInterval := lookAheadInterval s;
     timerFn := timerFn s; gain := gain Thread s |}.

Definition set_isRecording (b : bool) (s : Scheduler Thread) : Scheduler Thread :=
  {| threads := threads s; isPlaying := isPlaying s; isPaused := isPaused Thread s;
     isRecording := b; bpm_current := bpm_current Thread s;
     bpm_next := bpm_next Thread s; lookAheadInterval := lookAheadInterval s;
     timerFn := timerFn s; gain := gain Thread s |}.

Definition set_bpm_next (bpm : Z) (s : Scheduler Thread) : Scheduler Thread :=
  {| threads := threads s; isPlaying := isPlaying s; isPaused := isPaused Thread s;
     isRecording := isRecording Thread s; bpm_current := bpm_current Thread s;
     bpm_next := bpm; lookAheadInterval := lookAheadInterval s;
     timerFn := timerFn s; gain := gain Thread s |}.

(** The session the constructor leaves. *)
Definition newSession (audio0 : AudioState) : Session :=
  {| world := constructor audio0; recorder := []; promises := [] |}.

Definition recording (s : Session) : bool := isRecording Thread (this (world s)).
Definition playing (s : Session) : bool := isPlaying (this (world s)).

(** [scheduleThread(key)] (the audio connections are left out). *)
Definition scheduleThread (key : string) (w : World Thread) : World Thread :=
  onScheduler (λ s, set_threads Thread (<[key := newThread key]> (threads s)) s) w.

(** [startRecording()]: [isRecording] is set when the promise of
    [recorder.start()] is fulfilled. *)
Definition startRecording (s : Session) : Session :=
  if recording s then s
  else {| world := world s; recorder := recorder s ++ [RecorderStart];
          promises := promises s ++ [Starting] |}.

Definition stopRecording (s : Session) : Session :=
  if negb (recording s) then s
  else {| world := world s; recorder := recorder s ++ [RecorderStop];
          promises := promises s ++ [Stopping] |}.

(** The [then] callback of the promise at position [i] runs. *)
Definition fulfil (i : nat) (s : Session) : Session :=
  match promises s !! i with
  | Some Starting =>
      {| world := onScheduler (set_isRecording true) (world s);
         recorder := recorder s; promises := delete i (promises s) |}
  | Some Stopping =>
      {| world := onScheduler (set_isRecording false) (world s);
         recorder := recorder s ++ [RecorderDownload];
         promises := delete i (promises s) |}
  | None => s
  end.

(** [transport.isPlaying.subscribe(...)]. *)
Definition onIsPlaying (isPlaying : bool) (s : Session) : Session :=
  let s := onWorld (onScheduler (set_isPlaying isPlaying)) s in
  if playing s then onWorld start s
  else
    let s := if recording s then stopRecording s else s in
    onWorld (stop Thread resetReadHead) s.

(** [transport.isPaused.subscribe(...)]. *)
Definition onIsPaused (isPaused : bool) (s : Session) : Session :=
  let s := onWorld (onScheduler (set_isPaused isPaused)) s in
  if negb isPaused && playing s then onWorld start s
  else
    let s := if recording s then stopRecording s else s in
    onWorld pause s.

(** [transport.isRecording.subscribe(...)]. *)
Definition onIsRecording (isRecording : bool) (s : Session) : Session :=
  let s := if isRecording && negb (playing s) then onWorld start s else s in
  if isRecording then startRecording s else stopRecording s.

(** [transport.isMuted.subscribe(...)] and [transport.bpm.subscribe(...)]. *)
Definition onIsMuted (isMuted : bool) (s : Session) : Session :=
  onWorld (toggleMute isMuted) s.

Definition onBpm (bpm : Z) (s : Session) : Session :=
  onWorld (onScheduler (set_bpm_next bpm)) s.

(** [this.mem.changes.subscribe(...)]. *)
Inductive Change := SET (key : string) | DELETE (key : string) | OTHER.

Definition onChange (change : Change) (s : Session) : Session :=
  match change with
  | SET key => onWorld (scheduleThread key) s
  | DELETE key => onWorld (killThread key) s
  | OTHER => s
  end.

(** What can happen to a running scheduler: a signal of the transport, a
    change of the memory, a tick of the timer, a promise that is
    fulfilled. *)
Inductive Signal :=
| IsPlaying (b : bool)
| IsPaused (b : bool)
| IsRecording (b : bool)
| IsMuted (b : bool)
| Bpm (bpm : Z)
| Changes (change : Change)
| Ticks
| Fulfils (i : nat).

Definition handle (s : Session) (e : Signal) : Session :=
  match e with
  | IsPlaying b => onIsPlaying b s
  | IsPaused b => onIsPaused b s
  | IsRecording b => onIsRecording b s
  | IsMuted b => onIsMuted b s
  | Bpm bpm => onBpm bpm s
  | Changes c => onChange c s
  | Ticks => onWorld (tick Thread threadRun) s
  | Fulfils i => fulfil i s
  end.

(** The session after the signals [es], from construction on. *)
Definition after (audio0 : AudioState) (es : list Signal) : Session :=
  foldl handle (newSession audio0) es.

End WithThread.

Module Example.

(** Threads that keep the tempo of every run, oldest first. *)
Definition record : Session (list Z) → Signal → Session (list Z) :=
  handle (list Z) (λ _, []) (λ bpm t, t ++ [bpm]) (λ _, []).

(** The scheduler is played and the variable [x] is set: the timer runs
    and one thread is scheduled. *)
Definition playingX : Session (list Z) :=
  foldl record (newSession (list Z) suspended) [IsPlaying true; Changes (SET "x")].

End Example.

End Transport.

(** ** Invariants of the symbol table and of the automaton *)

Module SymbolTableInvariants.
Import SymbolTable.

(** Every record sits under its own identifier. *)
Definition keyed (w : World) : Prop :=
  ∀ id r, symbols (table w) !! id = Some r → rec_identifier r = id.

End SymbolTableInvariants.

Module ASTInvariants.
Import AST.

(** The children of a node are Terminals built from [steps]. *)
Definition terminalsOf (σ : Store) (nodes : list ref) (steps : list Step) : Prop :=
  Forall2 (λ r s, heap σ !! r = Some (Terminal s s)) nodes steps.

(** What [advance()] keeps true of a Choice over Terminals. *)
Definition choosing (choices : list ref) (steps : list Step) (pdf : list Q)
    (l : ref) (σ : Store) : Prop :=
  (∃ cu nx i c,
     heap σ !! l = Some (Choice cu nx (Some c) choices pdf (cumulative 0 pdf) choose) ∧
     choices !! i = Some c ∧ steps !! i = Some nx) ∧
  terminalsOf σ choices steps ∧
  unitDraws (rng σ).


End ASTInvariants.

(** ** Predicates and expected results the facts below are stated with *)

Module Expected.
Import Tokens FirstPass Analyzer.

(** The parser at token [i] of a block, with the tokens and errors found
    so far. *)
Definition cursor (ts : list LexicalToken) (i : nat) (key : string) (idx : Z)
    (toks : list SemanticToken) (errs : list ErrorToken) : Parser :=
  {| stream := ts; index := Z.of_nat i; block_key := key; block_index := idx;
     result_tokens := toks; result_errors := errs |}.

(** An identifier that is a step of its own: a variable or a sound
    literal, with no bracket in its text. *)
Definition plainIdentifier (isVariable isFn : string → bool)
    (t : LexicalToken) : Prop :=
  tok_type t = LexicalTokenType.Identifier ∧
  test [openParen; openBracket; closeParen; closeBracket] (tok_value t) = false ∧
  (isVariable (tok_value t) = true ∨ isFn (tok_value t) = false).

(** The token such an identifier is expected to give. *)
Definition identifierFields (isVariable : string → bool) (t : LexicalToken)
    : Fields :=
  if isVariable (tok_value t)
  then withType SemanticTokenType.Variable_ (ofToken (Some t))
  else soundLiteralFields t [].

(** [kick(zz: 1, b: 2)] with the cursor on [zz], which is no parameter of
    the sound function. *)
Definition kick_zz_b : list LexicalToken :=
  [Example.token "IDENTIFIER" "kick" 0; Example.token "BRACKET" "(" 4;
   Example.token "IDENTIFIER" "zz" 5; Example.token "DELIMITER" ":" 7;
   Example.token "NUMBER" "1" 9; Example.token "DELIMITER" "," 10;
   Example.token "IDENTIFIER" "b" 12; Example.token "DELIMITER" ":" 13;
   Example.token "NUMBER" "2" 15; Example.token "BRACKET" ")" 16].

Definition atBadParameter : Parser := cursor kick_zz_b 2 "block" 0 [] [].

(** [kick(zz: 1], the same with nothing after the argument. *)
Definition atUnclosedParameter : Parser :=
  cursor (take 5 kick_zz_b) 2 "block" 0 [] [].

End Expected.

(** * Proofs *)

(** ** Facts about the lodash helpers *)

Module LodashFacts.
Import Lodash.

Lemma elem_of_uniq x l : x ∈ uniq l ↔ x ∈ l.
Proof.
  induction l as [|y l IH]; simpl; [done|].
  rewrite elem_of_cons, list_elem_of_filter, IH, elem_of_cons.
  destruct (decide (x = y)); tauto.
Qed.

Lemma elem_of_xor x a b : x ∈ xor a b ↔ (x ∈ a ∧ x ∉ b) ∨ (x ∈ b ∧ x ∉ a).
Proof.
  unfold xor. rewrite elem_of_uniq, elem_of_app, !list_elem_of_filter. tauto.
Qed.

Lemma elem_of_intersection x a b : x ∈ intersection a b ↔ x ∈ a ∧ x ∈ b.
Proof.
  unfold intersection. rewrite elem_of_uniq, list_elem_of_filter. tauto.
Qed.

Lemma elem_of_keys {V} x (o : gmap string V) : x ∈ keys o ↔ is_Some (o !! x).
Proof.
  unfold keys. rewrite list_elem_of_fmap. split.
  - intros [[k v] [-> Hin]]. apply elem_of_map_to_list in Hin. by exists v.
  - intros [v Hv]. exists (x, v). split; [done|]. by apply elem_of_map_to_list.
Qed.

Lemma elem_of_values {V} (v : V) (o : gmap string V) :
  v ∈ values o ↔ ∃ k, o !! k = Some v.
Proof.
  unfold values. rewrite list_elem_of_fmap. split.
  - intros [[k v'] [-> Hin]]. apply elem_of_map_to_list in Hin. by exists k.
  - intros [k Hk]. exists (k, v). split; [done|]. by apply elem_of_map_to_list.
Qed.

Lemma elem_of_flatMap_id (x : string) (ls : list (list string)) :
  x ∈ flatMap ls id ↔ ∃ l, l ∈ ls ∧ x ∈ l.
Proof.
  unfold flatMap. rewrite list_elem_of_bind. split.
  - intros (l & Hx & Hl). by exists l.
  - intros (l & Hl & Hx). by exists l.
Qed.

End LodashFacts.

(** ** The symbol table: pruning, debounced resolution, cancellation *)

Module SymbolTableFacts.
Import Tokens SymbolTable SymbolTable.Example LodashFacts.

(** *** [remove] and the pruning loop *)

Lemma symbols_remove id id' w :
  symbols (table (remove id w)) !! id' =
    if decide (id = id') then None else symbols (table w) !! id'.
Proof. unfold remove. simpl. apply lookup_delete. Qed.

Lemma prune_symbols (ds : list string) : ∀ w id,
  symbols (table (foldl (λ w' d, remove d w') w ds)) !! id =
    if decide (id ∈ ds) then None else symbols (table w) !! id.
Proof.
  induction ds as [|d ds IH]; intros w id; cbn [foldl].
  - case_decide as H; [by apply not_elem_of_nil in H|done].
  - rewrite IH, symbols_remove.
    destruct (decide (id ∈ ds)), (decide (id ∈ d :: ds)) as [H|H],
      (decide (d = id)); try done; rewrite elem_of_cons in H;
      exfalso; intuition congruence.
Qed.

Lemma prune_rest (ds : list string) : ∀ w,
  let w' := foldl (λ w' d, remove d w') w ds in
  activeIdentifiersByBlock (table w') = activeIdentifiersByBlock (table w) ∧
  fetchWaitInterval (table w') = fetchWaitInterval (table w) ∧
  timers w' = timers w ∧ tasks w' = tasks w ∧ effects w' = effects w.
Proof.
  induction ds as [|d ds IH]; intros w; simpl; [done|].
  destruct (IH (remove d w)) as (-> & -> & -> & -> & ->). done.
Qed.

(** The identifiers of the symbols map that no block has. *)
Lemma dangling_spec (syms : gmap string SymbolRecord)
    (act : gmap string (list string)) (id : string) :
  id ∈ Lodash.intersection
         (Lodash.xor (Lodash.keys syms)
            (Lodash.uniq (Lodash.flatMap (Lodash.values act) Datatypes.id)))
         (Lodash.keys syms)
  ↔ is_Some (syms !! id) ∧ ¬ ∃ b ids, act !! b = Some ids ∧ id ∈ ids.
Proof.
  rewrite elem_of_intersection, elem_of_xor, elem_of_uniq, elem_of_flatMap_id,
    elem_of_keys.
  assert ((∃ l, l ∈ Lodash.values act ∧ id ∈ l)
          ↔ ∃ b ids, act !! b = Some ids ∧ id ∈ ids) as ->.
  { split.
    - intros (l & Hl & Hid). apply elem_of_values in Hl as [b Hb]. eauto.
    - intros (b & ids & Hb & Hid). exists ids. split; [|done].
      apply elem_of_values. eauto. }
  tauto.
Qed.

(** C2, counterexample: on an empty table, a block that names [x] makes [x]
    active, yet [x] is absent from the symbols map: the call only ever
    removes records. *)
Lemma updateActiveIdentifiers_never_adds :
  symbols (table activeNotMerged) !! "x" = None ∧
  active "x" activeNotMerged ∧
  ¬ absentIffInactive.
Proof.
  assert (Hact : active "x" activeNotMerged).
  { exists "A", ["x"]. split; [vm_compute; reflexivity|]. apply list_elem_of_here. }
  split; [vm_compute; reflexivity|]. split; [exact Hact|].
  intros H.
  apply (proj1 (H "A" onlyX initial "x")); [vm_compute; reflexivity|exact Hact].
Qed.

(** C2, amended: the call records the identifiers of the block and then
    drops from the symbols map exactly the identifiers no block has; a
    record whose identifier some block still has is kept as it was, and
    the call adds no record. *)
Theorem updateActiveIdentifiers_prunes (blockKey : string)
    (lexicon : LexicalAnalysisResults) (w : World) (id : string) :
  let w' := updateActiveIdentifiers blockKey lexicon w in
  activeIdentifiersByBlock (table w') =
    <[blockKey := Lodash.uniq
        (identifierValues (lex_tokens lexicon) ++
         identifierValues (Lodash.flatMap (lex_errors lexicon) err_tokens))]>
      (activeIdentifiersByBlock (table w)) ∧
  (symbols (table w') !! id = None
     ↔ symbols (table w) !! id = None ∨ ¬ active id w') ∧
  (active id w' → symbols (table w') !! id = symbols (table w) !! id).
Proof.
  intros w'. subst w'. unfold updateActiveIdentifiers.
  set (w1 := set_activeIdentifiersByBlock _ w).
  set (ds := Lodash.intersection _ _).
  destruct (prune_rest ds w1) as (Hact & _).
  assert (Hds : ∀ i, i ∈ ds ↔ is_Some (symbols (table w) !! i) ∧
                       ¬ active i (foldl (λ w' d, remove d w') w1 ds)).
  { intros i. unfold active. rewrite Hact. unfold ds.
    by rewrite dangling_spec. }
  split; [by rewrite Hact|].
  rewrite prune_symbols. change (symbols (table w1)) with (symbols (table w)).
  specialize (Hds id).
  destruct (decide (id ∈ ds)) as [Hin|Hin].
  - apply Hds in Hin as [Hs Hna]. split; [|done]. split; [|done].
    intros _. by right.
  - split.
    + split; [by left|]. intros [H|H]; [done|].
      destruct (symbols (table w) !! id) eqn:E; [|done].
      exfalso. apply Hin, Hds. eauto.
    + done.
Qed.


(** C2, witness: [kick] and [x] are in the table and block A names only
    [x]: [kick] is dropped, the record of [x] is kept as it was. *)
Lemma updateActiveIdentifiers_prunes_witness :
  symbols (table (updateActiveIdentifiers "A" onlyX kickAndX)) !! "kick" = None ∧
  symbols (table (updateActiveIdentifiers "A" onlyX kickAndX)) !! "x" =
    symbols (table kickAndX) !! "x".
Proof.
  destruct (updateActiveIdentifiers_prunes "A" onlyX kickAndX "x")
    as (_ & _ & Hkeep).
  destruct (updateActiveIdentifiers_prunes "A" onlyX kickAndX "kick")
    as (Hact & Hgone & _).
  split.
  - apply Hgone. right. intros (b & ids & Hb & Hin).
    rewrite Hact in Hb. apply lookup_insert_Some in Hb as [[_ <-]|[_ Hb]].
    + vm_compute in Hin. apply list_elem_of_singleton in Hin. discriminate Hin.
    + vm_compute in Hb. discriminate Hb.
  - apply Hkeep. exists "A", ["x"].
    split; [vm_compute; reflexivity|apply list_elem_of_here].
Defined.


(** *** [merge] and the debounce timer *)

Lemma has_spec id w : has id w = true ↔ is_Some (symbols (table w) !! id).
Proof. unfold has. apply bool_decide_eq_true. Qed.



Lemma merge_present symbol w :
  has (identifier symbol) w = true →
  merge symbol w =
    set_symbols (<[identifier symbol :=
                     spread (symbols (table w) !! identifier symbol) symbol]>
                   (symbols (table w))) w.
Proof. intros H. unfold merge. by rewrite H. Qed.





(** The first part of [_fetchNewSound] for an identifier the table has. *)
Lemma fire_present w i t record :
  timers w !! i = Some t →
  symbols (table w) !! identifier (callback t) = Some record →
  let id := identifier (callback t) in
  let w' := step w (TimerFires i) in
  symbols (table w') =
    <[id := {| rec_identifier := id; rec_type := rec_type record;
               rec_status := Some "searching"; rec_value := rec_value record |}]>
      (symbols (table w)) ∧
  timers w' = delete i (timers w) ∧
  tasks w' = tasks w ++ [AwaitSearch (callback t)] ∧
  effects w' = effects w ++ [VisualStatus id "searching"; FetchSearch id].
Proof.
  intros Ht Hrec id w'. subst id w'. unfold step. rewrite Ht.
  unfold _fetchNewSound.
  assert (has (identifier (callback t)) (set_timers (delete i (timers w)) w)
            = true) as Hhas
    by (apply has_spec; simpl; eauto).
  rewrite Hhas. cbn [negb].
  rewrite (merge_present (statusUpdate (identifier (callback t)) "searching")
             _ Hhas).
  simpl. rewrite Hrec. simpl.
  by rewrite <- app_assoc.
Qed.

(** A status write of the resolution on a record the table has. *)
Lemma merge_status id st w record :
  symbols (table w) !! id = Some record →
  merge (statusUpdate id st) w =
    set_symbols
      (<[id := {| rec_identifier := id; rec_type := rec_type record;
                  rec_status := Some st; rec_value := rec_value record |}]>
         (symbols (table w))) w.
Proof.
  intros Hrec.
  rewrite merge_present by (apply has_spec; simpl; eauto).
  simpl. by rewrite Hrec.
Qed.




(** The debounce interval is the constant the constructor sets. *)
Lemma merge_fetchWaitInterval s w :
  fetchWaitInterval (table (merge s w)) = fetchWaitInterval (table w).
Proof. unfold merge. by destruct (negb _ && _). Qed.

Lemma step_fetchWaitInterval w e :
  fetchWaitInterval (table (step w e)) = fetchWaitInterval (table w).
Proof.
  destruct e as [s|id|b lex|i|i r]; simpl.
  - apply merge_fetchWaitInterval.
  - done.
  - unfold updateActiveIdentifiers.
    match goal with |- context [foldl ?f ?w1 ?ds] =>
      destruct (prune_rest ds w1) as (_ & -> & _) end. done.
  - destruct (timers w !! i) as [t|]; [|done].
    unfold _fetchNewSound. destruct (negb _); [done|]. simpl.
    by rewrite merge_fetchWaitInterval.
  - destruct (tasks w !! i) as [t|]; [|done].
    destruct t as [s|s u|s], r as [[[|x results]|] q|bs|a|]; simpl;
      rewrite ?merge_fetchWaitInterval; try done.
    destruct (_ ≫= _); simpl; by rewrite ?merge_fetchWaitInterval.
Qed.

Lemma debounce_interval_fixed (es : list Event) :
  fetchWaitInterval (table (run initial es)) = 1000%Z.
Proof.
  unfold run. change 1000%Z with (fetchWaitInterval (table initial)).
  generalize initial. induction es as [|e es IH]; intros w; simpl; [done|].
  by rewrite IH, step_fetchWaitInterval.
Qed.





End SymbolTableFacts.

(** ** The automaton: construction, round robin, weighted choice *)

Module ASTFacts.
Import AST AST.Example.

(** *** The store *)

Lemma heap_write_eq l n σ : heap (write l n σ) !! l = Some n.
Proof. unfold write. simpl. apply lookup_insert_eq. Qed.

Lemma heap_write_ne l l' n σ : l ≠ l' → heap (write l n σ) !! l' = heap σ !! l'.
Proof. intros H. unfold write. simpl. by apply lookup_insert_ne. Qed.

Lemma fresh_unused (σ : Store) : heap σ !! fresh (dom (heap σ)) = None.
Proof. apply not_elem_of_dom, is_fresh. Qed.

Lemma at_index_nat {A} (l : list A) (k : nat) : at_index l (Z.of_nat k) = l !! k.
Proof.
  unfold at_index. rewrite Nat2Z.id.
  by destruct (Z.leb_spec 0 (Z.of_nat k)); [|lia].
Qed.

Lemma is_Terminal_write l n σ c :
  is_Terminal σ c → l ≠ c → is_Terminal (write l n σ) c.
Proof.
  intros (cu & nx & H) Hne. exists cu, nx. by rewrite heap_write_ne.
Qed.

(** *** Construction *)

Lemma newTerminal_returns step σ :
  newTerminal step σ =
    Return (fresh (dom (heap σ))) (write (fresh (dom (heap σ))) (Terminal step step) σ).
Proof. done. Qed.

Lemma newSequence_returns seq σ c n :
  seq !! 0 = Some c → heap σ !! c = Some n →
  newSequence seq σ =
    Return (fresh (dom (heap σ)))
      (write (fresh (dom (heap σ)))
         (Sequence (current n) (current n) (Some c) 0 seq) σ).
Proof.
  intros Hc Hn. unfold newSequence, current_of. rewrite Hc. simpl.
  rewrite Hn. simpl. done.
Qed.

(** C8: a Sequence cannot be built from an empty array, the constructor
    throws; from an array whose first element is a node it is built. *)
Theorem newSequence_empty_fails (σ : Store) :
  newSequence [] σ = Throw TypeError σ ∧
  ∀ c rest n, heap σ !! c = Some n →
    ∃ l σ', newSequence (c :: rest) σ = Return l σ' ∧
            heap σ !! l = None ∧
            heap σ' !! l =
              Some (Sequence (current n) (current n) (Some c) 0 (c :: rest)).
Proof.
  split; [done|]. intros c rest n Hn.
  eexists _, _. split; [by apply (newSequence_returns (c :: rest) σ c n)|].
  split; [apply fresh_unused|apply heap_write_eq].
Qed.

(** C10: right after construction [current()] and [next()] of a node are
    the same step: the step a Terminal was given, and for a Sequence or a
    Choice the current step of the child it starts on. *)
Theorem constructed_current_is_next (σ : Store) :
  (∀ step, ∃ l σ', newTerminal step σ = Return l σ' ∧
      current_of σ' (Some l) = Some step ∧ next_of σ' (Some l) = Some step) ∧
  (∀ seq c n, seq !! 0 = Some c → heap σ !! c = Some n →
      ∃ l σ', newSequence seq σ = Return l σ' ∧
        current_of σ' (Some c) = Some (current n) ∧
        current_of σ' (Some l) = Some (current n) ∧
        next_of σ' (Some l) = Some (current n)) ∧
  (∀ choices pdf choiceFn c g n,
      choiceFn choices (cumulative 0 pdf) (rng σ) = (Some c, g) →
      heap σ !! c = Some n →
      ∃ l σ', newChoice choices pdf choiceFn σ = Return l σ' ∧
        (currentNode <$> heap σ' !! l) = Some (Some c) ∧
        current_of σ' (Some c) = Some (current n) ∧
        current_of σ' (Some l) = Some (current n) ∧
        next_of σ' (Some l) = Some (current n)).
Proof.
  split; [|split].
  - intros step. eexists _, _. split; [apply newTerminal_returns|].
    unfold current_of, next_of. simpl. by rewrite lookup_insert_eq.
  - intros seq c n Hc Hn. eexists _, _.
    split; [by apply (newSequence_returns seq σ c n)|].
    assert (fresh (dom (heap σ)) ≠ c) as Hne.
    { intros <-. by rewrite fresh_unused in Hn. }
    unfold current_of, next_of. simpl.
    rewrite lookup_insert_eq, lookup_insert_ne, Hn by done. done.
  - intros choices pdf f c g n Hf Hn. unfold newChoice. rewrite Hf.
    unfold current_of. simpl. rewrite Hn. simpl.
    eexists _, _. split; [done|].
    assert (fresh (dom (heap σ)) ≠ c) as Hne.
    { intros <-. by rewrite fresh_unused in Hn. }
    unfold next_of. simpl.
    rewrite lookup_insert_eq, lookup_insert_ne, Hn by done. done.
Qed.

(** *** Round robin *)

Lemma advance_Terminal fuel c σ :
  is_Terminal σ c → advance (S fuel) c σ = Return true σ.
Proof. intros (cu & nx & H). simpl. by rewrite H. Qed.

Lemma advance_NonTerminal fuel l σ n c :
  heap σ !! l = Some n → (∀ cu nx, n ≠ Terminal cu nx) →
  currentNode n = Some c →
  advance (S fuel) l σ =
    match advance fuel c σ with
    | Return childHasCycled σ1 =>
        match (if childHasCycled then advanceCurrentNode l σ1
               else Return false σ1) with
        | Return thisHasCycled σ2 =>
            match heap σ2 !! l with
            | None => Throw TypeError σ2
            | Some n2 =>
                let n3 := set_current (next n2) n2 in
                match next_of σ2 (currentNode n2) with
                | None => Throw TypeError (write l n3 σ2)
                | Some s => Return thisHasCycled (write l (set_next s n3) σ2)
                end
            end
        | Throw e σ2 => Throw e σ2
        | OutOfFuel => OutOfFuel
        end
    | Throw e σ1 => Throw e σ1
    | OutOfFuel => OutOfFuel
    end.
Proof.
  intros Hl Hnt Hc. cbn [advance]. rewrite Hl.
  destruct n as [cu nx| |]; [by destruct (Hnt cu nx)|..]; by rewrite Hc.
Qed.

(** One [advance()] of a Sequence of Terminals that stands on child [k]. *)
Lemma advance_Sequence_step fuel σ l cu nx seq k :
  heap σ !! l = Some (Sequence cu nx (seq !! k) (Z.of_nat k) seq) →
  k < length seq →
  Forall (is_Terminal σ) seq →
  let k' := if decide (S k = length seq) then 0 else S k in
  ∃ cu' nx' σ',
    advance (S (S fuel)) l σ = Return (bool_decide (S k = length seq)) σ' ∧
    heap σ' !! l = Some (Sequence cu' nx' (seq !! k') (Z.of_nat k') seq) ∧
    Forall (is_Terminal σ') seq.
Proof.
  intros Hl Hk Hterm k'.
  assert (Hnotin : ∀ c, c ∈ seq → l ≠ c).
  { intros c Hc ->. rewrite Forall_forall in Hterm.
    destruct (Hterm _ Hc) as (? & ? & H). congruence. }
  destruct (lookup_lt_is_Some_2 seq k Hk) as [c Hc].
  assert (Hk' : k' < length seq) by (unfold k'; case_decide; lia).
  destruct (lookup_lt_is_Some_2 seq k' Hk') as [c' Hc'].
  assert (is_Terminal σ c) as Tc.
  { rewrite Forall_forall in Hterm. apply Hterm. by eapply list_elem_of_lookup_2. }
  assert (is_Terminal σ c') as (cu2 & nx2 & Tc').
  { rewrite Forall_forall in Hterm. apply Hterm. by eapply list_elem_of_lookup_2. }
  assert (Hne' : l ≠ c') by (apply Hnotin; by eapply list_elem_of_lookup_2).
  rewrite (advance_NonTerminal _ l σ _ c Hl) by done.
  rewrite (advance_Terminal fuel c σ Tc).
  unfold advanceCurrentNode. rewrite Hl.
  assert ((if (Z.of_nat k =? Z.of_nat (length seq) - 1)%Z
           then (0%Z, true) else ((Z.of_nat k + 1)%Z, false))
          = (Z.of_nat k', bool_decide (S k = length seq))) as ->.
  { unfold k'. destruct (Z.eqb_spec (Z.of_nat k) (Z.of_nat (length seq) - 1)).
    - rewrite decide_True, bool_decide_eq_true_2 by lia. done.
    - rewrite decide_False, bool_decide_eq_false_2 by lia.
      f_equal. lia. }
  rewrite at_index_nat, Hc'. rewrite heap_write_eq.
  unfold next_of. cbn [currentNode mbind option_bind].
  rewrite heap_write_ne, Tc' by done. cbn [fmap option_fmap option_map next set_current set_next].
  eexists _, _, _. split; [done|]. split.
  - by rewrite heap_write_eq.
  - rewrite Forall_forall in Hterm |- *. intros d Hd.
    apply is_Terminal_write; [|by apply Hnotin].
    apply is_Terminal_write; [by apply Hterm|by apply Hnotin].
Qed.

(** From child [k], the calls that are left until the wrap-around; the
    node then stands on its first child again, so the same holds for the
    next round. *)
Lemma advances_Sequence_from fuel seq l : ∀ m k σ cu nx,
  heap σ !! l = Some (Sequence cu nx (seq !! k) (Z.of_nat k) seq) →
  k + S m = length seq →
  Forall (is_Terminal σ) seq →
  ∃ σ' cu' nx',
    advances (S (S fuel)) (S m) l σ = Return (replicate m false ++ [true]) σ' ∧
    heap σ' !! l = Some (Sequence cu' nx' (seq !! 0) 0 seq) ∧
    Forall (is_Terminal σ') seq.
Proof.
  induction m as [|m IH]; intros k σ cu nx Hl Hk Hterm.
  - destruct (advance_Sequence_step fuel σ l cu nx seq k Hl ltac:(lia) Hterm)
      as (cu' & nx' & σ' & Hadv & Hl' & Hterm').
    rewrite decide_True in Hl' by lia.
    rewrite bool_decide_eq_true_2 in Hadv by lia.
    exists σ', cu', nx'. cbn [advances]. rewrite Hadv. done.
  - destruct (advance_Sequence_step fuel σ l cu nx seq k Hl ltac:(lia) Hterm)
      as (cu' & nx' & σ1 & Hadv & Hl' & Hterm').
    rewrite decide_False in Hl' by lia.
    rewrite bool_decide_eq_false_2 in Hadv by lia.
    destruct (IH (S k) σ1 cu' nx' Hl' ltac:(lia) Hterm')
      as (σ' & cu2 & nx2 & Hrest & Hl2 & Hterm2).
    exists σ', cu2, nx2. split; [|done].
    change (advances (S (S fuel)) (S (S m)) l σ) with
      (match advance (S (S fuel)) l σ with
       | Return b σ1 =>
           match advances (S (S fuel)) (S m) l σ1 with
           | Return bs σ2 => Return (b :: bs) σ2
           | Throw e σ2 => Throw e σ2
           | OutOfFuel => OutOfFuel
           end
       | Throw e σ1 => Throw e σ1
       | OutOfFuel => OutOfFuel
       end).
    rewrite Hadv, Hrest. done.
Qed.

(** A full round of a Sequence that stands on its first child. *)
Lemma sequence_period (σ : Store) (l : ref) (cu nx : Step)
    (seq : list ref) (fuel : nat) :
  heap σ !! l = Some (Sequence cu nx (seq !! 0) 0 seq) →
  1 ≤ length seq →
  Forall (is_Terminal σ) seq →
  2 ≤ fuel →
  ∃ σ' cu' nx',
    advances fuel (length seq) l σ =
      Return (replicate (length seq - 1) false ++ [true]) σ' ∧
    heap σ' !! l = Some (Sequence cu' nx' (seq !! 0) 0 seq) ∧
    Forall (is_Terminal σ') seq.
Proof.
  intros Hl Hn Hterm Hfuel.
  destruct fuel as [|[|fuel]]; [lia..|].
  destruct (length seq) as [|m] eqn:Hlen; [lia|].
  replace (S m - 1) with m by lia.
  apply (advances_Sequence_from fuel seq l m 0 σ cu nx); [done|lia|done].
Qed.

(** C4: a Sequence built from N >= 1 Terminals stands on child 0; N calls
    of [advance()] on it return false N - 1 times and then true, and it
    stands on child 0 again. *)
Theorem sequence_round_robin (σ : Store) (seq : list ref) (fuel : nat) :
  1 ≤ length seq →
  Forall (is_Terminal σ) seq →
  2 ≤ fuel →
  ∃ l σ0 σ',
    newSequence seq σ = Return l σ0 ∧
    currentNodeIndex σ0 l = Some 0%Z ∧
    advances fuel (length seq) l σ0 =
      Return (replicate (length seq - 1) false ++ [true]) σ' ∧
    currentNodeIndex σ' l = Some 0%Z.
Proof.
  intros Hn Hterm Hfuel.
  destruct seq as [|c rest] eqn:Hseq; [simpl in Hn; lia|]. rewrite <- Hseq in *.
  assert (Hc : seq !! 0 = Some c) by (by rewrite Hseq).
  assert (is_Terminal σ c) as (cu & nx & Hcn).
  { rewrite Forall_forall in Hterm. apply Hterm. rewrite Hseq.
    apply list_elem_of_here. }
  pose proof (newSequence_returns seq σ c _ Hc Hcn) as Hnew.
  set (l := fresh (dom (heap σ))) in *.
  set (σ0 := write l _ σ) in *.
  assert (Hl0 : heap σ0 !! l =
                  Some (Sequence cu cu (seq !! 0) 0 seq)).
  { unfold σ0. rewrite heap_write_eq, Hc. done. }
  assert (Hterm0 : Forall (is_Terminal σ0) seq).
  { rewrite Forall_forall in Hterm |- *. intros d Hd.
    apply is_Terminal_write; [by apply Hterm|].
    intros Heq. destruct (Hterm _ Hd) as (? & ? & Hd').
    rewrite <- Heq in Hd'. unfold l in Hd'. by rewrite fresh_unused in Hd'. }
  destruct (sequence_period σ0 l cu cu seq fuel Hl0 Hn Hterm0 Hfuel)
    as (σ' & cu' & nx' & Hadv & Hl' & _).
  exists l, σ0, σ'. split; [exact Hnew|].
  unfold currentNodeIndex. rewrite Hl0, Hl'. done.
Qed.


(** *** The cumulative table *)

Lemma cumulative_length pdf : ∀ acc, length (cumulative acc pdf) = length pdf.
Proof. induction pdf as [|p pdf IH]; intros acc; simpl; [done|]. by rewrite IH. Qed.

Lemma cumulative_above pdf : ∀ acc,
  Forall (λ p, (0 < p)%Q) pdf → Forall (λ c, (acc < c)%Q) (cumulative acc pdf).
Proof.
  induction pdf as [|p pdf IH]; intros acc Hpos; simpl; [constructor|].
  inversion Hpos as [|? ? Hp Hrest]; subst.
  assert (acc < p + acc)%Q as Hlt.
  { rewrite <- (Qplus_0_l acc) at 1. by apply Qplus_lt_le_compat; [|apply Qle_refl]. }
  constructor; [done|].
  eapply Forall_impl; [apply IH, Hrest|].
  intros c Hc. simpl in Hc. by eapply Qlt_trans.
Qed.

Lemma strictlyIncreasing_cons a l :
  Forall (λ c, (a < c)%Q) l → strictlyIncreasing l → strictlyIncreasing (a :: l).
Proof.
  intros Ha Hl i j x y Hij Hi Hj.
  destruct j as [|j]; [lia|]. simpl in Hj.
  destruct i as [|i]; simpl in Hi.
  - injection Hi as <-. rewrite Forall_forall in Ha. apply Ha.
    by eapply list_elem_of_lookup_2.
  - apply (Hl i j); [lia|done..].
Qed.

Lemma cumulative_strictlyIncreasing pdf : ∀ acc,
  Forall (λ p, (0 < p)%Q) pdf → strictlyIncreasing (cumulative acc pdf).
Proof.
  induction pdf as [|p pdf IH]; intros acc Hpos; simpl.
  - intros i j x y _ Hi. by rewrite lookup_nil in Hi.
  - inversion Hpos as [|? ? Hp Hrest]; subst.
    apply strictlyIncreasing_cons; [by apply cumulative_above|by apply IH].
Qed.

Lemma cumulative_atleast pdf : ∀ acc,
  Forall (λ p, (0 <= p)%Q) pdf → Forall (λ c, (acc <= c)%Q) (cumulative acc pdf).
Proof.
  induction pdf as [|p pdf IH]; intros acc Hpos; simpl; [constructor|].
  inversion Hpos as [|? ? Hp Hrest]; subst.
  assert (acc <= p + acc)%Q as Hle.
  { rewrite <- (Qplus_0_l acc) at 1. by apply Qplus_le_compat; [|apply Qle_refl]. }
  constructor; [done|].
  eapply Forall_impl; [apply IH, Hrest|].
  intros c Hc. simpl in Hc. by eapply Qle_trans.
Qed.

Lemma nonDecreasing_cons a l :
  Forall (λ c, (a <= c)%Q) l → nonDecreasing l → nonDecreasing (a :: l).
Proof.
  intros Ha Hl i j x y Hij Hi Hj.
  destruct i as [|i]; simpl in Hi.
  - injection Hi as <-. destruct j as [|j]; simpl in Hj.
    + injection Hj as <-. apply Qle_refl.
    + rewrite Forall_forall in Ha. apply Ha. by eapply list_elem_of_lookup_2.
  - destruct j as [|j]; [lia|]. simpl in Hj.
    apply (Hl i j); [lia|done..].
Qed.

Lemma cumulative_nonDecreasing pdf : ∀ acc,
  Forall (λ p, (0 <= p)%Q) pdf → nonDecreasing (cumulative acc pdf).
Proof.
  induction pdf as [|p pdf IH]; intros acc Hpos; simpl.
  - intros i j x y _ Hi. by rewrite lookup_nil in Hi.
  - inversion Hpos as [|? ? Hp Hrest]; subst.
    apply nonDecreasing_cons; [by apply cumulative_atleast|by apply IH].
Qed.

Lemma exactWeights_positive pdf :
  exactWeights pdf → Forall (λ p, (0 < p)%Q) pdf.
Proof.
  intros (ws & -> & Hpos & _). induction Hpos as [|w ws Hw Hpos IH]; [constructor|].
  rewrite fmap_cons. constructor; [|done].
  change 0%Q with (inject_Z 0). by rewrite <- Zlt_Qlt.
Qed.

Lemma cumulative_last_positive pdf : ∀ acc total,
  (0 <= acc)%Q → Forall (λ p, (0 < p)%Q) pdf →
  last (cumulative acc pdf) = Some total → (0 < total)%Q.
Proof.
  intros acc total Hacc Hpos Hlast.
  assert (Forall (λ c, (acc < c)%Q) (cumulative acc pdf)) as Hall
    by (by apply cumulative_above).
  rewrite Forall_forall in Hall.
  eapply Qle_lt_trans; [exact Hacc|]. apply Hall.
  rewrite last_lookup in Hlast. by eapply list_elem_of_lookup_2.
Qed.

(** *** [choose] *)

Lemma filterDraws_rng total cdf : ∀ g,
  draws (filterDraws total cdf g).2 = draws g ∧
  taken (filterDraws total cdf g).2 = taken g + length cdf.
Proof.
  induction cdf as [|c cdf IH]; intros g; simpl; [split; [done|lia]|].
  specialize (IH {| draws := draws g; taken := S (taken g) |}).
  destruct (filterDraws total cdf _) as [rest g2]. simpl in *.
  destruct IH as [-> ->]. split; [done|lia].
Qed.

Lemma filterDraws_length total cdf : ∀ g,
  length (filterDraws total cdf g).1 ≤ length cdf.
Proof.
  induction cdf as [|c cdf IH]; intros g; simpl; [done|].
  specialize (IH {| draws := draws g; taken := S (taken g) |}).
  destruct (filterDraws total cdf _) as [rest g2]. simpl in *.
  destruct (Qle_bool _ _); simpl; lia.
Qed.

(** The last entry is the total, and no draw below 1 reaches it: the
    index [choose] computes is an index of the table. *)
Lemma filterDraws_in_range total cdf : ∀ g,
  unitDraws g → (0 < total)%Q → last cdf = Some total →
  length (filterDraws total cdf g).1 < length cdf.
Proof.
  induction cdf as [|c cdf IH]; intros g Hg Hpos Hlast; [done|].
  simpl.
  set (g1 := {| draws := draws g; taken := S (taken g) |}).
  destruct cdf as [|c2 cdf].
  - simpl in *. injection Hlast as ->.
    destruct (Hg (taken g)) as [_ Hlt].
    assert (Qle_bool total (draws g (taken g) * total) = false) as ->; [|simpl; lia].
    apply not_true_is_false. rewrite Qle_bool_iff. apply Qlt_not_le.
    rewrite <- (Qmult_1_l total) at 2. by apply Qmult_lt_compat_r.
  - assert (length (filterDraws total (c2 :: cdf) g1).1 < length (c2 :: cdf)) as H.
    { apply IH; [done|done|]. by rewrite last_cons_cons in Hlast. }
    destruct (filterDraws total (c2 :: cdf) g1) as [rest g2]. simpl in *.
    destruct (Qle_bool _ _); simpl; lia.
Qed.





Lemma advanceCurrentNode_Choice σ l cu nx cn choices pdf cdf f :
  heap σ !! l = Some (Choice cu nx cn choices pdf cdf f) →
  advanceCurrentNode l σ =
    Return true
      {| heap := <[l := Choice cu nx (f choices cdf (rng σ)).1 choices pdf cdf f]> (heap σ);
         rng := (f choices cdf (rng σ)).2 |}.
Proof.
  intros Hl. unfold advanceCurrentNode. rewrite Hl.
  by destruct (f choices cdf (rng σ)).
Qed.


(** C6, amended: the table of a Choice that was built is the list of the
    running sums of the weights: it has one entry per weight, so one per
    child when the two arrays are as long as each other; it never
    decreases when no weight is negative; and it is strictly increasing
    when the weights are positive integers with a sum of at most 2^53.
    With such weights, children that are nodes and the default choice
    function, the Choice is built. *)
Theorem choice_cdf_table (σ : Store) (choices : list ref) (pdf : list Q) :
  (∀ choiceFn l σ',
     newChoice choices pdf choiceFn σ = Return l σ' →
     cdf_of σ' l = Some (cumulative 0 pdf) ∧
     length (cumulative 0 pdf) = length pdf ∧
     (Forall (λ p, (0 <= p)%Q) pdf → nonDecreasing (cumulative 0 pdf)) ∧
     (exactWeights pdf → strictlyIncreasing (cumulative 0 pdf))) ∧
  (length pdf = length choices →
   pdf ≠ [] →
   exactWeights pdf →
   Forall (λ c, is_Some (heap σ !! c)) choices →
   unitDraws (rng σ) →
   ∃ l σ', newChoice choices pdf choose σ = Return l σ').
Proof.
  split.
  - intros f l σ' Hnew. unfold newChoice in Hnew.
    destruct (f choices (cumulative 0 pdf) (rng σ)) as [c g].
    destruct (current_of _ c) as [s|]; [|discriminate Hnew].
    unfold new in Hnew. injection Hnew as <- <-.
    unfold cdf_of. rewrite heap_write_eq.
    split; [done|]. split; [apply cumulative_length|].
    split; [apply cumulative_nonDecreasing|].
    intros Hexact. by apply cumulative_strictlyIncreasing, exactWeights_positive.
  - intros Hlen Hne Hexact Hnodes Hunit.
    pose proof (exactWeights_positive pdf Hexact) as Hpos.
    assert (∃ total, last (cumulative 0 pdf) = Some total) as [total Hlast].
    { destruct (last (cumulative 0 pdf)) eqn:E; [eauto|].
      apply last_None in E. apply (f_equal length) in E.
      rewrite cumulative_length in E. by destruct pdf. }
    assert (0 < total)%Q as Htotal
      by (eapply cumulative_last_positive; [apply Qle_refl|done..]).
    pose proof (filterDraws_in_range total (cumulative 0 pdf) (rng σ)
                  Hunit Htotal Hlast) as Hrange.
    rewrite cumulative_length, Hlen in Hrange.
    unfold newChoice, choose. rewrite Hlast. simpl.
    destruct (filterDraws total (cumulative 0 pdf) (rng σ)) as [kept g].
    simpl in *.
    destruct (lookup_lt_is_Some_2 choices (length kept) Hrange) as [c Hc].
    rewrite Forall_forall in Hnodes.
    destruct (Hnodes c) as [n Hn]; [by eapply list_elem_of_lookup_2|].
    unfold current_of. rewrite Hc. simpl. rewrite Hn. simpl.
    eexists _, _. done.
Qed.


(** C4, witness: [new Sequence([kick, snare, kick])], whose first and
    third child are one object, advanced three times. *)
Lemma sequence_round_robin_witness :
  ∃ l σ0 σ',
    newSequence [0; 1; 0] terminals = Return l σ0 ∧
    currentNodeIndex σ0 l = Some 0%Z ∧
    advances 2 (length [0; 1; 0]) l σ0 =
      Return (replicate (length [0; 1; 0] - 1) false ++ [true]) σ' ∧
    currentNodeIndex σ' l = Some 0%Z.
Proof.
  apply (sequence_round_robin terminals [0; 1; 0] 2).
  - simpl. lia.
  - repeat constructor.
    + exists (step "kick"), (step "kick"). vm_compute. reflexivity.
    + exists (step "snare"), (step "snare"). vm_compute. reflexivity.
    + exists (step "kick"), (step "kick"). vm_compute. reflexivity.
  - lia.
Defined.

(** C8, witness: the empty array, and [kick, snare, kick]. *)
Lemma newSequence_empty_fails_witness :
  newSequence [] terminals = Throw TypeError terminals ∧
  ∃ l σ', newSequence [0; 1; 0] terminals = Return l σ' ∧
          heap terminals !! l = None ∧
          heap σ' !! l =
            Some (Sequence (current (Terminal (step "kick") (step "kick")))
                    (current (Terminal (step "kick") (step "kick")))
                    (Some 0) 0 [0; 1; 0]).
Proof.
  destruct (newSequence_empty_fails terminals) as [Hempty Hbuilt].
  split; [exact Hempty|].
  apply (Hbuilt 0 [1; 0] (Terminal (step "kick") (step "kick"))).
  vm_compute. reflexivity.
Defined.

(** C10, witness: a Terminal, a Sequence and a Choice built over the two
    Terminals. *)
Lemma constructed_current_is_next_witness :
  (∃ l σ', newTerminal (step "hat") terminals = Return l σ' ∧
     current_of σ' (Some l) = Some (step "hat") ∧
     next_of σ' (Some l) = Some (step "hat")) ∧
  (∃ l σ', newSequence [1; 0] terminals = Return l σ' ∧
     current_of σ' (Some 1) = Some (step "snare") ∧
     current_of σ' (Some l) = Some (step "snare") ∧
     next_of σ' (Some l) = Some (step "snare")) ∧
  (∃ l σ', newChoice [0; 1] [1; 1]%Q choose terminals = Return l σ' ∧
     (currentNode <$> heap σ' !! l) = Some (Some 1) ∧
     current_of σ' (Some 1) = Some (step "snare") ∧
     current_of σ' (Some l) = Some (step "snare") ∧
     next_of σ' (Some l) = Some (step "snare")).
Proof.
  destruct (constructed_current_is_next terminals) as (HT & HS & HC).
  split; [exact (HT (step "hat"))|]. split.
  - apply (HS [1; 0] 1 (Terminal (step "snare") (step "snare")));
      vm_compute; reflexivity.
  - apply (HC [0; 1] [1; 1]%Q choose 1
             {| draws := draws halves; taken := 2 |}
             (Terminal (step "snare") (step "snare")));
      vm_compute; reflexivity.
Defined.




(** The slip in [choose]: a fresh draw is taken for every entry.  With the
    table [1, 2, 3] and the draws 0.1, 0.9, 0.1 only the second entry is
    at most its draw, and the count 1 selects the second child, which
    neither the first draw (0.3, first child) nor the second (2.7, third
    child) would select on its own. *)
Lemma choose_draws_per_entry :
  (filterDraws 3 [1; 2; 3]%Q lowHighLow).1 = [2%Q] ∧
  (choose [0; 1; 2] [1; 2; 3]%Q lowHighLow).1 = Some 1 ∧
  taken (choose [0; 1; 2] [1; 2; 3]%Q lowHighLow).2 = 3 ∧
  firstAbove ((1 # 10) * 3)%Q [1; 2; 3]%Q = 0 ∧
  firstAbove ((9 # 10) * 3)%Q [1; 2; 3]%Q = 2.
Proof. repeat split; vm_compute; reflexivity. Qed.


(** C6, counterexample: with the weights [1, 0] the Choice is built and its
    table is [1, 1], which is not strictly increasing. *)
Lemma zero_weight_table_not_strict :
  ∃ σ', newChoice [0; 1] [1; 0]%Q choose terminals = Return 2 σ' ∧
        cdf_of σ' 2 = Some (cumulative 0 [1; 0]%Q) ∧
        cumulative 0 [1; 0]%Q = [(1 + 0)%Q; (0 + (1 + 0))%Q] ∧
        ¬ strictlyIncreasing (cumulative 0 [1; 0]%Q) ∧
        ¬ cdfStrictlyIncreasing.
Proof.
  assert (Hnot : ¬ strictlyIncreasing (cumulative 0 [1; 0]%Q)).
  { intros H. specialize (H 0 1 (1 + 0)%Q (0 + (1 + 0))%Q).
    assert (1 + 0 < 0 + (1 + 0))%Q as Hlt by (apply H; [lia|reflexivity..]).
    vm_compute in Hlt. discriminate Hlt. }
  assert (Hnew : ∃ σ', newChoice [0; 1] [1; 0]%Q choose terminals = Return 2 σ' ∧
                       cdf_of σ' 2 = Some (cumulative 0 [1; 0]%Q)).
  { vm_compute. eexists. split; reflexivity. }
  destruct Hnew as (σ' & Hnew & Hcdf).
  exists σ'. split; [exact Hnew|]. split; [exact Hcdf|].
  split; [reflexivity|]. split; [exact Hnot|].
  intros H.
  destruct (H terminals [0; 1] [1; 0]%Q choose 2 σ' _ eq_refl Hnew Hcdf) as [_ Hs].
  exact (Hnot Hs).
Qed.

(** C6, witness: the weights [1, 1] over [kick, snare]. *)
Lemma choice_cdf_table_witness :
  (∃ l σ', newChoice [0; 1] [1; 1]%Q choose terminals = Return l σ') ∧
  cdf_of withChoice 2 = Some (cumulative 0 [1; 1]%Q) ∧
  length (cumulative 0 [1; 1]%Q) = length [1; 1]%Q ∧
  nonDecreasing (cumulative 0 [1; 1]%Q) ∧
  strictlyIncreasing (cumulative 0 [1; 1]%Q).
Proof.
  destruct (choice_cdf_table terminals [0; 1] [1; 1]%Q) as [Htable Hbuilt].
  split.
  - apply Hbuilt.
    + reflexivity.
    + discriminate.
    + exists [1; 1]%Z. split; [reflexivity|].
      split; [repeat constructor|vm_compute; discriminate].
    + repeat constructor; eexists; vm_compute; reflexivity.
    + intros n. split; vm_compute; [discriminate|reflexivity].
  - destruct (Htable choose 2 withChoice) as (Hcdf & Hlen & Hmono & Hstrict).
    + vm_compute. reflexivity.
    + split; [exact Hcdf|]. split; [exact Hlen|]. split.
      * apply Hmono. repeat constructor; vm_compute; discriminate.
      * apply Hstrict. exists [1; 1]%Z. split; [reflexivity|].
        split; [repeat constructor|vm_compute; discriminate].
Defined.

End ASTFacts.

(** ** The first pass: the id of a sound literal *)

Module FirstPassFacts.
Import Tokens FirstPass.

(** *** Strings *)

Lemma append_assoc (s1 s2 s3 : string) : (s1 +:+ s2) +:+ s3 = s1 +:+ s2 +:+ s3.
Proof.
  induction s1 as [|c s1 IH]; [done|].
  change (String c ((s1 +:+ s2) +:+ s3) = String c (s1 +:+ s2 +:+ s3)).
  by f_equal.
Qed.

Lemma append_empty_r (s : string) : s +:+ EmptyString = s.
Proof.
  induction s as [|c s IH]; [done|].
  change (String c (s +:+ EmptyString) = String c s). by f_equal.
Qed.

Lemma append_empty_inv (s1 s2 : string) : s1 +:+ s2 = EmptyString → s1 = EmptyString ∧ s2 = EmptyString.
Proof. by destruct s1. Qed.

(** *** The parameter suffix *)

Lemma keyValue_nonempty (k v : string) : k +:+ "-" +:+ v ≠ EmptyString.
Proof. intros H. apply append_empty_inv in H as [_ H]. done. Qed.

(** Folding from a suffix that already has an item puts [_] before every
    further item. *)
Lemma paramStr_from (ps : Parameters) : ∀ acc, acc ≠ EmptyString →
  foldl (λ acc kv,
           acc +:+ (if bool_decide (acc = EmptyString) then EmptyString else "_")
               +:+ kv.1 +:+ "-" +:+ kv.2) acc ps =
  acc +:+ foldr (λ item s, "_" +:+ item +:+ s) EmptyString (keyValueItems ps).
Proof.
  induction ps as [|[k v] ps IH]; intros acc Hacc; simpl.
  - by rewrite append_empty_r.
  - rewrite bool_decide_eq_false_2 by done.
    rewrite IH.
    + by rewrite !append_assoc.
    + intros H. by apply append_empty_inv in H as [? _].
Qed.

Lemma concat_from (items : list string) : ∀ x,
  String.concat "_" (x :: items) =
  x +:+ foldr (λ item s, "_" +:+ item +:+ s) EmptyString items.
Proof.
  induction items as [|y items IH]; intros x.
  - simpl. by rewrite append_empty_r.
  - change (String.concat "_" (x :: y :: items))
      with (x +:+ "_" +:+ String.concat "_" (y :: items)).
    by rewrite IH.
Qed.

(** The suffix is the [key-value] items joined by [_], in the order of
    the parameter map. *)
Lemma paramStr_join (ps : Parameters) :
  paramStr ps = String.concat "_" (keyValueItems ps).
Proof.
  destruct ps as [|[k v] ps]; [done|].
  unfold paramStr. cbn [foldl keyValueItems fmap list_fmap fst snd].
  rewrite bool_decide_eq_true_2 by done.
  change (EmptyString +:+ EmptyString +:+ k +:+ "-" +:+ v) with (k +:+ "-" +:+ v).
  rewrite paramStr_from by apply keyValue_nonempty.
  by rewrite concat_from.
Qed.

(** [{ ...parameters, ...more }]: a name the map has keeps its place; a
    new name that is no array index goes to the end; a new array index
    goes behind the smaller indices the map starts with. *)
Lemma update_keys (k v : string) (o : Parameters) : (update k v o).*1 = o.*1.
Proof.
  induction o as [|[k' v'] o IH]; [done|]. cbn [update].
  destruct (decide (k = k')) as [->|Hne].
  - by rewrite bool_decide_eq_true_2.
  - rewrite bool_decide_eq_false_2 by done. rewrite !fmap_cons. by rewrite IH.
Qed.

Lemma assign_keys (k v : string) (o : Parameters) :
  k ∈ o.*1 → (assign k v o).*1 = o.*1.
Proof.
  intros Hk. unfold assign. rewrite bool_decide_eq_true_2 by done.
  apply update_keys.
Qed.

Lemma assign_fresh (k v : string) (o : Parameters) :
  k ∉ o.*1 → arrayIndex k = None → assign k v o = o ++ [(k, v)].
Proof.
  intros Hk Hi. unfold assign. rewrite bool_decide_eq_false_2 by done.
  by rewrite Hi.
Qed.

(** An entry whose name is an array index below [n]. *)
Lemma insertIndex_split (n : N) (k v : string) (o : Parameters) :
  ∃ before after,
    o = before ++ after ∧
    insertIndex n k v o = before ++ (k, v) :: after ∧
    Forall (λ kv, ∃ m, arrayIndex kv.1 = Some m ∧ (m < n)%N) before ∧
    ∀ kv, head after = Some kv →
      ∀ m, arrayIndex kv.1 = Some m → (n ≤ m)%N.
Proof.
  induction o as [|[k' v'] o IH].
  - exists [], []. by repeat split.
  - cbn [insertIndex].
    destruct (arrayIndex k') as [n'|] eqn:Hk'.
    + destruct (N.ltb_spec n' n) as [Hlt|Hge].
      * destruct IH as (before & after & -> & -> & Hb & Ha).
        exists ((k', v') :: before), after. repeat split; [|done].
        constructor; [|done]. by exists n'.
      * exists [], ((k', v') :: o). repeat split; [constructor|].
        intros kv [= <-] m. simpl. rewrite Hk'. by intros [= <-].
    + exists [], ((k', v') :: o). repeat split; [constructor|].
      intros kv [= <-] m. simpl. by rewrite Hk'.
Qed.

Lemma assign_index (k v : string) (o : Parameters) (n : N) :
  k ∉ o.*1 → arrayIndex k = Some n →
  ∃ before after,
    o = before ++ after ∧
    assign k v o = before ++ (k, v) :: after ∧
    Forall (λ kv, ∃ m, arrayIndex kv.1 = Some m ∧ (m < n)%N) before ∧
    ∀ kv, head after = Some kv →
      ∀ m, arrayIndex kv.1 = Some m → (n ≤ m)%N.
Proof.
  intros Hk Hi. unfold assign. rewrite bool_decide_eq_false_2 by done.
  rewrite Hi. apply insertIndex_split.
Qed.

Lemma spread_fresh (k v : string) (o : Parameters) :
  k ∉ o.*1 → arrayIndex k = None → spread o [(k, v)] = o ++ [(k, v)].
Proof. apply assign_fresh. Qed.

(** *** White space *)

Lemma replaceSpaces_no_space (s : string) : ∀ inRun,
  Forall (λ c, isSpace c = false) (list_ascii_of_string (replaceSpaces inRun s)).
Proof.
  induction s as [|c s IH]; intros inRun; cbn [replaceSpaces]; [constructor|].
  destruct (isSpace c) eqn:Hc.
  - destruct inRun; [apply IH|].
    cbn [list_ascii_of_string]. constructor; [done|apply IH].
  - cbn [list_ascii_of_string]. constructor; [done|apply IH].
Qed.

(** *** The cursor *)

Lemma peek_Some_bounds p t :
  peek 0 p = Some t → (0 ≤ index p < Z.of_nat (length (stream p)))%Z.
Proof.
  unfold peek. rewrite Z.add_0_r.
  destruct (Z.leb_spec (index p) (Z.of_nat (length (stream p)) - 1)),
    (Z.geb_spec (index p) 0); simpl; try done. lia.
Qed.

Lemma peek_Some_at p t :
  peek 0 p = Some t → at_index (stream p) (index p) = Some t.
Proof.
  intros H. pose proof (peek_Some_bounds p t H) as Hb. revert H.
  unfold peek. rewrite Z.add_0_r.
  destruct (Z.leb_spec (index p) (Z.of_nat (length (stream p)) - 1)),
    (Z.geb_spec (index p) 0); simpl; try done; lia.
Qed.

Lemma remaining_step p p' :
  stream p' = stream p → (index p + 1 ≤ index p')%Z →
  (0 ≤ index p < Z.of_nat (length (stream p)))%Z →
  S (remaining p') ≤ remaining p.
Proof. unfold remaining. intros -> ? ?. lia. Qed.

Lemma remaining_mono p p' :
  stream p' = stream p → (index p ≤ index p')%Z → remaining p' ≤ remaining p.
Proof. unfold remaining. intros -> ?. lia. Qed.

(** *** Calls that finish *)

Lemma finishes_bind {A B} (n k : Z) (p : Parser) (m : M A) (f : A → M B) :
  finishes n p (m p) →
  (∀ a p', m p = Return a p' → stream p' = stream p →
           (index p + n ≤ index p')%Z → finishes k p' (f a p')) →
  finishes (n + k) p (bind m f p).
Proof.
  unfold bind. destruct (m p) as [a p'| |]; simpl; try done.
  intros [Hs Hi] H. specialize (H a p' eq_refl Hs Hi).
  destruct (f a p'); simpl in *; [|done..].
  destruct H as [-> ?]. split; [done|lia].
Qed.

Lemma finishes_weaken {A} (n n' : Z) (p : Parser) (o : Outcome A) :
  finishes n p o → (n' ≤ n)%Z → finishes n' p o.
Proof. destruct o; simpl; try done. intros [? ?] ?. split; [done|lia]. Qed.

Lemma finishes_ret {A} (a : A) p : finishes 0 p (ret a p).
Proof. simpl. split; [done|lia]. Qed.

Lemma finishes_defined {A} (o : option A) p : finishes 0 p (defined o p).
Proof. destruct o; simpl; [split; [done|lia]|done]. Qed.

Lemma finishes_peekM k p : finishes 0 p (peekM k p).
Proof. simpl. split; [done|lia]. Qed.

Lemma finishes_blockKey p : finishes 0 p (blockKey p).
Proof. simpl. split; [done|lia]. Qed.

Lemma finishes_consume p : finishes 1 p (consume p).
Proof. simpl. split; [done|lia]. Qed.

Lemma finishes_advance p : finishes 1 p (advance p).
Proof. simpl. split; [done|lia]. Qed.

Lemma finishes_pushToken f p : finishes 0 p (pushToken f p).
Proof. simpl. split; [done|lia]. Qed.

Lemma finishes_pushError e p : finishes 0 p (pushError e p).
Proof. done. Qed.

Lemma finishes_pushAll (args : list LexicalToken) : ∀ p,
  finishes 0 p
    (foldr (λ a k, do _ ← pushToken (ofToken (Some a)); k) (ret tt) args p).
Proof.
  induction args as [|a args IH]; intros p; [apply finishes_ret|].
  cbn [foldr]. apply (finishes_bind 0 0); [apply finishes_pushToken|].
  intros _ p' _ _ _. apply IH.
Qed.

Lemma finishes_parseParamDelimiter p : finishes 0 p (parseParamDelimiter p).
Proof.
  unfold parseParamDelimiter.
  apply (finishes_bind 0 0); [apply finishes_peekM|]. intros t p1 _ _ _.
  apply (finishes_bind 0 0); [apply finishes_defined|]. intros t1 p2 _ _ _.
  unfold when. destruct (test [comma] (tok_value t1)); [|apply finishes_ret].
  eapply finishes_weaken;
    [apply (finishes_bind 1 0); [apply finishes_consume|]|lia].
  intros d p3 _ _ _. apply finishes_pushToken.
Qed.

Lemma peekM_eq k p : peekM k p = Return (peek k p) p.
Proof. done. Qed.

Lemma test_cons c cs s : test (c :: cs) s = test [c] s || test cs s.
Proof.
  induction s as [|a s IH]; simpl; [done|]. rewrite IH.
  assert (bool_decide (a ∈ c :: cs) =
          bool_decide (a ∈ [c]) || bool_decide (a ∈ cs)) as ->.
  { repeat case_bool_decide; simpl; try done; exfalso;
      repeat match goal with
             | H : _ ∈ _ :: _ |- _ => apply elem_of_cons in H as [?|?]
             | H : _ ∈ [] |- _ => by apply not_elem_of_nil in H
             | H : ¬ _ ∈ _ :: _ |- _ => rewrite elem_of_cons in H
             end; subst; tauto. }
  by destruct (bool_decide (a ∈ [c])), (bool_decide (a ∈ cs)),
       (test [c] s), (test cs s).
Qed.

Section WithSymbolTable.

Variable isVariable : string → bool.
Variable isFn : string → bool.
Variable isFnParameter : string → string → bool.
Variable isFnFlagParameter : string → string → bool.
Variable isValidFnArg : string → string → LexicalToken → bool.
Variable translateFnArgs : string → string → list LexicalToken → Parameters.

Local Abbreviation parseFnParametersLoop :=
  (parseFnParametersLoop isFnParameter isFnFlagParameter isValidFnArg translateFnArgs).
Local Abbreviation parseFnParameters :=
  (parseFnParameters isFnParameter isFnFlagParameter isValidFnArg translateFnArgs).
Local Abbreviation parseQueryParameters :=
  (parseQueryParameters isVariable isFn isFnParameter isFnFlagParameter
     isValidFnArg translateFnArgs).
Local Abbreviation parseIdentifier :=
  (parseIdentifier isVariable isFn isFnParameter isFnFlagParameter
     isValidFnArg translateFnArgs).

Lemma finishes_skip (fuel : nat) : ∀ p,
  remaining p < fuel → finishes 0 p (skipToEndOfParamScope fuel p).
Proof.
  induction fuel as [|fuel IH]; intros p Hfuel; [lia|].
  cbn [skipToEndOfParamScope]. unfold bind at 1. rewrite peekM_eq.
  destruct (peek 0 p) as [t|] eqn:Ht; [|apply finishes_ret].
  destruct (negb _); [|apply finishes_ret].
  eapply finishes_weaken;
    [apply (finishes_bind 1 0); [apply finishes_advance|]|lia].
  intros _ p' _ Hs Hi. apply IH.
  pose proof (remaining_step p p' Hs Hi (peek_Some_bounds p t Ht)). lia.
Qed.

(** Skipping from a token that ends no parameter scope moves on. *)
Lemma finishes_skip_moves (fuel : nat) p t :
  remaining p < fuel → peek 0 p = Some t →
  test [closeParen; comma] (tok_value t) = false →
  finishes 1 p (skipToEndOfParamScope fuel p).
Proof.
  intros Hfuel Ht Htest. destruct fuel as [|fuel]; [lia|].
  cbn [skipToEndOfParamScope]. unfold bind at 1. rewrite peekM_eq, Ht, Htest.
  cbn [negb].
  apply (finishes_bind 1 0); [apply finishes_advance|].
  intros _ p' _ Hs Hi. apply finishes_skip.
  pose proof (remaining_step p p' Hs Hi (peek_Some_bounds p t Ht)). lia.
Qed.

Lemma finishes_parseError (fuel : nat) p t :
  remaining p < fuel → peek 0 p = Some t →
  test [closeParen] (tok_value t) = false →
  finishes 1 p (parseErrorUntilEndOfParamScope fuel p).
Proof.
  intros Hfuel Ht Hclose. unfold parseErrorUntilEndOfParamScope.
  unfold bind at 1. rewrite peekM_eq, Ht. unfold bind at 1. cbn [defined ret].
  destruct (test [closeParen; comma] (tok_value t)) eqn:Hboth.
  - (* the token is a comma: the loop stays, the comma is stepped over *)
    assert (Hcomma : test [comma] (tok_value t) = true).
    { rewrite test_cons, Hclose in Hboth. done. }
    assert (Hskip : skipToEndOfParamScope fuel p = Return tt p).
    { destruct fuel as [|fuel]; [lia|]. cbn [skipToEndOfParamScope].
      unfold bind. by rewrite peekM_eq, Ht, Hboth. }
    unfold bind at 1. rewrite Hskip.
    unfold bind at 1. rewrite peekM_eq, Ht. unfold bind at 1. cbn [defined ret].
    rewrite Hcomma. cbn [when].
    apply (finishes_bind 1 0).
    { apply (finishes_bind 1 0); [apply finishes_advance|].
      intros. apply finishes_ret. }
    intros _ p1 _ _ _.
    apply (finishes_bind 0 0); [apply finishes_peekM|]. intros prev p2 _ _ _.
    apply (finishes_bind 0 0); [apply finishes_defined|]. intros prev' p3 _ _ _.
    apply (finishes_bind 0 0); [apply finishes_blockKey|]. intros key p4 _ _ _.
    apply finishes_pushError.
  - apply (finishes_bind 1 0); [by apply (finishes_skip_moves fuel p t)|].
    intros _ p1 _ _ _.
    apply (finishes_bind 0 0); [apply finishes_peekM|]. intros t1 p2 _ _ _.
    apply (finishes_bind 0 0); [apply finishes_defined|]. intros t2 p3 _ _ _.
    apply (finishes_bind 0 0).
    { unfold when. destruct (test [comma] (tok_value t2)); [|apply finishes_ret].
      eapply finishes_weaken;
        [apply (finishes_bind 1 0); [apply finishes_advance|]|lia].
      intros. apply finishes_ret. }
    intros _ p4 _ _ _.
    apply (finishes_bind 0 0); [apply finishes_peekM|]. intros prev p5 _ _ _.
    apply (finishes_bind 0 0); [apply finishes_defined|]. intros prev' p6 _ _ _.
    apply (finishes_bind 0 0); [apply finishes_blockKey|]. intros key p7 _ _ _.
    apply finishes_pushError.
Qed.

Lemma finishes_collectArgs (fuel : nat) : ∀ args p,
  remaining p < fuel → finishes 0 p (collectArgs fuel args p).
Proof.
  induction fuel as [|fuel IH]; intros args p Hfuel; [lia|].
  cbn [collectArgs]. unfold bind at 1. rewrite peekM_eq.
  destruct (peek 0 p) as [t|] eqn:Ht; [|apply finishes_ret].
  destruct (negb _); [|apply finishes_ret].
  eapply finishes_weaken;
    [apply (finishes_bind 1 0); [apply finishes_consume|]|lia].
  intros a p' _ Hs Hi.
  apply (finishes_bind 0 0); [apply finishes_defined|].
  intros a' p'' _ Hs' Hi'. apply IH.
  assert (Hs2 : stream p'' = stream p) by congruence.
  assert (Hi2 : (index p + 1 ≤ index p'')%Z) by lia.
  pose proof (remaining_step p p'' Hs2 Hi2 (peek_Some_bounds p t Ht)). lia.
Qed.

(** The loop over the parameters finishes: every round moves the cursor. *)
Lemma finishes_parseFnParametersLoop (fnName : string) (fuel : nat) :
  ∀ parameters p,
  remaining p + 2 ≤ fuel →
  finishes 0 p (parseFnParametersLoop fuel fnName parameters p).
Proof.
  induction fuel as [|fuel IH]; intros parameters p Hfuel; [lia|].
  cbn [FirstPass.parseFnParametersLoop]. unfold bind at 1. rewrite peekM_eq.
  destruct (peek 0 p) as [t|] eqn:Ht; [|apply finishes_ret].
  pose proof (peek_Some_bounds p t Ht) as Hb.
  assert (Hnext : ∀ parameters' p', stream p' = stream p →
            (index p + 1 ≤ index p')%Z →
            finishes 0 p' (parseFnParametersLoop fuel fnName parameters' p')).
  { intros parameters' p' Hs Hi. apply IH.
    pose proof (remaining_step p p' Hs Hi Hb). lia. }
  destruct (test [closeParen] (tok_value t)) eqn:Hclose; [apply finishes_ret|].
  assert (Herr : finishes 0 p
            ((do _ ← parseErrorUntilEndOfParamScope fuel;
              parseFnParametersLoop fuel fnName parameters) p)).
  { eapply finishes_weaken;
      [apply (finishes_bind 1 0);
         [apply (finishes_parseError fuel p t); [lia|done..]|]|lia].
    intros _ p' _ Hs Hi. by apply Hnext. }
  destruct (negb (isFnParameter fnName (tok_value t))); [exact Herr|].
  destruct (isFnFlagParameter fnName (tok_value t)).
  - eapply finishes_weaken;
      [apply (finishes_bind 1 0); [apply finishes_consume|]|lia].
    intros f p1 _ Hs1 Hi1.
    apply (finishes_bind 0 0); [apply finishes_pushToken|]. intros _ p2 _ Hs2 Hi2.
    apply (finishes_bind 0 0); [apply finishes_parseParamDelimiter|].
    intros _ p3 _ Hs3 Hi3. apply Hnext; [congruence|lia].
  - unfold bind at 1. rewrite peekM_eq. unfold bind at 1. rewrite peekM_eq.
    destruct (match peek 1 p with Some t1 => _ | None => false end); [exact Herr|].
    destruct (match peek 2 p with Some t2 => _ | None => false end); [exact Herr|].
    eapply finishes_weaken;
      [apply (finishes_bind 1 0); [apply finishes_consume|]|lia].
    intros paramName p1 _ Hs1 Hi1.
    apply (finishes_bind 0 0);
      [eapply finishes_weaken; [apply finishes_consume|lia]|].
    intros kv p2 _ Hs2 Hi2.
    apply (finishes_bind 0 0).
    { apply finishes_collectArgs.
      assert (Hs : stream p2 = stream p) by congruence.
      pose proof (remaining_mono p p2 Hs ltac:(lia)). lia. }
    intros args p3 _ Hs3 Hi3.
    apply (finishes_bind 0 0); [apply finishes_pushToken|]. intros _ p4 _ Hs4 Hi4.
    apply (finishes_bind 0 0); [apply finishes_pushToken|]. intros _ p5 _ Hs5 Hi5.
    apply (finishes_bind 0 0); [apply finishes_pushAll|]. intros _ p6 _ Hs6 Hi6.
    apply (finishes_bind 0 0); [apply finishes_parseParamDelimiter|].
    intros _ p7 _ Hs7 Hi7. apply Hnext; [congruence|lia].
Qed.

Lemma finishes_parseFnParameters (fnName : string) (fuel : nat) p :
  remaining p + 2 ≤ fuel →
  finishes 0 p (parseFnParameters fuel fnName p).
Proof.
  intros Hfuel. unfold FirstPass.parseFnParameters.
  eapply finishes_weaken;
    [apply (finishes_bind 1 0); [apply finishes_consume|]|lia].
  intros b p1 _ Hs1 Hi1.
  apply (finishes_bind 0 0); [apply finishes_pushToken|]. intros _ p2 _ Hs2 Hi2.
  apply (finishes_bind 0 0).
  { apply finishes_parseFnParametersLoop.
    assert (Hs : stream p2 = stream p) by congruence.
    pose proof (remaining_mono p p2 Hs ltac:(lia)). lia. }
  intros parameters p3 _ Hs3 Hi3.
  apply (finishes_bind 0 0);
    [eapply finishes_weaken; [apply finishes_consume|lia]|].
  intros b' p4 _ _ _.
  apply (finishes_bind 0 0); [apply finishes_pushToken|]. intros _ p5 _ _ _.
  apply finishes_ret.
Qed.

(** C7, amended: for an identifier that is neither a variable nor a
    function, [parseIdentifier] finishes; when the parameters parse, the
    token it pushes last carries the id made of the literal text with
    every run of white space turned into [_] (so that no white space is
    left in it), then [__], then the [key-value] items of the parameter
    map joined by [_] in the order of that map.  That order is not
    sorted by name: a name the map has keeps its place, a new name that
    is no array index goes to the end, and a new array index goes behind
    the smaller indices the map starts with. *)
Theorem soundLiteral_id (fuel : nat) (p : Parser) (t : LexicalToken) :
  peek 0 p = Some t →
  isVariable (tok_value t) = false →
  isFn (tok_value t) = false →
  length (stream p) < fuel →
  match parseQueryParameters fuel (set_index (index p + 1) p) with
  | Return parameters p2 =>
      parseIdentifier fuel p = pushToken (soundLiteralFields t parameters) p2 ∧
      st_id (newSemanticToken (soundLiteralFields t parameters)) =
        Some (replaceSpaces false (tok_value t) +:+ "__" +:+
              String.concat "_" (keyValueItems parameters))
  | Throw p2 => parseIdentifier fuel p = Throw p2
  | OutOfFuel => False
  end ∧
  Forall (λ c, isSpace c = false)
    (list_ascii_of_string (replaceSpaces false (tok_value t))) ∧
  ∀ (k v : string) (o : Parameters),
    (k ∈ o.*1 → (assign k v o).*1 = o.*1) ∧
    (k ∉ o.*1 → arrayIndex k = None → assign k v o = o ++ [(k, v)]) ∧
    (k ∉ o.*1 → ∀ n, arrayIndex k = Some n →
       ∃ before after,
         o = before ++ after ∧
         assign k v o = before ++ (k, v) :: after ∧
         Forall (λ kv, ∃ m, arrayIndex kv.1 = Some m ∧ (m < n)%N) before ∧
         ∀ kv, head after = Some kv →
           ∀ m, arrayIndex kv.1 = Some m → (n ≤ m)%N).
Proof.
  intros Ht Hvar Hfn Hfuel.
  split; [|split; [apply replaceSpaces_no_space|]].
  2:{ intros k v o. split; [apply assign_keys|]. split; [apply assign_fresh|].
      intros Hk n Hn. by apply assign_index. }
  pose proof (peek_Some_bounds p t Ht) as Hb.
  assert (Hrun : ∀ k : Parameters → M unit,
    FirstPass.parseIdentifier isVariable isFn isFnParameter isFnFlagParameter
      isValidFnArg translateFnArgs fuel p =
    bind (parseQueryParameters fuel)
      (λ parameters, pushToken (soundLiteralFields t parameters))
      (set_index (index p + 1) p)).
  { intros _. unfold FirstPass.parseIdentifier.
    unfold bind at 1. rewrite peekM_eq, Ht. unfold bind at 1. cbn [defined ret].
    rewrite Hvar. unfold isSoundLiteral. rewrite Hfn, Hvar. cbn [negb andb].
    unfold bind at 1. unfold consume. rewrite (peek_Some_at p t Ht).
    unfold bind at 1. cbn [defined ret]. done. }
  rewrite (Hrun (λ _, ret tt)). unfold bind.
  assert (Hfin : finishes 0 (set_index (index p + 1) p)
                   (parseQueryParameters fuel (set_index (index p + 1) p))).
  { unfold FirstPass.parseQueryParameters.
    destruct (hasQueryParameters _ _ _ _); [|apply finishes_ret].
    apply finishes_parseFnParameters. unfold remaining. simpl. lia. }
  destruct (parseQueryParameters fuel (set_index (index p + 1) p))
    as [parameters p2|p2|]; [|done..].
  split; [done|]. simpl. unfold soundLiteralId. by rewrite paramStr_join.
Qed.

End WithSymbolTable.

Import Example.

(** The parameters of [bass  drum(b: 2, a: 1)] and of [kick(2: x, 1: y)]. *)
Lemma parameters_bass_drum_b_a :
  ∃ p2,
    FirstPass.parseQueryParameters isVariable isFn isFnParameter
      isFnFlagParameter isValidFnArg translateFnArgs 11
      (set_index (index (reset bass_drum_b_a [] "block" 0) + 1)
         (reset bass_drum_b_a [] "block" 0)) =
    Return [("b", "2"); ("a", "1")] p2.
Proof. vm_compute. eexists. reflexivity. Qed.

Lemma parameters_kick_2_1 :
  ∃ p2,
    FirstPass.parseQueryParameters isVariable isFn isIndexParameter
      isFnFlagParameter isValidFnArg translateFnArgs 11
      (set_index (index (reset kick_2_1 [] "block" 0) + 1)
         (reset kick_2_1 [] "block" 0)) =
    Return [("1", "y"); ("2", "x")] p2.
Proof. vm_compute. eexists. reflexivity. Qed.

Lemma lastToken_pushToken (f : Fields) (p : Parser) :
  lastToken (pushToken f p) = Some (newSemanticToken f).
Proof. unfold lastToken, pushToken. cbn [result_tokens]. apply last_snoc. Qed.

(** C7, witness: [bass  drum(b: 2, a: 1)] keeps the written order of its
    parameters and loses its white space; [kick(2: x, 1: y)] gets its
    parameters in ascending order. *)
Lemma soundLiteral_id_witness :
  (st_id <$> lastToken
     (FirstPass.parseIdentifier isVariable isFn isFnParameter isFnFlagParameter
        isValidFnArg translateFnArgs 11 (reset bass_drum_b_a [] "block" 0))) =
    Some (Some "bass_drum__b-2_a-1") ∧
  (st_id <$> lastToken
     (FirstPass.parseIdentifier isVariable isFn isIndexParameter isFnFlagParameter
        isValidFnArg translateFnArgs 11 (reset kick_2_1 [] "block" 0))) =
    Some (Some "kick__1-y_2-x").
Proof.
  split.
  - destruct (soundLiteral_id isVariable isFn isFnParameter isFnFlagParameter
                isValidFnArg translateFnArgs 11 (reset bass_drum_b_a [] "block" 0)
                (token "IDENTIFIER" "bass  drum" 0)
                eq_refl eq_refl eq_refl ltac:(simpl; lia)) as (Hmain & _ & _).
    destruct parameters_bass_drum_b_a as [p2 Hp]. rewrite Hp in Hmain.
    destruct Hmain as [Hrun Hid]. rewrite Hrun, lastToken_pushToken.
    cbn [fmap option_fmap option_map]. rewrite Hid. reflexivity.
  - destruct (soundLiteral_id isVariable isFn isIndexParameter isFnFlagParameter
                isValidFnArg translateFnArgs 11 (reset kick_2_1 [] "block" 0)
                (token "IDENTIFIER" "kick" 0)
                eq_refl eq_refl eq_refl ltac:(simpl; lia)) as (Hmain & _ & _).
    destruct parameters_kick_2_1 as [p2 Hp]. rewrite Hp in Hmain.
    destruct Hmain as [Hrun Hid]. rewrite Hrun, lastToken_pushToken.
    cbn [fmap option_fmap option_map]. rewrite Hid. reflexivity.
Defined.

Lemma parse_kick_a_b :
  ∃ p, parseIdentifier isVariable isFn isFnParameter isFnFlagParameter
         isValidFnArg translateFnArgs 11 (reset kick_a_b [] "block" 0) =
         Return tt p ∧
       last (result_tokens p) =
         Some (newSemanticToken
                 (soundLiteralFields (token "IDENTIFIER" "kick" 0)
                    [("a", "1"); ("b", "2")])).
Proof. vm_compute. eexists. split; reflexivity. Qed.

Lemma parse_kick_b_a :
  ∃ p, parseIdentifier isVariable isFn isFnParameter isFnFlagParameter
         isValidFnArg translateFnArgs 11 (reset kick_b_a [] "block" 0) =
         Return tt p ∧
       last (result_tokens p) =
         Some (newSemanticToken
                 (soundLiteralFields (token "IDENTIFIER" "kick" 0)
                    [("b", "2"); ("a", "1")])).
Proof. vm_compute. eexists. split; reflexivity. Qed.

(** C7, counterexample: [kick(a: 1, b: 2)] and [kick(b: 2, a: 1)] have the
    same text and the same parameters, and get different ids: the
    parameters are not sorted. *)
Lemma id_depends_on_parameter_order :
  (st_id <$> lastToken (parse kick_a_b)) = Some (Some "kick__a-1_b-2") ∧
  (st_id <$> lastToken (parse kick_b_a)) = Some (Some "kick__b-2_a-1") ∧
  (st_parameters <$> lastToken (parse kick_a_b)) =
    Some (Some [("a", "1"); ("b", "2")]) ∧
  (st_parameters <$> lastToken (parse kick_b_a)) =
    Some (Some [("b", "2"); ("a", "1")]) ∧
  ¬ idIgnoresParameterOrder.
Proof.
  split; [vm_compute; reflexivity|]. split; [vm_compute; reflexivity|].
  split; [vm_compute; reflexivity|]. split; [vm_compute; reflexivity|].
  intros H.
  destruct parse_kick_a_b as (pa & Ea & La).
  destruct parse_kick_b_a as (pb & Eb & Lb).
  assert (Hperm : sameParameterSet (Some [("a", "1"); ("b", "2")])
                    (Some [("b", "2"); ("a", "1")])).
  { simpl. apply Permutation_swap. }
  pose proof (H isVariable isFn isFnParameter isFnFlagParameter isValidFnArg
                translateFnArgs 11 (reset kick_a_b [] "block" 0)
                (reset kick_b_a [] "block" 0) pa pb _ _ Ea Eb La Lb
                eq_refl eq_refl eq_refl Hperm) as Hid.
  vm_compute in Hid. discriminate Hid.
Qed.

End FirstPassFacts.

(** ** The scheduler: one timer at most *)

Module SchedulerFacts.
Import Scheduler.

Section WithThread.

Variable Thread : Type.
Variable resetReadHead : Thread → Thread.
Variable threadRun : Z → Thread → Thread.

Local Abbreviation World := (World Thread).
Local Abbreviation apply := (apply Thread resetReadHead threadRun).

Lemma start_active (w : World) :
  is_Some (timerFn (this w)) → start w = w.
Proof. intros [id H]. unfold start. by rewrite H. Qed.

Lemma start_timerFn (w : World) : is_Some (timerFn (this (start w))).
Proof.
  unfold start. destruct (timerFn (this w)) as [id|] eqn:E.
  - rewrite E. eauto.
  - simpl. eauto.
Qed.

Lemma start_idempotent (w : World) : start (start w) = start w.
Proof. apply start_active, start_timerFn. Qed.

Lemma timerOwned_constructor a : timerOwned (constructor (Thread := Thread) a).
Proof. done. Qed.

Lemma timerOwned_apply (w : World) (o : Op) : timerOwned w → timerOwned (apply w o).
Proof.
  destruct w as [[ts pl pa re bc bn la tf g] iv au].
  unfold timerOwned. simpl. intros ->.
  destruct o; try done; unfold Scheduler.apply, start, Scheduler.stop, pause;
    destruct tf as [id|]; simpl; try done.
  - apply delete_singleton_eq.
  - apply delete_singleton_eq.
Qed.

Lemma timerOwned_reachable a (ops : list Op) :
  timerOwned (foldl apply (constructor a) ops).
Proof.
  generalize (timerOwned_constructor a). generalize (constructor (Thread := Thread) a).
  induction ops as [|o ops IH]; intros w Hw; simpl; [done|].
  apply IH. by apply timerOwned_apply.
Qed.

Lemma timerOwned_activeTimers (w : World) :
  timerOwned w →
  activeTimers w = match timerFn (this w) with Some _ => 1 | None => 0 end.
Proof.
  unfold timerOwned, activeTimers. intros ->.
  destruct (timerFn (this w)); [apply map_size_singleton|apply map_size_empty].
Qed.

(** C9: in every state the scheduler can reach, [start()] on a scheduler
    whose timer is active changes nothing, a second [start()] changes
    nothing after the first, and after the two calls exactly one interval
    timer is active. *)
Theorem start_twice_one_timer (audio0 : AudioState) (ops : list Op) :
  let w := foldl apply (constructor audio0) ops in
  (is_Some (timerFn (this w)) → start w = w) ∧
  start (start w) = start w ∧
  activeTimers (start (start w)) = 1.
Proof.
  intros w. split; [apply start_active|]. split; [apply start_idempotent|].
  rewrite start_idempotent.
  assert (timerOwned (start w)) as H.
  { apply (timerOwned_apply w Start), timerOwned_reachable. }
  rewrite (timerOwned_activeTimers _ H).
  by destruct (start_timerFn w) as [id ->].
Qed.

End WithThread.

(** C9, witness: a scheduler with unit threads that was stopped and
    started has an active timer; a further [start()] changes nothing and
    one timer is active. *)
Lemma start_twice_one_timer_witness :
  start (foldl (apply unit id (λ _ t, t)) (constructor suspended) [Stop; Start]) =
    foldl (apply unit id (λ _ t, t)) (constructor suspended) [Stop; Start] ∧
  activeTimers
    (start (start (foldl (apply unit id (λ _ t, t)) (constructor suspended)
                     [Stop; Start]))) = 1.
Proof.
  destruct (start_twice_one_timer unit id (λ _ t, t) suspended [Stop; Start])
    as (Hactive & _ & Hone).
  split; [|exact Hone].
  apply Hactive. simpl. eauto.
Defined.

End SchedulerFacts.

(** ** The symbol table: lookups, the resolution protocol, pruning again *)

Module SymbolTableMore.
Import Tokens SymbolTable SymbolTable.Example SymbolTableInvariants.
Import LodashFacts SymbolTableFacts.


Lemma symbols_merge (symbol : Symbol) (w : World) :
  symbols (table (merge symbol w)) =
    <[identifier symbol := spread (symbols (table w) !! identifier symbol) symbol]>
      (symbols (table w)).
Proof. unfold merge. by destruct (negb _ && _). Qed.


Lemma keyed_merge symbol w : keyed w → keyed (merge symbol w).
Proof.
  intros Hw id r. rewrite symbols_merge.
  destruct (decide (id = identifier symbol)) as [->|Hne].
  - rewrite lookup_insert_eq. by intros [= <-].
  - rewrite lookup_insert_ne by done. apply Hw.
Qed.

Lemma keyed_symbols w w' :
  symbols (table w') = symbols (table w) → keyed w → keyed w'.
Proof. unfold keyed. by intros ->. Qed.

Lemma keyed_step w e : keyed w → keyed (step w e).
Proof.
  intros Hw. destruct e as [s|id|b lex|i|i r]; simpl.
  - by apply keyed_merge.
  - intros id' r. rewrite symbols_remove. case_decide; [done|apply Hw].
  - intros id' r. unfold updateActiveIdentifiers. rewrite prune_symbols.
    case_decide; [done|apply Hw].
  - destruct (timers w !! i) as [t|]; [|done].
    unfold _fetchNewSound. destruct (negb _); [by eapply keyed_symbols|].
    eapply keyed_symbols;
      [|apply (keyed_merge (statusUpdate (identifier (callback t)) "searching")
                 (set_timers (delete i (timers w)) w)); by eapply keyed_symbols].
    done.
  - destruct (tasks w !! i) as [t|]; [|done].
    assert (Hw' : keyed (set_tasks (delete i (tasks w)) w))
      by (by eapply keyed_symbols).
    destruct t as [s|s u|s], r as [[[|x results]|] q|bs|a|]; simpl; try done;
      try (eapply keyed_symbols; [|by apply keyed_merge]; done).
    destruct (_ ≫= _); [|done].
    eapply keyed_symbols; [|by apply keyed_merge]. done.
Qed.

(** X2: whatever happens to the table (merges, removals, prunings, timers
    that fire, lookups that settle), a record it holds under an identifier
    carries that identifier. *)
Theorem record_under_its_identifier (es : list Event) (id : string)
    (r : SymbolRecord) :
  symbols (table (run initial es)) !! id = Some r → rec_identifier r = id.
Proof.
  assert (Hk : keyed (run initial es)); [|apply Hk].
  unfold run. assert (keyed initial) as H0 by (intros ? ?; cbn; by rewrite lookup_empty).
  revert H0. generalize initial.
  induction es as [|e es IH]; intros w Hw; simpl; [done|].
  by apply IH, keyed_step.
Qed.

(** X2, witness: [kick] after its lookup came back empty. *)
Lemma record_under_its_identifier_witness :
  rec_identifier
    {| rec_identifier := "kick"; rec_type := Some "sound";
       rec_status := Some "unavailable"; rec_value := None |} = "kick".
Proof.
  apply (record_under_its_identifier
           [Merge kick; TimerFires 0; Settles 0 (SearchJson None 0)] "kick").
  vm_compute. reflexivity.
Defined.

(** *** The resolution protocol *)

Lemma floorIndex_in_range (r : Q) (n : nat) :
  (0 <= r)%Q → (r < 1)%Q → 0 < n →
  ∃ k, k < n ∧ floorIndex r n = Some k.
Proof.
  intros H0 H1 Hn. unfold floorIndex.
  set (x := (r * inject_Z (Z.of_nat n))%Q).
  assert (Hlo : (0 <= Qfloor x)%Z).
  { change 0%Z with (Qfloor 0). apply Qfloor_resp_le.
    unfold x. apply Qmult_le_0_compat; [done|].
    change 0%Q with (inject_Z 0). rewrite <- Zle_Qle. lia. }
  assert (Hhi : (Qfloor x < Z.of_nat n)%Z).
  { rewrite Zlt_Qlt. eapply Qle_lt_trans; [apply Qfloor_le|].
    unfold x. rewrite <- (Qmult_1_l (inject_Z (Z.of_nat n))) at 2.
    apply Qmult_lt_compat_r; [|done].
    change 0%Q with (inject_Z 0). rewrite <- Zlt_Qlt. lia. }
  exists (Z.to_nat (Qfloor x)). split; [lia|].
  by destruct (Z.leb_spec 0 (Qfloor x)); [|lia].
Qed.

(** X3: the resolution of a sound whose identifier stays in the table,
    when the search finds results: the timer fires, the search, the
    preview and the decoding settle, and the record ends with status
    available and the decoded sample as its value, its type unchanged;
    nothing is left pending, and the world has seen, in this order, the
    status searching, the search, the status downloading, the download of
    the preview of one of the results, the decoding and the status
    available. *)
Theorem resolution_makes_available (w : World) (i : nat) (t : Timer)
    (record : SymbolRecord) (results : list SearchResult) (r : Q)
    (bytes : list Z) (audio : AudioBuffer) :
  timers w !! i = Some t →
  symbols (table w) !! identifier (callback t) = Some record →
  results ≠ [] →
  (0 <= r)%Q → (r < 1)%Q →
  let id := identifier (callback t) in
  let j := length (tasks w) in
  let w' := run w [TimerFires i;
                   Settles j (SearchJson (Some results) r);
                   Settles j (ArrayBuffer bytes);
                   Settles j (Decoded audio)] in
  symbols (table w') !! id =
    Some {| rec_identifier := id; rec_type := rec_type record;
            rec_status := Some "available"; rec_value := Some audio |} ∧
  tasks w' = tasks w ∧
  timers w' = delete i (timers w) ∧
  ∃ result, result ∈ results ∧
    effects w' =
      effects w ++ [VisualStatus id "searching"; FetchSearch id;
                    VisualStatus id "downloading";
                    FetchPreview (preview_hq_mp3 result);
                    DecodeAudioData bytes;
                    VisualStatus id "available"].
Proof.
  intros Ht Hrec Hne H0 H1 id j w'. subst w'. unfold run. cbn [foldl].
  pose proof (fire_present w i t record Ht Hrec) as Hfire. cbv zeta in Hfire.
  subst id. remember (identifier (callback t)) as id eqn:Hid in *.
  destruct Hfire as (Hs1 & Ht1 & Hk1 & He1).
  set (w1 := step w (TimerFires i)) in *. clearbody w1.
  (* the search settles *)
  destruct (floorIndex_in_range r (length results) H0 H1) as (k & Hk & Hfl).
  { destruct results; [done|simpl; lia]. }
  destruct (lookup_lt_is_Some_2 results k Hk) as [result Hres].
  assert (Hj1 : tasks w1 !! j = Some (AwaitSearch (callback t))).
  { rewrite Hk1. by apply list_lookup_middle. }
  assert (Hd1 : delete j (tasks w1) = tasks w).
  { rewrite Hk1. unfold j. rewrite delete_middle. by rewrite app_nil_r. }
  set (w2 := step w1 (Settles j (SearchJson (Some results) r))).
  assert (Hw2 : symbols (table w2) =
                  <[id := {| rec_identifier := id; rec_type := rec_type record;
                             rec_status := Some "downloading";
                             rec_value := rec_value record |}]>
                    (symbols (table w)) ∧
                timers w2 = delete i (timers w) ∧
                tasks w2 = tasks w ++ [AwaitPreview (callback t) (preview_hq_mp3 result)] ∧
                effects w2 = effects w ++ [VisualStatus id "searching"; FetchSearch id;
                                           VisualStatus id "downloading";
                                           FetchPreview (preview_hq_mp3 result)]).
  { unfold w2, step. rewrite Hj1. unfold resume.
    destruct results as [|x xs]; [done|].
    rewrite Hfl. cbn [mbind option_bind]. rewrite Hres, <- Hid.
    rewrite (merge_status id "downloading" _
               {| rec_identifier := id; rec_type := rec_type record;
                  rec_status := Some "searching"; rec_value := rec_value record |})
      by (simpl; rewrite Hs1; apply lookup_insert_eq).
    simpl. rewrite Hs1, Hd1, Ht1, He1, insert_insert_eq.
    repeat split; try done. by rewrite <- !app_assoc. }
  destruct Hw2 as (Hs2 & Ht2 & Hk2 & He2). clearbody w2.
  (* the preview settles *)
  assert (Hj2 : tasks w2 !! j =
                  Some (AwaitPreview (callback t) (preview_hq_mp3 result))).
  { rewrite Hk2. by apply list_lookup_middle. }
  assert (Hd2 : delete j (tasks w2) = tasks w).
  { rewrite Hk2. unfold j. rewrite delete_middle. by rewrite app_nil_r. }
  set (w3 := step w2 (Settles j (ArrayBuffer bytes))).
  assert (Hw3 : symbols (table w3) = symbols (table w2) ∧
                timers w3 = timers w2 ∧
                tasks w3 = tasks w ++ [AwaitDecode (callback t)] ∧
                effects w3 = effects w2 ++ [DecodeAudioData bytes]).
  { unfold w3, step. rewrite Hj2. simpl. by rewrite Hd2. }
  destruct Hw3 as (Hs3 & Ht3 & Hk3 & He3). clearbody w3.
  (* the decoding settles *)
  assert (Hj3 : tasks w3 !! j = Some (AwaitDecode (callback t))).
  { rewrite Hk3. by apply list_lookup_middle. }
  assert (Hd3 : delete j (tasks w3) = tasks w).
  { rewrite Hk3. unfold j. rewrite delete_middle. by rewrite app_nil_r. }
  assert (Hw4 : step w3 (Settles j (Decoded audio)) =
                updateVisualStatus id "available"
                  (merge {| identifier := id; type := None;
                            value := Some (Some audio);
                            status := Some (Some "available") |}
                     (set_tasks (delete j (tasks w3)) w3))).
  { unfold step. rewrite Hj3. unfold resume. by rewrite <- Hid. }
  rewrite Hw4.
  rewrite merge_present by (apply has_spec; simpl; rewrite Hs3, Hs2,
                              lookup_insert_eq; eauto).
  simpl. rewrite Hs3, Hs2, !lookup_insert_eq, Hd3, Ht3, Ht2, He3, He2.
  simpl. split; [done|]. split; [done|]. split; [done|].
  exists result. split; [by eapply list_elem_of_lookup_2|].
  by rewrite <- !app_assoc.
Qed.

(** X3, witness: [kick], one search result. *)
Lemma resolution_makes_available_witness :
  symbols (table (run (run initial [Merge kick])
     [TimerFires 0;
      Settles (length (tasks (run initial [Merge kick])))
        (SearchJson (Some [{| name := "kick.wav"; preview_hq_mp3 := "u" |}]) 0);
      Settles (length (tasks (run initial [Merge kick]))) (ArrayBuffer [1; 2]%Z);
      Settles (length (tasks (run initial [Merge kick]))) (Decoded [3]%Z)]))
    !! "kick" =
  Some {| rec_identifier := "kick"; rec_type := Some "sound";
          rec_status := Some "available"; rec_value := Some [3]%Z |}.
Proof.
  apply (resolution_makes_available (run initial [Merge kick]) 0
           {| delay := 1000; callback := kick |}
           {| rec_identifier := "kick"; rec_type := Some "sound";
              rec_status := None; rec_value := None |}
           [{| name := "kick.wav"; preview_hq_mp3 := "u" |}] 0
           [1; 2]%Z [3]%Z).
  - reflexivity.
  - vm_compute. reflexivity.
  - discriminate.
  - vm_compute. discriminate.
  - reflexivity.
Defined.

(** X4: the resolution of a sound whose identifier stays in the table,
    when the search finds nothing (no [results], or an empty array): the
    record ends with status unavailable, type and value unchanged,
    nothing is pending and no preview was asked for.  When instead the
    search request is rejected, nothing more is written: the record stays
    in status searching and nothing is pending. *)
Theorem resolution_without_results (w : World) (i : nat) (t : Timer)
    (record : SymbolRecord) (results : option (list SearchResult)) (r : Q) :
  timers w !! i = Some t →
  symbols (table w) !! identifier (callback t) = Some record →
  results = None ∨ results = Some [] →
  let id := identifier (callback t) in
  let j := length (tasks w) in
  let found := run w [TimerFires i; Settles j (SearchJson results r)] in
  let failed := run w [TimerFires i; Settles j Rejected] in
  symbols (table found) !! id =
    Some {| rec_identifier := id; rec_type := rec_type record;
            rec_status := Some "unavailable"; rec_value := rec_value record |} ∧
  tasks found = tasks w ∧
  effects found =
    effects w ++ [VisualStatus id "searching"; FetchSearch id;
                  VisualStatus id "unavailable"] ∧
  symbols (table failed) !! id =
    Some {| rec_identifier := id; rec_type := rec_type record;
            rec_status := Some "searching"; rec_value := rec_value record |} ∧
  tasks failed = tasks w ∧
  effects failed = effects w ++ [VisualStatus id "searching"; FetchSearch id].
Proof.
  intros Ht Hrec Hres id j found failed. subst found failed.
  unfold run. cbn [foldl].
  pose proof (fire_present w i t record Ht Hrec) as Hfire. cbv zeta in Hfire.
  subst id. remember (identifier (callback t)) as id eqn:Hid in *.
  destruct Hfire as (Hs1 & Ht1 & Hk1 & He1).
  set (w1 := step w (TimerFires i)) in *. clearbody w1.
  assert (Hj1 : tasks w1 !! j = Some (AwaitSearch (callback t))).
  { rewrite Hk1. by apply list_lookup_middle. }
  assert (Hd1 : delete j (tasks w1) = tasks w).
  { rewrite Hk1. unfold j. rewrite delete_middle. by rewrite app_nil_r. }
  assert (Hfound :
    step w1 (Settles j (SearchJson results r)) =
    updateVisualStatus id "unavailable"
      (merge (statusUpdate id "unavailable") (set_tasks (delete j (tasks w1)) w1))).
  { unfold step. rewrite Hj1. unfold resume. rewrite <- Hid.
    by destruct Hres as [-> | ->]. }
  rewrite Hfound.
  rewrite (merge_status id "unavailable" _
             {| rec_identifier := id; rec_type := rec_type record;
                rec_status := Some "searching"; rec_value := rec_value record |})
    by (simpl; rewrite Hs1; apply lookup_insert_eq).
  unfold step. rewrite Hj1. simpl.
  rewrite Hs1, !lookup_insert_eq, Hd1, He1.
  repeat split; try done. by rewrite <- !app_assoc.
Qed.

(** X4, witness: [kick], an empty array of results. *)
Lemma resolution_without_results_witness :
  symbols (table (run (run initial [Merge kick])
     [TimerFires 0;
      Settles (length (tasks (run initial [Merge kick])))
        (SearchJson (Some []) 0)])) !! "kick" =
  Some {| rec_identifier := "kick"; rec_type := Some "sound";
          rec_status := Some "unavailable"; rec_value := None |}.
Proof.
  apply (resolution_without_results (run initial [Merge kick]) 0
           {| delay := 1000; callback := kick |}
           {| rec_identifier := "kick"; rec_type := Some "sound";
              rec_status := None; rec_value := None |} (Some []) 0).
  - reflexivity.
  - vm_compute. reflexivity.
  - right. reflexivity.
Defined.

(** *** Pruning again, removal and the timers *)

Lemma world_eq (w w' : World) :
  symbols (table w) = symbols (table w') →
  activeIdentifiersByBlock (table w) = activeIdentifiersByBlock (table w') →
  fetchWaitInterval (table w) = fetchWaitInterval (table w') →
  timers w = timers w' → tasks w = tasks w' → effects w = effects w' →
  w = w'.
Proof.
  destruct w as [[s a f] ti ta ef], w' as [[s' a' f'] ti' ta' ef']. simpl.
  by intros -> -> -> -> -> ->.
Qed.

(** X5: [updateActiveIdentifiers] called again with the same block and
    the same analysis results changes nothing: the first call already
    removed every record that no block uses. *)
Theorem updateActiveIdentifiers_idempotent (blockKey : string)
    (lexicon : LexicalAnalysisResults) (w : World) :
  updateActiveIdentifiers blockKey lexicon
    (updateActiveIdentifiers blockKey lexicon w) =
  updateActiveIdentifiers blockKey lexicon w.
Proof.
  set (w1 := updateActiveIdentifiers blockKey lexicon w).
  assert (H1 := eq_refl : w1 = updateActiveIdentifiers blockKey lexicon w).
  unfold updateActiveIdentifiers in H1. cbv zeta in H1.
  set (L := Lodash.uniq _) in H1.
  set (A := <[blockKey := L]> (activeIdentifiersByBlock (table w))) in H1.
  simpl in H1.
  set (ds := Lodash.intersection _ _) in H1.
  destruct (prune_rest ds (set_activeIdentifiersByBlock A w))
    as (Ha & Hf & Hti & Hta & Hef).
  cbv zeta in Ha, Hf, Hti, Hta, Hef. rewrite <- H1 in Ha, Hf, Hti, Hta, Hef.
  simpl in Ha, Hf, Hti, Hta, Hef.
  assert (Hs : ∀ id, symbols (table w1) !! id =
                     if decide (id ∈ ds) then None else symbols (table w) !! id).
  { intros id. rewrite H1, prune_symbols. done. }
  clearbody w1.
  unfold updateActiveIdentifiers. cbv zeta. fold L.
  rewrite Ha. unfold A at 1. rewrite insert_insert_eq. fold A.
  simpl.
  set (ds' := Lodash.intersection _ _).
  destruct (prune_rest ds' (set_activeIdentifiersByBlock A w1))
    as (Ha' & Hf' & Hti' & Hta' & Hef').
  cbv zeta in Ha', Hf', Hti', Hta', Hef'. simpl in Ha', Hf', Hti', Hta', Hef'.
  apply world_eq; try congruence.
  apply map_eq. intros id. rewrite prune_symbols. simpl.
  destruct (decide (id ∈ ds')) as [Hin|]; [|done].
  apply dangling_spec in Hin as [Hsome Hno].
  rewrite Hs in Hsome |- *.
  destruct (decide (id ∈ ds)) as [|Hnotin]; [done|].
  exfalso. apply Hnotin. apply dangling_spec. simpl.
  replace (<[blockKey:=L]> A) with A in Hno
    by (unfold A; by rewrite insert_insert_eq).
  by split.
Qed.






End SymbolTableMore.

(** ** The automaton: the stream of a Sequence, a Choice that runs for
       ever, Choices that cannot be built, the cumulative table *)

Module ASTMore.
Import AST AST.Example ASTInvariants ASTFacts.

Lemma terminalsOf_lookup σ nodes steps k c :
  terminalsOf σ nodes steps → nodes !! k = Some c →
  ∃ s, steps !! k = Some s ∧ heap σ !! c = Some (Terminal s s).
Proof.
  intros H Hc. destruct (Forall2_lookup_l _ _ _ _ _ H Hc) as (s & Hs & Hh).
  eauto.
Qed.

Lemma terminalsOf_write σ nodes steps l n :
  terminalsOf σ nodes steps → (∀ c, c ∈ nodes → l ≠ c) →
  terminalsOf (write l n σ) nodes steps.
Proof.
  intros H Hne. unfold terminalsOf in *.
  induction H as [|r s nodes steps Hr H IH]; [constructor|].
  constructor.
  - rewrite heap_write_ne; [done|]. apply Hne. apply list_elem_of_here.
  - apply IH. intros c Hc. apply Hne. by apply list_elem_of_further.
Qed.

Lemma terminalsOf_is_Terminal σ nodes steps :
  terminalsOf σ nodes steps → Forall (is_Terminal σ) nodes.
Proof.
  intros H. induction H as [|r s nodes steps Hr H IH]; constructor; [|done].
  by exists s, s.
Qed.

Lemma succ_mod k n :
  k < n → (if decide (S k = n) then 0 else S k) = S k mod n.
Proof.
  intros Hk. case_decide as H.
  - subst n. by rewrite Nat.Div0.mod_same.
  - rewrite Nat.mod_small; lia.
Qed.

(** One [advance()] of a Sequence of Terminals that stands on child [k]:
    [_current] takes the old [_next], [_next] the step of the child the
    node moves to. *)
Lemma advance_Sequence_values fuel σ l cu nx nodes steps k :
  heap σ !! l = Some (Sequence cu nx (nodes !! k) (Z.of_nat k) nodes) →
  k < length nodes →
  terminalsOf σ nodes steps →
  let k' := S k mod length nodes in
  ∃ s' σ',
    steps !! k' = Some s' ∧
    advance (S (S fuel)) l σ = Return (bool_decide (k' = 0)) σ' ∧
    heap σ' !! l = Some (Sequence nx s' (nodes !! k') (Z.of_nat k') nodes) ∧
    terminalsOf σ' nodes steps.
Proof.
  intros Hl Hk Hterm k'.
  assert (Hk'eq : k' = if decide (S k = length nodes) then 0 else S k)
    by (by rewrite succ_mod).
  assert (Hnotin : ∀ c, c ∈ nodes → l ≠ c).
  { intros c Hc ->. apply list_elem_of_lookup in Hc as [i Hi].
    destruct (terminalsOf_lookup _ _ _ _ _ Hterm Hi) as (? & ? & H). congruence. }
  destruct (lookup_lt_is_Some_2 nodes k Hk) as [c Hc].
  assert (Hk' : k' < length nodes) by (rewrite Hk'eq; case_decide; lia).
  destruct (lookup_lt_is_Some_2 nodes k' Hk') as [c' Hc'].
  destruct (terminalsOf_lookup _ _ _ _ _ Hterm Hc) as (s & Hs & Tc).
  destruct (terminalsOf_lookup _ _ _ _ _ Hterm Hc') as (s' & Hs' & Tc').
  assert (Hne' : l ≠ c') by (apply Hnotin; by eapply list_elem_of_lookup_2).
  rewrite (advance_NonTerminal _ l σ _ c Hl) by done.
  rewrite (advance_Terminal fuel c σ) by (by exists s, s).
  unfold advanceCurrentNode. rewrite Hl.
  assert ((if (Z.of_nat k =? Z.of_nat (length nodes) - 1)%Z
           then (0%Z, true) else ((Z.of_nat k + 1)%Z, false))
          = (Z.of_nat k', bool_decide (k' = 0))) as ->.
  { rewrite Hk'eq.
    destruct (Z.eqb_spec (Z.of_nat k) (Z.of_nat (length nodes) - 1)).
    - rewrite decide_True by lia. done.
    - rewrite decide_False, bool_decide_eq_false_2 by lia.
      f_equal. lia. }
  rewrite at_index_nat, Hc'. rewrite heap_write_eq.
  unfold next_of. cbn [currentNode mbind option_bind].
  rewrite heap_write_ne, Tc' by done.
  cbn [fmap option_fmap option_map next set_current set_next].
  exists s'. eexists. split; [done|]. split; [done|]. split.
  - by rewrite heap_write_eq.
  - apply terminalsOf_write; [|done]. by apply terminalsOf_write.
Qed.

Lemma advances_Sequence_values fuel nodes steps l : ∀ m k σ cu s,
  heap σ !! l = Some (Sequence cu s (nodes !! k) (Z.of_nat k) nodes) →
  steps !! k = Some s →
  k < length nodes →
  terminalsOf σ nodes steps →
  ∃ bs σ' cu' nx',
    advances (S (S fuel)) (S m) l σ = Return bs σ' ∧
    (∀ j, j ≤ m →
       bs !! j = Some (bool_decide ((k + S j) mod length nodes = 0))) ∧
    heap σ' !! l =
      Some (Sequence cu' nx' (nodes !! ((k + S m) mod length nodes))
              (Z.of_nat ((k + S m) mod length nodes)) nodes) ∧
    steps !! ((k + m) mod length nodes) = Some cu' ∧
    steps !! ((k + S m) mod length nodes) = Some nx' ∧
    terminalsOf σ' nodes steps.
Proof.
  induction m as [|m IH]; intros k σ cu s Hl Hs Hk Hterm.
  - destruct (advance_Sequence_values fuel σ l cu s nodes steps k Hl Hk Hterm)
      as (s' & σ' & Hs' & Hadv & Hl' & Hterm').
    cbn [advances]. rewrite Hadv.
    replace (k + 1) with (S k) by lia. rewrite Nat.add_0_r.
    rewrite (Nat.mod_small k) by done.
    exists [bool_decide (S k mod length nodes = 0)], σ', s, s'.
    split; [done|]. split; [|done].
    intros j Hj. assert (j = 0) as -> by lia.
    by replace (k + 1) with (S k) by lia.
  - destruct (advance_Sequence_values fuel σ l cu s nodes steps k Hl Hk Hterm)
      as (s' & σ1 & Hs' & Hadv & Hl1 & Hterm1).
    assert (Hk' : S k mod length nodes < length nodes)
      by (apply Nat.mod_upper_bound; lia).
    destruct (IH _ σ1 s s' Hl1 Hs' Hk' Hterm1)
      as (bs & σ' & cu' & nx' & Hadvs & Hbs & Hl' & Hcu' & Hnx' & Hterm').
    assert (Hmod : ∀ x, (S k mod length nodes + x) mod length nodes =
                        (k + S x) mod length nodes).
    { intros x. rewrite Nat.Div0.add_mod_idemp_l. f_equal. lia. }
    rewrite !Hmod in Hl', Hnx'. rewrite Hmod in Hcu'.
    change (advances (S (S fuel)) (S (S m)) l σ)
      with (match advance (S (S fuel)) l σ with
            | Return b σ1 =>
                match advances (S (S fuel)) (S m) l σ1 with
                | Return bs σ2 => Return (b :: bs) σ2
                | Throw e σ2 => Throw e σ2
                | OutOfFuel => OutOfFuel
                end
            | Throw e σ1 => Throw e σ1
            | OutOfFuel => OutOfFuel
            end).
    rewrite Hadv, Hadvs.
    eexists _, σ', cu', nx'. split; [done|]. split; [|done].
    intros [|j] Hj; simpl.
    + by replace (k + 1) with (S k) by lia.
    + rewrite Hbs by lia. by rewrite Hmod.
Qed.

(** X8: the stream of a Sequence of Terminals.  After construction and
    [m + 1] calls of [advance()], whatever [m]: call number [j + 1]
    returned true exactly when [j + 1] is a multiple of the number of
    children; [current()] is the step of child [m mod N] and [next()] the
    step of child [(m + 1) mod N].  So [current()] shows the first step
    both before and after the first call, and from then on runs one step
    behind [next()]. *)
Theorem sequence_stream (σ : Store) (nodes : list ref) (steps : list Step)
    (fuel m : nat) :
  nodes ≠ [] →
  terminalsOf σ nodes steps →
  2 ≤ fuel →
  ∃ l σ0 bs σ',
    newSequence nodes σ = Return l σ0 ∧
    current_of σ0 (Some l) = steps !! 0 ∧
    advances fuel (S m) l σ0 = Return bs σ' ∧
    (∀ j, j ≤ m → bs !! j = Some (bool_decide (S j mod length nodes = 0))) ∧
    current_of σ' (Some l) = steps !! (m mod length nodes) ∧
    next_of σ' (Some l) = steps !! (S m mod length nodes).
Proof.
  intros Hne Hterm Hfuel.
  destruct nodes as [|c rest] eqn:Hnodes; [done|]. rewrite <- Hnodes in *.
  assert (Hc : nodes !! 0 = Some c) by (by rewrite Hnodes).
  destruct (terminalsOf_lookup _ _ _ _ _ Hterm Hc) as (s & Hs & Tc).
  rewrite (newSequence_returns nodes σ c _ Hc Tc).
  set (l := fresh (dom (heap σ))).
  set (σ0 := write l _ σ).
  assert (Hl0 : heap σ0 !! l = Some (Sequence s s (nodes !! 0) (Z.of_nat 0) nodes))
    by (unfold σ0; rewrite heap_write_eq, Hc; done).
  assert (Hterm0 : terminalsOf σ0 nodes steps).
  { apply terminalsOf_write; [done|].
    intros d Hd Heq. apply list_elem_of_lookup in Hd as [i Hi].
    destruct (terminalsOf_lookup _ _ _ _ _ Hterm Hi) as (? & ? & H).
    pose proof (fresh_unused σ) as Hfresh. rewrite <- Heq in H. unfold l in H.
    congruence. }
  assert (Hlen : 0 < length nodes) by (rewrite Hnodes; simpl; lia).
  clearbody σ0 l.
  destruct fuel as [|[|fuel]]; [lia..|].
  destruct (advances_Sequence_values fuel nodes steps l m 0 σ0 s s Hl0 Hs Hlen Hterm0)
    as (bs & σ' & cu' & nx' & Hadvs & Hbs & Hl' & Hcu' & Hnx' & _).
  exists l, σ0, bs, σ'. split; [done|].
  split; [unfold current_of; simpl; by rewrite Hl0, Hs|].
  split; [done|]. split; [done|].
  unfold current_of, next_of. simpl. rewrite Hl'. simpl.
  simpl in Hcu', Hnx'. by rewrite Hcu', Hnx'.
Qed.

(** X8, witness: kick, snare, kick; after four calls the Sequence has
    gone round once and shows kick, with snare to come. *)
Lemma sequence_stream_witness :
  ∃ l σ0 bs σ',
    newSequence [0; 1; 0] terminals = Return l σ0 ∧
    current_of σ0 (Some l) = [step "kick"; step "snare"; step "kick"] !! 0 ∧
    advances 2 (S 3) l σ0 = Return bs σ' ∧
    (∀ j, j ≤ 3 → bs !! j = Some (bool_decide (S j mod length [0; 1; 0] = 0))) ∧
    current_of σ' (Some l) =
      [step "kick"; step "snare"; step "kick"] !! (3 mod length [0; 1; 0]) ∧
    next_of σ' (Some l) =
      [step "kick"; step "snare"; step "kick"] !! (S 3 mod length [0; 1; 0]).
Proof.
  apply (sequence_stream terminals [0; 1; 0]
           [step "kick"; step "snare"; step "kick"] 2 3).
  - discriminate.
  - repeat constructor.
  - lia.
Defined.

(** X9: what the comment of [NonTerminal.advance] promises: a
    NonTerminal cycles only when its current node has cycled in the same
    call. *)
Theorem nonterminal_cycles_only_with_child (fuel : nat) (l : ref) (σ σ' : Store)
    (n : Node) (c : ref) :
  heap σ !! l = Some n →
  (∀ cu nx, n ≠ Terminal cu nx) →
  currentNode n = Some c →
  advance (S fuel) l σ = Return true σ' →
  ∃ σ1, advance fuel c σ = Return true σ1.
Proof.
  intros Hl Hnt Hc. rewrite (advance_NonTerminal fuel l σ n c Hl Hnt Hc).
  destruct (advance fuel c σ) as [[] σ1| |]; [eauto| |done..].
  cbn. destruct (heap σ1 !! l); [|done].
  by destruct (next_of _ _).
Qed.

(** X9, witness: the third call on kick, snare, kick. *)
Lemma nonterminal_cycles_only_with_child_witness :
  ∃ σ1, advance 1 0 (storeOf (advances 2 2 2 withSequence) withSequence)
        = Return true σ1.
Proof.
  eapply (nonterminal_cycles_only_with_child 1 2
            (storeOf (advances 2 2 2 withSequence) withSequence) _
            (Sequence (step "snare") (step "kick") (Some 0) 2 [0; 1; 0]) 0).
  - vm_compute. reflexivity.
  - discriminate.
  - reflexivity.
  - vm_compute. reflexivity.
Defined.

(** *** Choice *)

Lemma cumulative_last_is_Some pdf : ∀ acc,
  pdf ≠ [] → is_Some (last (cumulative acc pdf)).
Proof.
  induction pdf as [|p pdf IH]; intros acc Hne; [done|].
  destruct pdf as [|q pdf]; [by eexists|].
  change (cumulative acc (p :: q :: pdf))
    with ((p + acc)%Q :: cumulative (p + acc)%Q (q :: pdf)).
  destruct (IH (p + acc)%Q) as [x Hx]; [done|].
  exists x. revert Hx. simpl. done.
Qed.

(** [choose] on a table whose last entry is positive, with draws in
    [0, 1): one of the children. *)
Lemma choose_in_choices choices cdf g total :
  unitDraws g → length cdf = length choices →
  last cdf = Some total → (0 < total)%Q →
  ∃ i c, (choose choices cdf g).1 = Some c ∧ choices !! i = Some c ∧
         unitDraws (choose choices cdf g).2.
Proof.
  intros Hg Hlen Hlast Htotal. unfold choose. rewrite Hlast. simpl.
  pose proof (filterDraws_in_range total cdf g Hg Htotal Hlast) as Hin.
  destruct (filterDraws_rng total cdf g) as [Hd _].
  destruct (filterDraws total cdf g) as [kept g'] eqn:E. simpl in *.
  destruct (lookup_lt_is_Some_2 choices (length kept)) as [c Hc]; [lia|].
  exists (length kept), c. split; [done|]. split; [done|].
  intros n. rewrite Hd. apply Hg.
Qed.

Lemma terminalsOf_notin σ choices steps l :
  terminalsOf σ choices steps →
  (∀ s, heap σ !! l ≠ Some (Terminal s s)) →
  ∀ d, d ∈ choices → l ≠ d.
Proof.
  intros Hterm Hl d Hd Heq. apply list_elem_of_lookup in Hd as [i Hi].
  destruct (terminalsOf_lookup _ _ _ _ _ Hterm Hi) as (s & _ & H).
  rewrite <- Heq in H. by eapply Hl.
Qed.

Lemma advance_choosing fuel choices steps pdf l σ :
  length pdf = length choices → pdf ≠ [] → Forall (λ p, (0 < p)%Q) pdf →
  choosing choices steps pdf l σ →
  ∃ σ', advance (S (S fuel)) l σ = Return true σ' ∧
        choosing choices steps pdf l σ'.
Proof.
  intros Hlen Hne Hpos ((cu & nx & i & c & Hl & Hc & Hnx) & Hterm & Hg).
  assert (Hnotin : ∀ d, d ∈ choices → l ≠ d)
    by (eapply terminalsOf_notin; [done|]; intros s; by rewrite Hl).
  destruct (terminalsOf_lookup _ _ _ _ _ Hterm Hc) as (s & Hs & Tc).
  rewrite (advance_NonTerminal _ l σ _ c Hl) by done.
  rewrite (advance_Terminal fuel c σ) by (by exists s, s).
  rewrite (advanceCurrentNode_Choice σ l _ _ _ _ _ _ _ Hl).
  destruct (cumulative_last_is_Some pdf 0%Q Hne) as [total Htotal].
  destruct (choose_in_choices choices (cumulative 0 pdf) (rng σ) total)
    as (i' & c' & Hc' & Hi' & Hg'); [done|by rewrite cumulative_length|done|..].
  { by eapply (cumulative_last_positive pdf 0%Q). }
  assert (Hin' : c' ∈ choices) by (by eapply list_elem_of_lookup_2).
  destruct (terminalsOf_lookup _ _ _ _ _ Hterm Hi') as (s' & Hs' & Tc').
  cbn [heap]. rewrite lookup_insert_eq.
  rewrite Hc'. unfold next_of. cbn [currentNode mbind option_bind heap].
  rewrite lookup_insert_ne by (by apply Hnotin).
  rewrite Tc'. cbn [fmap option_fmap option_map next set_current set_next].
  eexists. split; [done|]. split; [|split].
  - exists nx, s', i', c'. by rewrite heap_write_eq.
  - apply terminalsOf_write; [|done].
    change {| heap := <[l:=Choice cu nx (Some c') choices pdf (cumulative 0 pdf) choose]> (heap σ);
              rng := (choose choices (cumulative 0 pdf) (rng σ)).2 |}
      with (write l (Choice cu nx (Some c') choices pdf (cumulative 0 pdf) choose)
              {| heap := heap σ;
                 rng := (choose choices (cumulative 0 pdf) (rng σ)).2 |}).
    by apply terminalsOf_write.
  - done.
Qed.

Lemma advances_choosing fuel choices steps pdf l : ∀ k σ,
  length pdf = length choices → pdf ≠ [] → Forall (λ p, (0 < p)%Q) pdf →
  choosing choices steps pdf l σ →
  ∃ σ', advances (S (S fuel)) k l σ = Return (replicate k true) σ' ∧
        choosing choices steps pdf l σ'.
Proof.
  induction k as [|k IH]; intros σ Hlen Hne Hpos Hinv; [by exists σ|].
  destruct (advance_choosing fuel choices steps pdf l σ Hlen Hne Hpos Hinv)
    as (σ1 & Hadv & Hinv1).
  destruct (IH σ1 Hlen Hne Hpos Hinv1) as (σ' & Hadvs & Hinv').
  exists σ'. split; [|done].
  change (advances (S (S fuel)) (S k) l σ)
    with (match advance (S (S fuel)) l σ with
          | Return b σ1 =>
              match advances (S (S fuel)) k l σ1 with
              | Return bs σ2 => Return (b :: bs) σ2
              | Throw e σ2 => Throw e σ2
              | OutOfFuel => OutOfFuel
              end
          | Throw e σ1 => Throw e σ1
          | OutOfFuel => OutOfFuel
          end).
  by rewrite Hadv, Hadvs.
Qed.

(** X10: a Choice over Terminals with as many weights as children, the
    weights positive integers with a sum of at most 2^53, the default
    choice function and draws in [0, 1), never fails: it can be built, and every one of any number of calls of
    [advance()] returns true (a Choice cycles at every step) and leaves
    one of the children as the current node, with that child's step as
    [next()]. *)
Theorem choice_runs_forever (σ : Store) (choices : list ref)
    (steps : list Step) (pdf : list Q) (fuel k : nat) :
  length pdf = length choices →
  pdf ≠ [] →
  exactWeights pdf →
  terminalsOf σ choices steps →
  unitDraws (rng σ) →
  2 ≤ fuel →
  ∃ l σ0 σ' i c,
    newChoice choices pdf choose σ = Return l σ0 ∧
    advances fuel k l σ0 = Return (replicate k true) σ' ∧
    (currentNode <$> heap σ' !! l) = Some (Some c) ∧
    choices !! i = Some c ∧
    next_of σ' (Some l) = steps !! i.
Proof.
  intros Hlen Hne Hexact Hterm Hg Hfuel.
  pose proof (exactWeights_positive pdf Hexact) as Hpos.
  destruct (cumulative_last_is_Some pdf 0%Q Hne) as [total Htotal].
  destruct (choose_in_choices choices (cumulative 0 pdf) (rng σ) total)
    as (i0 & c0 & Hc0 & Hi0 & Hg0); [done|by rewrite cumulative_length|done|..].
  { by eapply (cumulative_last_positive pdf 0%Q). }
  destruct (terminalsOf_lookup _ _ _ _ _ Hterm Hi0) as (s0 & Hs0 & Tc0).
  unfold newChoice.
  destruct (choose choices (cumulative 0 pdf) (rng σ)) as [c g] eqn:E.
  simpl in Hc0, Hg0. subst c.
  unfold current_of. cbn [mbind option_bind heap]. rewrite Tc0.
  cbn [fmap option_fmap option_map current]. unfold new. cbn [heap].
  set (l := fresh (dom (heap σ))).
  set (σ0 := write l _ _).
  assert (Hl : heap σ !! l = None) by apply fresh_unused.
  assert (Hnotin : ∀ d, d ∈ choices → l ≠ d)
    by (eapply terminalsOf_notin; [done|]; intros s; by rewrite Hl).
  assert (Hinv : choosing choices steps pdf l σ0).
  { split; [|split]; [|apply terminalsOf_write; [exact Hterm|done]|done].
    exists s0, s0, i0, c0. split; [apply heap_write_eq|done]. }
  clearbody σ0 l.
  destruct fuel as [|[|fuel]]; [lia..|].
  destruct (advances_choosing fuel choices steps pdf l k σ0 Hlen Hne Hpos Hinv)
    as (σ' & Hadvs & ((cu & nx & i & c & Hl' & Hi & Hnx) & _ & _)).
  exists l, σ0, σ', i, c. split; [done|]. split; [done|].
  unfold next_of. cbn [mbind option_bind]. rewrite Hl'.
  by rewrite Hnx.
Qed.

(** X10, witness: kick or snare with equal weights, five calls. *)
Lemma choice_runs_forever_witness :
  ∃ l σ0 σ' i c,
    newChoice [0; 1] [1; 1]%Q choose terminals = Return l σ0 ∧
    advances 2 5 l σ0 = Return (replicate 5 true) σ' ∧
    (currentNode <$> heap σ' !! l) = Some (Some c) ∧
    [0; 1] !! i = Some c ∧
    next_of σ' (Some l) = [step "kick"; step "snare"] !! i.
Proof.
  apply (choice_runs_forever terminals [0; 1] [step "kick"; step "snare"]
           [1; 1]%Q 2 5).
  - reflexivity.
  - discriminate.
  - exists [1; 1]%Z. split; [reflexivity|].
    split; [repeat constructor|vm_compute; discriminate].
  - repeat constructor.
  - intros n. split; vm_compute; [discriminate|reflexivity].
  - lia.
Defined.

(** A table of zeros keeps every entry, whatever is drawn. *)
Lemma filterDraws_zero total cdf : ∀ g,
  (total == 0)%Q → Forall (λ c, (c == 0)%Q) cdf →
  (filterDraws total cdf g).1 = cdf.
Proof.
  induction cdf as [|c cdf IH]; intros g Ht Hz; [done|].
  inversion Hz as [|? ? Hc Hz']; subst. cbn [filterDraws Math_random].
  specialize (IH {| draws := draws g; taken := S (taken g) |} Ht Hz').
  destruct (filterDraws total cdf _) as [rest g2]. simpl in IH. subst rest.
  assert (Qle_bool c (draws g (taken g) * total) = true) as ->; [|done].
  apply Qle_bool_iff. rewrite Hc, Ht. rewrite Qmult_0_r. apply Qle_refl.
Qed.

Lemma cumulative_zero pdf : ∀ acc,
  (acc == 0)%Q → Forall (λ p, (p == 0)%Q) pdf →
  Forall (λ c, (c == 0)%Q) (cumulative acc pdf).
Proof.
  induction pdf as [|p pdf IH]; intros acc Ha Hz; [constructor|].
  inversion Hz as [|? ? Hp Hz']; subst.
  assert ((p + acc == 0)%Q) as H0 by (rewrite Hp, Ha; reflexivity).
  constructor; [done|]. by apply IH.
Qed.

(** X11: two Choices that cannot be built with the default choice
    function: one without children, and one whose weights are all zero
    (and at least as many as the children).  The constructor throws a
    TypeError and no node is created. *)
Theorem newChoice_fails (σ : Store) (choices : list ref) (pdf : list Q) :
  choices = [] ∨
  (Forall (λ p, (p == 0)%Q) pdf ∧ length choices ≤ length pdf) →
  ∃ σ', newChoice choices pdf choose σ = Throw TypeError σ' ∧
        heap σ' = heap σ.
Proof.
  intros Hcase.
  assert (Hnone : (choose choices (cumulative 0 pdf) (rng σ)).1 = None).
  { unfold choose.
    destruct (filterDraws _ (cumulative 0 pdf) (rng σ)) as [kept g'] eqn:E.
    simpl. destruct Hcase as [-> | [Hz Hlen]]; [done|].
    apply lookup_ge_None.
    assert (Hcz := cumulative_zero pdf 0%Q ltac:(reflexivity) Hz).
    assert (Htot : (default 0%Q (last (cumulative 0 pdf)) == 0)%Q).
    { destruct (last (cumulative 0 pdf)) as [t|] eqn:Hlast; [|reflexivity].
      simpl. rewrite Forall_forall in Hcz. apply Hcz.
      apply last_Some in Hlast as [l' ->]. set_solver. }
    pose proof (filterDraws_zero _ (cumulative 0 pdf) (rng σ) Htot Hcz) as Hk.
    rewrite E in Hk. simpl in Hk. subst kept.
    rewrite cumulative_length. lia. }
  unfold newChoice.
  destruct (choose choices (cumulative 0 pdf) (rng σ)) as [c g].
  simpl in Hnone. subst c. by eexists.
Qed.

(** X11, witness: kick or snare, both with weight zero. *)
Lemma newChoice_fails_witness :
  ∃ σ', newChoice [0; 1] [0; 0]%Q choose terminals = Throw TypeError σ' ∧
        heap σ' = heap terminals.
Proof.
  apply (newChoice_fails terminals [0; 1] [0; 0]%Q).
  right. split; [repeat constructor|simpl; lia].
Defined.




End ASTMore.

(** ** The first-pass parser: statements *)

Module AnalyzerFacts.
Import Tokens FirstPass Analyzer Expected FirstPassFacts.

Lemma peek_lookup k p :
  peek k p =
    if (0 <=? index p + k)%Z then stream p !! Z.to_nat (index p + k) else None.
Proof.
  unfold peek, at_index.
  destruct (Z.leb_spec (index p + k) (Z.of_nat (length (stream p)) - 1)),
    (Z.geb_spec (index p + k) 0), (Z.leb_spec 0 (index p + k));
    simpl; try done; try lia.
  symmetry. apply lookup_ge_None. lia.
Qed.

(** The parser at token [i] of [ts]. *)
Lemma peek_at ts (i : nat) key idx toks errs (k : Z) :
  (0 ≤ Z.of_nat i + k)%Z →
  peek k {| stream := ts; index := Z.of_nat i; block_key := key;
            block_index := idx; result_tokens := toks;
            result_errors := errs |} = ts !! Z.to_nat (Z.of_nat i + k).
Proof.
  intros H. rewrite peek_lookup. cbn [index stream].
  by destruct (Z.leb_spec 0 (Z.of_nat i + k)); [|lia].
Qed.

Lemma peek_reset t rest errors key idx :
  peek 0 (reset (t :: rest) errors key idx) = Some t.
Proof. by rewrite peek_lookup. Qed.

Lemma test_app cs ds s : test (cs ++ ds) s = test cs s || test ds s.
Proof.
  induction s as [|a s IH]; simpl; [done|]. rewrite IH.
  assert (bool_decide (a ∈ cs ++ ds) =
          bool_decide (a ∈ cs) || bool_decide (a ∈ ds)) as ->.
  { destruct (decide (a ∈ cs)) as [Hc|Hc], (decide (a ∈ ds)) as [Hd|Hd];
      rewrite ?(bool_decide_eq_true_2 _ Hc), ?(bool_decide_eq_false_2 _ Hc),
        ?(bool_decide_eq_true_2 _ Hd), ?(bool_decide_eq_false_2 _ Hd);
      [apply bool_decide_eq_true_2..|apply bool_decide_eq_false_2];
      rewrite elem_of_app; tauto. }
  repeat destruct (bool_decide _); repeat destruct (test _ _); done.
Qed.

Section WithSymbolTable.

Variable isVariable : string → bool.
Variable isFn : string → bool.
Variable isFnParameter : string → string → bool.
Variable isFnFlagParameter : string → string → bool.
Variable isValidFnArg : string → string → LexicalToken → bool.
Variable translateFnArgs : string → string → list LexicalToken → Parameters.

Local Abbreviation parseIdentifier :=
  (parseIdentifier isVariable isFn isFnParameter isFnFlagParameter
     isValidFnArg translateFnArgs).
Local Abbreviation parseSteps :=
  (parseSteps isVariable isFn isFnParameter isFnFlagParameter
     isValidFnArg translateFnArgs).
Local Abbreviation parseSequence :=
  (parseSequence isVariable isFn isFnParameter isFnFlagParameter
     isValidFnArg translateFnArgs).
Local Abbreviation parseAssignment :=
  (parseAssignment isVariable isFn isFnParameter isFnFlagParameter
     isValidFnArg translateFnArgs).
Local Abbreviation analyze :=
  (analyze isVariable isFn isFnParameter isFnFlagParameter
     isValidFnArg translateFnArgs).

(** X13: a block that starts neither an assignment nor a sequence.  An
    empty block gives no token and no new error; a block whose first token
    is a comment gives that comment as its only token; on any other block
    [analyze] throws a TypeError, with no token and no error recorded:
    [parseEndOfStatement] goes to [pushError], which calls a function the
    token module does not export. *)
Theorem analyze_no_expression (fuel : nat) (errors : list ErrorToken)
    (key : string) (idx : Z) :
  (∃ p, analyze fuel [] errors key idx = Return ([], errors) p) ∧
  (∀ t rest,
     tok_type t ≠ LexicalTokenType.Identifier →
     test [openParen; openBracket] (tok_value t) = false →
     (tok_type t = LexicalTokenType.Comment →
      ∃ p, analyze fuel (t :: rest) errors key idx =
             Return ([newSemanticToken (ofToken (Some t))], errors) p) ∧
     (tok_type t ≠ LexicalTokenType.Comment →
      ∃ p, analyze fuel (t :: rest) errors key idx = Throw p ∧
           result_tokens p = [] ∧ result_errors p = errors)).
Proof.
  split; [by eexists|].
  intros t rest Hty Hbr.
  unfold Analyzer.analyze, bind.
  assert (Hpeek := peek_reset t rest errors key idx).
  assert (isAssignment (reset (t :: rest) errors key idx) = false) as ->.
  { unfold isAssignment. rewrite Hpeek.
    destruct (peek 1 _); [|done].
    by rewrite (bool_decide_eq_false_2 _ Hty). }
  assert (isSequence (reset (t :: rest) errors key idx) = false) as ->.
  { unfold isSequence. rewrite Hpeek, Hbr.
    by rewrite (bool_decide_eq_false_2 _ Hty). }
  unfold parseEndOfStatement, bind. rewrite peekM_eq, Hpeek.
  split; intros Hc.
  - rewrite (bool_decide_eq_true_2 _ Hc). by eexists.
  - rewrite (bool_decide_eq_false_2 _ Hc). cbn [stream reset].
    destruct (last (t :: rest)) as [endToken|] eqn:Hlast.
    + by eexists.
    + by apply last_None in Hlast.
Qed.

(** [parseIdentifier] on an identifier that names a function (and no
    variable) does nothing. *)
Lemma parseIdentifier_fn fuel p t :
  peek 0 p = Some t →
  isVariable (tok_value t) = false → isFn (tok_value t) = true →
  parseIdentifier fuel p = Return tt p.
Proof.
  intros Ht Hv Hf. unfold FirstPass.parseIdentifier, bind.
  rewrite peekM_eq, Ht. cbn [defined ret]. rewrite Hv.
  unfold isSoundLiteral. by rewrite Hf.
Qed.

Lemma parseSteps_fn_identifier ps t : ∀ fuel p,
  peek 0 p = Some t →
  tok_type t = LexicalTokenType.Identifier →
  test [closeParen; closeBracket] (tok_value t) = false →
  isVariable (tok_value t) = false → isFn (tok_value t) = true →
  parseSteps ps fuel p = OutOfFuel.
Proof.
  induction fuel as [|fuel IH]; intros p Ht Hty Hbr Hv Hf; [done|].
  cbn [Analyzer.parseSteps]. unfold bind at 1. rewrite peekM_eq, Ht, Hbr.
  rewrite (bool_decide_eq_true_2 _ Hty).
  unfold bind. rewrite (parseIdentifier_fn fuel p t Ht Hv Hf).
  by apply IH.
Qed.

(** X14: a sequence whose first step is an identifier that names a
    function (and no variable) is never parsed to the end:
    [parseIdentifier] leaves the token where it is, so the loop of
    [parseSequence] meets it again and again.  Whatever the fuel, the
    analysis does not finish. *)
Theorem analyze_function_name_loops (fuel : nat) (t : LexicalToken)
    (rest : list LexicalToken) (errors : list ErrorToken) (key : string)
    (idx : Z) :
  tok_type t = LexicalTokenType.Identifier →
  test [openParen; openBracket; closeParen; closeBracket] (tok_value t) = false →
  isVariable (tok_value t) = false →
  isFn (tok_value t) = true →
  isAssignment (reset (t :: rest) errors key idx) = false →
  analyze fuel (t :: rest) errors key idx = OutOfFuel.
Proof.
  intros Hty Hbr Hv Hf Has.
  change [openParen; openBracket; closeParen; closeBracket]
    with ([openParen; openBracket] ++ [closeParen; closeBracket]) in Hbr.
  rewrite test_app in Hbr. apply orb_false_elim in Hbr as [Hopen Hclose].
  rewrite test_cons in Hopen. apply orb_false_elim in Hopen as [Hparen Hbracket].
  unfold Analyzer.analyze. unfold bind at 1. rewrite Has.
  assert (Hpeek := peek_reset t rest errors key idx).
  assert (isSequence (reset (t :: rest) errors key idx) = true) as ->.
  { unfold isSequence. rewrite Hpeek. by rewrite (bool_decide_eq_true_2 _ Hty). }
  destruct fuel as [|fuel]; [done|].
  cbn [Analyzer.parseSequence]. unfold bind at 1. rewrite peekM_eq, Hpeek.
  unfold bind at 1. cbn [defined ret]. rewrite Hparen, Hbracket.
  unfold bind at 1. cbn [ret]. unfold bind at 1.
  by rewrite (parseSteps_fn_identifier _ t fuel _ Hpeek Hty Hclose Hv Hf).
Qed.

End WithSymbolTable.

(** X13, witness: a block that holds a number and an operator. *)
Lemma analyze_no_expression_witness :
  ∃ p, Analyzer.analyze Example.isVariable Example.isFn Example.isFnParameter
         Example.isFnFlagParameter Example.isValidFnArg Example.translateFnArgs
         0 [Example.token "NUMBER" "4" 0; Example.token "OPERATOR" "*" 2]
         [] "block" 0 = Throw p ∧
       result_tokens p = [] ∧ result_errors p = [].
Proof.
  destruct (analyze_no_expression Example.isVariable Example.isFn
              Example.isFnParameter Example.isFnFlagParameter Example.isValidFnArg
              Example.translateFnArgs 0 [] "block" 0) as [_ H].
  destruct (H (Example.token "NUMBER" "4" 0) [Example.token "OPERATOR" "*" 2])
    as [_ Hthrow].
  - discriminate.
  - reflexivity.
  - apply Hthrow. discriminate.
Defined.

(** X14, witness: the block [reverse], where [reverse] is a function. *)
Lemma analyze_function_name_loops_witness :
  Analyzer.analyze (λ _, false) (λ v, bool_decide (v = "reverse"))
    Example.isFnParameter Example.isFnFlagParameter Example.isValidFnArg
    Example.translateFnArgs 1000
    [Example.token "IDENTIFIER" "reverse" 0] [] "block" 0 = OutOfFuel.
Proof.
  apply (analyze_function_name_loops (λ _, false)
           (λ v, bool_decide (v = "reverse"))); reflexivity.
Defined.

(** *** Blocks of identifiers *)

Lemma peek_cursor ts i key idx toks errs (k : Z) :
  (0 ≤ Z.of_nat i + k)%Z →
  peek k (cursor ts i key idx toks errs) = ts !! Z.to_nat (Z.of_nat i + k).
Proof. apply peek_at. Qed.

Lemma peek_cursor_0 ts i key idx toks errs :
  peek 0 (cursor ts i key idx toks errs) = ts !! i.
Proof. rewrite peek_cursor by lia. f_equal. lia. Qed.

Lemma peek_cursor_1 ts i key idx toks errs :
  peek 1 (cursor ts i key idx toks errs) = ts !! S i.
Proof. rewrite peek_cursor by lia. f_equal. lia. Qed.

Lemma peek_cursor_2 ts i key idx toks errs :
  peek 2 (cursor ts i key idx toks errs) = ts !! S (S i).
Proof. rewrite peek_cursor by lia. f_equal. lia. Qed.

Lemma peek_cursor_prev ts i key idx toks errs :
  peek (-1) (cursor ts (S i) key idx toks errs) = ts !! i.
Proof. rewrite peek_cursor by lia. f_equal. lia. Qed.

Lemma consume_cursor ts i key idx toks errs :
  consume (cursor ts i key idx toks errs) =
    Return (ts !! i) (cursor ts (S i) key idx toks errs).
Proof.
  unfold consume, cursor, set_index, at_index. cbn [index stream].
  destruct (Z.leb_spec 0 (Z.of_nat i)); [|lia].
  rewrite Nat2Z.id. do 2 f_equal. lia.
Qed.

Lemma pushToken_cursor f ts i key idx toks errs :
  pushToken f (cursor ts i key idx toks errs) =
    Return tt (cursor ts i key idx (toks ++ [newSemanticToken f]) errs).
Proof. done. Qed.

Lemma reset_cursor ts errors key idx :
  reset ts errors key idx = cursor ts 0 key idx [] errors.
Proof. done. Qed.

Lemma test_single c class :
  test class (String c EmptyString) = bool_decide (c ∈ class).
Proof. simpl. by rewrite orb_false_r. Qed.

Lemma no_bracket_not_paren v :
  test [openParen; openBracket; closeParen; closeBracket] v = false →
  v ≠ "(".
Proof. intros H ->. vm_compute in H. discriminate. Qed.

Lemma no_bracket_split v :
  test [openParen; openBracket; closeParen; closeBracket] v = false →
  test [openParen] v = false ∧ test [openBracket] v = false ∧
  test [closeParen; closeBracket] v = false ∧
  test [openParen; openBracket] v = false.
Proof.
  intros Hbr.
  change [openParen; openBracket; closeParen; closeBracket]
    with ([openParen; openBracket] ++ [closeParen; closeBracket]) in Hbr.
  rewrite test_app in Hbr. apply orb_false_elim in Hbr as [Hopen Hclose].
  pose proof Hopen as Hopen'.
  rewrite test_cons in Hopen. apply orb_false_elim in Hopen as [Hparen Hbracket].
  done.
Qed.

Section WithSymbolTable.

Variable isVariable : string → bool.
Variable isFn : string → bool.
Variable isFnParameter : string → string → bool.
Variable isFnFlagParameter : string → string → bool.
Variable isValidFnArg : string → string → LexicalToken → bool.
Variable translateFnArgs : string → string → list LexicalToken → Parameters.

Local Abbreviation parseIdentifier :=
  (parseIdentifier isVariable isFn isFnParameter isFnFlagParameter
     isValidFnArg translateFnArgs).
Local Abbreviation parseSteps :=
  (parseSteps isVariable isFn isFnParameter isFnFlagParameter
     isValidFnArg translateFnArgs).
Local Abbreviation parseSequence :=
  (parseSequence isVariable isFn isFnParameter isFnFlagParameter
     isValidFnArg translateFnArgs).
Local Abbreviation parseAssignment :=
  (parseAssignment isVariable isFn isFnParameter isFnFlagParameter
     isValidFnArg translateFnArgs).
Local Abbreviation analyze :=
  (analyze isVariable isFn isFnParameter isFnFlagParameter
     isValidFnArg translateFnArgs).

(** [parseIdentifier] on a plain identifier that no parameter list
    follows. *)
Lemma parseIdentifier_plain fuel ts i key idx toks errs t :
  ts !! i = Some t →
  plainIdentifier isVariable isFn t →
  (∀ n, ts !! S i = Some n → tok_value n ≠ "(") →
  parseIdentifier fuel (cursor ts i key idx toks errs) =
    Return tt (cursor ts (S i) key idx
                 (toks ++ [newSemanticToken (identifierFields isVariable t)]) errs).
Proof.
  intros Ht (Hty & Hbr & Hkind) Hnext.
  unfold FirstPass.parseIdentifier, identifierFields.
  unfold bind at 1. rewrite peekM_eq, peek_cursor_0, Ht.
  unfold bind at 1. cbn [defined ret].
  destruct (isVariable (tok_value t)) eqn:Hv.
  - unfold bind. by rewrite consume_cursor, Ht.
  - destruct Hkind as [?|Hf]; [done|].
    unfold isSoundLiteral at 1. rewrite Hf, Hv. cbn [negb andb].
    unfold bind at 1. rewrite consume_cursor, Ht.
    unfold bind at 1. cbn [defined ret].
    unfold bind at 1. unfold parseQueryParameters.
    assert (hasQueryParameters isVariable isFn isFnParameter
              (cursor ts (S i) key idx toks errs) = false) as ->; [|done].
    unfold hasQueryParameters. rewrite peek_cursor_prev, Ht.
    unfold hasFnParameters. rewrite peek_cursor_0, peek_cursor_1.
    destruct (ts !! S i) as [n|] eqn:Hn; [|by rewrite andb_false_r].
    destruct (ts !! S (S i)); [|by rewrite andb_false_r].
    rewrite (bool_decide_eq_false_2 (tok_value n = "(")) by (by apply Hnext).
    by rewrite andb_false_r.
Qed.

(** The loop of [parseSequence] over plain identifiers up to the end of
    the block. *)
Lemma parseSteps_identifiers ps ts key idx errs :
  Forall (plainIdentifier isVariable isFn) ts →
  ∀ m i fuel toks,
    i + m = length ts → m < fuel →
    parseSteps ps fuel (cursor ts i key idx toks errs) =
      Return true
        (cursor ts (length ts) key idx
           (toks ++ ((λ t, newSemanticToken (identifierFields isVariable t))
                       <$> drop i ts)) errs).
Proof.
  intros Hall. induction m as [|m IH]; intros i fuel toks Hi Hfuel;
    (destruct fuel as [|fuel]; [lia|]); cbn [Analyzer.parseSteps];
    unfold bind at 1; rewrite peekM_eq, peek_cursor_0.
  - assert (i = length ts) as -> by lia.
    rewrite lookup_ge_None_2 by lia. rewrite drop_all, app_nil_r. done.
  - destruct (lookup_lt_is_Some_2 ts i) as [t Ht]; [lia|]. rewrite Ht.
    assert (Hplain : plainIdentifier isVariable isFn t).
    { rewrite Forall_forall in Hall. apply Hall. by eapply list_elem_of_lookup_2. }
    pose proof Hplain as (Hty & Hbr & _).
    destruct (no_bracket_split _ Hbr) as (_ & _ & Hclose & _).
    rewrite Hclose, (bool_decide_eq_true_2 _ Hty).
    unfold bind at 1.
    rewrite (parseIdentifier_plain fuel ts i key idx toks errs t Ht Hplain).
    + rewrite IH by lia. rewrite (drop_S _ _ _ Ht), fmap_cons.
      by rewrite <- app_assoc.
    + intros n Hn. apply no_bracket_not_paren.
      rewrite Forall_forall in Hall.
      apply (Hall n). by eapply list_elem_of_lookup_2.
Qed.

(** X15: a block of plain identifiers (variables and sound literals
    without parameters, one after the other) is analysed without error:
    one token per identifier, in order, a variable typed VARIABLE, a sound
    literal typed SOUND_LITERAL with its id and an empty parameter map. *)
Theorem analyze_identifiers (fuel : nat) (ts : list LexicalToken)
    (errors : list ErrorToken) (key : string) (idx : Z) :
  ts ≠ [] →
  Forall (plainIdentifier isVariable isFn) ts →
  length ts + 1 < fuel →
  ∃ p, analyze fuel ts errors key idx =
    Return ((λ t, newSemanticToken (identifierFields isVariable t)) <$> ts,
            errors) p.
Proof.
  intros Hne Hall Hfuel.
  destruct ts as [|t rest] eqn:Hts; [done|]. rewrite <- Hts in *.
  assert (Ht : ts !! 0 = Some t) by (by rewrite Hts).
  assert (Hplain : plainIdentifier isVariable isFn t).
  { rewrite Forall_forall in Hall. apply Hall. by eapply list_elem_of_lookup_2. }
  pose proof Hplain as (Hty & Hbr & _).
  destruct (no_bracket_split _ Hbr) as (Hparen & Hbracket & Hclose & Hopen).
  unfold Analyzer.analyze. rewrite reset_cursor. unfold bind at 1.
  assert (isAssignment (cursor ts 0 key idx [] errors) = false) as ->.
  { unfold isAssignment. rewrite peek_cursor_0, peek_cursor_1, Ht.
    destruct (ts !! 1) as [t1|] eqn:Ht1; [|done].
    assert (Hty1 : tok_type t1 = LexicalTokenType.Identifier).
    { rewrite Forall_forall in Hall.
      apply (Hall t1). by eapply list_elem_of_lookup_2. }
    rewrite Hty1. by rewrite andb_false_r. }
  assert (isSequence (cursor ts 0 key idx [] errors) = true) as ->.
  { unfold isSequence. rewrite peek_cursor_0, Ht.
    by rewrite (bool_decide_eq_true_2 _ Hty). }
  destruct fuel as [|fuel]; [lia|].
  cbn [Analyzer.parseSequence]. unfold bind at 1.
  rewrite peekM_eq, peek_cursor_0, Ht.
  unfold bind at 1. cbn [defined ret]. rewrite Hparen, Hbracket.
  unfold bind at 1. cbn [ret]. unfold bind at 1.
  rewrite (parseSteps_identifiers _ ts key idx errors Hall (length ts) 0 fuel [])
    by lia.
  unfold bind at 1. rewrite peekM_eq, peek_cursor_0.
  rewrite lookup_ge_None_2 by lia. rewrite drop_0. by eexists.
Qed.

End WithSymbolTable.

(** X15, witness: the block [kick snare]. *)
Lemma analyze_identifiers_witness :
  ∃ p, Analyzer.analyze Example.isVariable Example.isFn Example.isFnParameter
         Example.isFnFlagParameter Example.isValidFnArg Example.translateFnArgs
         4 [Example.token "IDENTIFIER" "kick" 0;
            Example.token "IDENTIFIER" "snare" 5] [] "block" 0 =
    Return ((λ t, newSemanticToken (identifierFields Example.isVariable t)) <$>
              [Example.token "IDENTIFIER" "kick" 0;
               Example.token "IDENTIFIER" "snare" 5], []) p.
Proof.
  apply (analyze_identifiers Example.isVariable Example.isFn).
  - discriminate.
  - repeat (apply Forall_cons; split;
              [split; [reflexivity|split; [reflexivity|right; reflexivity]]|]).
    apply Forall_nil_2.
  - simpl. lia.
Defined.

(** *** Operators, assignments, brackets *)

Section WithSymbolTable.

Variable isVariable : string → bool.
Variable isFn : string → bool.
Variable isFnParameter : string → string → bool.
Variable isFnFlagParameter : string → string → bool.
Variable isValidFnArg : string → string → LexicalToken → bool.
Variable translateFnArgs : string → string → list LexicalToken → Parameters.

Local Abbreviation parseIdentifier :=
  (parseIdentifier isVariable isFn isFnParameter isFnFlagParameter
     isValidFnArg translateFnArgs).
Local Abbreviation parseSteps :=
  (parseSteps isVariable isFn isFnParameter isFnFlagParameter
     isValidFnArg translateFnArgs).
Local Abbreviation parseSequence :=
  (parseSequence isVariable isFn isFnParameter isFnFlagParameter
     isValidFnArg translateFnArgs).
Local Abbreviation parseAssignment :=
  (parseAssignment isVariable isFn isFnParameter isFnFlagParameter
     isValidFnArg translateFnArgs).
Local Abbreviation analyze :=
  (analyze isVariable isFn isFnParameter isFnFlagParameter
     isValidFnArg translateFnArgs).

(** X16: the class has no method [parseRepetitionOperator], so a
    repetition cannot be analysed: on a block that begins with a plain
    identifier, the operator [*] and a number, [analyze] throws a
    TypeError, whatever follows. *)
Theorem analyze_repetition_throws (fuel : nat) (t star num : LexicalToken)
    (rest : list LexicalToken) (errors : list ErrorToken) (key : string)
    (idx : Z) :
  plainIdentifier isVariable isFn t →
  tok_type star = LexicalTokenType.Operator →
  tok_value star = "*" →
  tok_type num = LexicalTokenType.Number →
  3 ≤ fuel →
  ∃ p, analyze fuel (t :: star :: num :: rest) errors key idx = Throw p.
Proof.
  intros Hplain Hsty Hsv Hnty Hfuel.
  pose proof Hplain as (Hty & Hbr & _).
  destruct (no_bracket_split _ Hbr) as (Hparen & Hbracket & Hclose & Hopen).
  set (ts := t :: star :: num :: rest).
  unfold Analyzer.analyze. rewrite reset_cursor. unfold bind at 1.
  assert (isAssignment (cursor ts 0 key idx [] errors) = false) as ->.
  { unfold isAssignment. rewrite peek_cursor_0, peek_cursor_1. cbn [ts lookup list_lookup].
    rewrite Hsv. by rewrite andb_false_r. }
  assert (isSequence (cursor ts 0 key idx [] errors) = true) as ->.
  { unfold isSequence. rewrite peek_cursor_0. cbn [ts lookup list_lookup].
    by rewrite (bool_decide_eq_true_2 _ Hty). }
  destruct fuel as [|[|[|fuel]]]; [lia..|].
  cbn [Analyzer.parseSequence]. unfold bind at 1.
  rewrite peekM_eq, peek_cursor_0. cbn [ts lookup list_lookup]. fold ts.
  unfold bind at 1. cbn [defined ret]. rewrite Hparen, Hbracket.
  unfold bind at 1. cbn [ret]. unfold bind at 1.
  (* the identifier *)
  cbn [Analyzer.parseSteps]. unfold bind at 1.
  rewrite peekM_eq, peek_cursor_0. cbn [ts lookup list_lookup]. fold ts.
  rewrite Hclose, (bool_decide_eq_true_2 _ Hty).
  unfold bind at 1.
  assert (Hnext : ∀ n, ts !! 1 = Some n → tok_value n ≠ "(").
  { intros n Hn. assert (n = star) as -> by (cbn in Hn; congruence).
    by rewrite Hsv. }
  rewrite (parseIdentifier_plain isVariable isFn isFnParameter isFnFlagParameter
             isValidFnArg translateFnArgs (S fuel) ts 0 key idx [] errors t
             eq_refl Hplain Hnext).
  (* the operator *)
  unfold bind at 1. rewrite peekM_eq, peek_cursor_0.
  cbn [ts lookup list_lookup]. fold ts.
  rewrite Hsv. change (test [closeParen; closeBracket] "*") with false.
  rewrite Hsty.
  rewrite bool_decide_eq_false_2
    by (intros Heq; vm_compute in Heq; discriminate Heq).
  set (p1 := cursor ts 1 key idx _ errors).
  assert (Hp0 : peek 0 p1 = Some star) by (unfold p1; by rewrite peek_cursor_0).
  assert (Hp1 : peek 1 p1 = Some num) by (unfold p1; by rewrite peek_cursor_1).
  assert (Hpp : peek (-1) p1 = Some t) by (unfold p1; by rewrite peek_cursor_prev).
  unfold bind at 1.
  assert (isSequence p1 = false) as ->.
  { unfold isSequence. rewrite Hp0, Hsv, Hsty. done. }
  unfold bind at 1.
  assert (isChoice p1 = false) as ->.
  { unfold isChoice. rewrite Hp0, Hpp, Hp1, Hsv. done. }
  unfold bind at 1.
  assert (isChainOperator isFn p1 = false) as ->.
  { unfold isChainOperator. rewrite Hp0, Hpp, Hp1, Hsv.
    by rewrite andb_false_r. }
  unfold bind at 1.
  assert (isRepetitionOperator isFn p1 = Return true p1) as ->.
  { unfold isRepetitionOperator. rewrite Hp0, Hpp, Hp1, Hsv, Hsty, Hnty.
    rewrite (bool_decide_eq_true_2 _ Hty). by rewrite orb_true_r. }
  by eexists.
Qed.

(** X17: the assignment of a number, [x = 4]: three tokens, the
    identifier typed VARIABLE_DECL, the operator typed ASSIGNEMENT_OP and
    the number as the lexer typed it, and no new error. *)
Theorem analyze_number_assignment (fuel : nat) (x eq n : LexicalToken)
    (errors : list ErrorToken) (key : string) (idx : Z) :
  tok_type x = LexicalTokenType.Identifier →
  tok_type eq = LexicalTokenType.Operator →
  tok_value eq = "=" →
  tok_type n = LexicalTokenType.Number →
  ∃ p, analyze fuel [x; eq; n] errors key idx =
    Return
      ([newSemanticToken (withType SemanticTokenType.VariableDecl (ofToken (Some x)));
        newSemanticToken (withType SemanticTokenType.AssignmentOp (ofToken (Some eq)));
        newSemanticToken (ofToken (Some n))],
       errors) p.
Proof.
  intros Hxty Hety Hev Hnty.
  set (ts := [x; eq; n]).
  unfold Analyzer.analyze. rewrite reset_cursor. unfold bind at 1.
  assert (isAssignment (cursor ts 0 key idx [] errors) = true) as ->.
  { unfold isAssignment. rewrite peek_cursor_0, peek_cursor_1.
    cbn [ts lookup list_lookup]. rewrite Hxty, Hety, Hev. done. }
  unfold Analyzer.parseAssignment.
  unfold bind at 1. rewrite peekM_eq, peek_cursor_0. cbn [ts lookup list_lookup].
  fold ts. unfold bind at 1. cbn [defined ret].
  unfold bind at 1. rewrite consume_cursor.
  unfold bind at 1. rewrite pushToken_cursor.
  unfold bind at 1. rewrite consume_cursor.
  unfold bind at 1. rewrite pushToken_cursor.
  unfold bind at 1.
  assert (Hnum : ∀ toks, isNumber (cursor ts 2 key idx toks errors) = true).
  { intros toks. unfold isNumber. rewrite peek_cursor_0.
    cbn [ts lookup list_lookup]. by rewrite Hnty. }
  rewrite Hnum.
  unfold bind at 1. rewrite consume_cursor.
  unfold bind at 1. rewrite pushToken_cursor.
  unfold parseEndOfStatement. unfold bind at 1.
  rewrite peekM_eq, peek_cursor_0. cbn [ts lookup list_lookup]. by eexists.
Qed.

(** X18: an assignment without a value: after [x =] the block ends, or
    goes on with a token that starts neither a number, a frequency, a
    function nor a sequence.  [analyze] throws a TypeError: the two tokens
    of [x =] have been pushed, the end of the last one is read, and then
    [pushError] calls a function the token module does not export.  No
    error is recorded. *)
Theorem analyze_assignment_without_value (fuel : nat) (x eq : LexicalToken)
    (rest : list LexicalToken) (errors : list ErrorToken) (key : string)
    (idx : Z) :
  tok_type x = LexicalTokenType.Identifier →
  tok_type eq = LexicalTokenType.Operator →
  tok_value eq = "=" →
  match rest with
  | [] => True
  | r :: _ =>
      tok_type r ≠ LexicalTokenType.Number ∧
      tok_type r ≠ LexicalTokenType.Hz ∧
      tok_type r ≠ LexicalTokenType.Identifier ∧
      isFn (tok_value r) = false ∧
      test [openParen; openBracket] (tok_value r) = false
  end →
  ∃ p, analyze fuel (x :: eq :: rest) errors key idx = Throw p ∧
       result_tokens p =
         [newSemanticToken (withType SemanticTokenType.VariableDecl (ofToken (Some x)));
          newSemanticToken (withType SemanticTokenType.AssignmentOp (ofToken (Some eq)))] ∧
       result_errors p = errors.
Proof.
  intros Hxty Hety Hev Hrest.
  set (ts := x :: eq :: rest).
  unfold Analyzer.analyze. rewrite reset_cursor. unfold bind at 1.
  assert (isAssignment (cursor ts 0 key idx [] errors) = true) as ->.
  { unfold isAssignment. rewrite peek_cursor_0, peek_cursor_1.
    cbn [ts lookup list_lookup]. rewrite Hxty, Hety, Hev. done. }
  unfold Analyzer.parseAssignment.
  unfold bind at 1. rewrite peekM_eq, peek_cursor_0. cbn [ts lookup list_lookup].
  fold ts. unfold bind at 1. cbn [defined ret].
  unfold bind at 1. rewrite consume_cursor.
  unfold bind at 1. rewrite pushToken_cursor.
  unfold bind at 1. rewrite consume_cursor.
  unfold bind at 1. rewrite pushToken_cursor.
  cbn [ts lookup list_lookup app]. fold ts.
  set (toks := [_; _]).
  assert (H0 : peek 0 (cursor ts 2 key idx toks errors) = rest !! 0)
    by (by rewrite peek_cursor_0).
  assert (H1 : peek 1 (cursor ts 2 key idx toks errors) = rest !! 1)
    by (by rewrite peek_cursor_1).
  unfold bind at 1.
  assert (isNumber (cursor ts 2 key idx toks errors) = false) as ->.
  { unfold isNumber. rewrite H0. destruct rest as [|r rest']; [done|].
    destruct Hrest as (Hn & _). by apply bool_decide_eq_false_2. }
  unfold bind at 1.
  assert (isHz (cursor ts 2 key idx toks errors) = false) as ->.
  { unfold isHz. rewrite H0, H1. destruct rest as [|r rest']; [done|].
    destruct Hrest as (_ & Hh & _). cbn [lookup list_lookup].
    destruct (rest' !! 0); [|done].
    by rewrite (bool_decide_eq_false_2 _ Hh). }
  unfold bind at 1. rewrite peekM_eq, H0.
  assert (match rest !! 0 with
          | Some t => isFn (tok_value t)
          | None => false
          end = false) as ->.
  { destruct rest as [|r rest']; [done|]. by destruct Hrest as (_ & _ & _ & Hf & _). }
  unfold bind at 1.
  assert (isSequence (cursor ts 2 key idx toks errors) = false) as ->.
  { unfold isSequence. rewrite H0. destruct rest as [|r rest']; [done|].
    destruct Hrest as (_ & _ & Hi & _ & Hb). cbn [lookup list_lookup].
    by rewrite Hb, (bool_decide_eq_false_2 _ Hi). }
  by eexists.
Qed.

(** X19: a block of one token whose text holds an opening bracket is
    taken for a sequence whatever the lexer said it was (a lone bracket,
    but also a comment such as [# (intro)]): the token is typed
    SEQUENCE_BRACKET, or BEAT_DIV_BRACKET when the text holds [[] and no
    [(], and no error is reported. *)
Theorem analyze_lone_bracket_text (fuel : nat) (c : LexicalToken)
    (errors : list ErrorToken) (key : string) (idx : Z) :
  test [openParen; openBracket] (tok_value c) = true →
  2 ≤ fuel →
  ∃ p, analyze fuel [c] errors key idx =
    Return
      ([newSemanticToken
          (withType (if test [openParen] (tok_value c)
                     then SemanticTokenType.SequenceBracket
                     else SemanticTokenType.BeatDivBracket)
             (ofToken (Some c)))],
       errors) p.
Proof.
  intros Hbr Hfuel.
  unfold Analyzer.analyze. rewrite reset_cursor. unfold bind at 1.
  assert (isAssignment (cursor [c] 0 key idx [] errors) = false) as ->.
  { unfold isAssignment. by rewrite peek_cursor_0, peek_cursor_1. }
  assert (isSequence (cursor [c] 0 key idx [] errors) = true) as ->.
  { unfold isSequence. rewrite peek_cursor_0. cbn [lookup list_lookup].
    by rewrite Hbr, orb_true_r. }
  destruct fuel as [|[|fuel]]; [lia..|].
  cbn [Analyzer.parseSequence]. unfold bind at 1.
  rewrite peekM_eq, peek_cursor_0. cbn [lookup list_lookup].
  unfold bind at 1. cbn [defined ret].
  rewrite test_cons in Hbr.
  destruct (test [openParen] (tok_value c)) eqn:Hparen.
  - unfold bind at 1. unfold bind at 1. rewrite consume_cursor.
    rewrite pushToken_cursor. unfold bind at 1.
    cbn [Analyzer.parseSteps]. unfold bind at 1.
    rewrite peekM_eq, peek_cursor_0. cbn [lookup list_lookup ret].
    unfold bind at 1. rewrite peekM_eq, peek_cursor_0. by eexists.
  - simpl in Hbr. rewrite Hbr.
    unfold bind at 1. unfold bind at 1. rewrite consume_cursor.
    rewrite pushToken_cursor. unfold bind at 1.
    cbn [Analyzer.parseSteps]. unfold bind at 1.
    rewrite peekM_eq, peek_cursor_0. cbn [lookup list_lookup ret].
    unfold bind at 1. rewrite peekM_eq, peek_cursor_0. by eexists.
Qed.

End WithSymbolTable.

(** X16, witness: the block [kick * 2]. *)
Lemma analyze_repetition_throws_witness :
  ∃ p, Analyzer.analyze Example.isVariable Example.isFn Example.isFnParameter
         Example.isFnFlagParameter Example.isValidFnArg Example.translateFnArgs
         3 [Example.token "IDENTIFIER" "kick" 0; Example.token "OPERATOR" "*" 5;
            Example.token "NUMBER" "2" 7] [] "block" 0 = Throw p.
Proof.
  apply (analyze_repetition_throws Example.isVariable Example.isFn).
  - split; [reflexivity|split; [reflexivity|right; reflexivity]].
  - reflexivity.
  - reflexivity.
  - reflexivity.
  - lia.
Defined.

(** X17, witness: the block [x = 4]. *)
Lemma analyze_number_assignment_witness :
  ∃ p, Analyzer.analyze Example.isVariable Example.isFn Example.isFnParameter
         Example.isFnFlagParameter Example.isValidFnArg Example.translateFnArgs
         0 [Example.token "IDENTIFIER" "x" 0; Example.token "OPERATOR" "=" 2;
            Example.token "NUMBER" "4" 4] [] "block" 0 =
    Return
      ([newSemanticToken (withType SemanticTokenType.VariableDecl
                            (ofToken (Some (Example.token "IDENTIFIER" "x" 0))));
        newSemanticToken (withType SemanticTokenType.AssignmentOp
                            (ofToken (Some (Example.token "OPERATOR" "=" 2))));
        newSemanticToken (ofToken (Some (Example.token "NUMBER" "4" 4)))],
       []) p.
Proof.
  apply (analyze_number_assignment Example.isVariable Example.isFn);
    reflexivity.
Defined.

(** X18, witness: the block [x = * 2]. *)
Lemma analyze_assignment_without_value_witness :
  ∃ p, Analyzer.analyze Example.isVariable Example.isFn Example.isFnParameter
         Example.isFnFlagParameter Example.isValidFnArg Example.translateFnArgs
         0 (Example.token "IDENTIFIER" "x" 0 :: Example.token "OPERATOR" "=" 2 ::
            [Example.token "OPERATOR" "*" 4; Example.token "NUMBER" "2" 6])
         [] "block" 0 = Throw p ∧
       result_tokens p =
         [newSemanticToken (withType SemanticTokenType.VariableDecl
                              (ofToken (Some (Example.token "IDENTIFIER" "x" 0))));
          newSemanticToken (withType SemanticTokenType.AssignmentOp
                              (ofToken (Some (Example.token "OPERATOR" "=" 2))))] ∧
       result_errors p = [].
Proof.
  apply (analyze_assignment_without_value Example.isVariable Example.isFn);
    try reflexivity.
  repeat split; discriminate.
Defined.

(** X19, witness: a comment with a parenthesis in it. *)
Lemma analyze_lone_bracket_text_witness :
  ∃ p, Analyzer.analyze Example.isVariable Example.isFn Example.isFnParameter
         Example.isFnFlagParameter Example.isValidFnArg Example.translateFnArgs
         2 [Example.token "COMMENT" "# (intro)" 0] [] "block" 0 =
    Return
      ([newSemanticToken
          (withType (if test [openParen]
                          (tok_value (Example.token "COMMENT" "# (intro)" 0))
                     then SemanticTokenType.SequenceBracket
                     else SemanticTokenType.BeatDivBracket)
             (ofToken (Some (Example.token "COMMENT" "# (intro)" 0))))],
       []) p.
Proof.
  apply (analyze_lone_bracket_text Example.isVariable Example.isFn).
  - reflexivity.
  - lia.
Defined.

(** *** Errors inside a parameter list *)

Lemma set_index_same p : set_index (index p) p = p.
Proof. by destruct p. Qed.

Lemma peek_set_index k i p : peek k (set_index i p) = peek (i - index p + k) p.
Proof.
  rewrite !peek_lookup. cbn [index stream set_index].
  by replace (index p + (i - index p + k))%Z with (i + k)%Z by lia.
Qed.

(** The loop of [parseErrorUntilEndOfParamScope] only moves the cursor. *)
Lemma skip_moves_cursor : ∀ (fuel : nat) (p : Parser),
  match skipToEndOfParamScope fuel p with
  | Return _ p' =>
      result_errors p' = result_errors p ∧ result_tokens p' = result_tokens p
  | Throw _ => False
  | OutOfFuel => True
  end.
Proof.
  induction fuel as [|fuel IH]; intros p; [done|].
  cbn [skipToEndOfParamScope]. unfold bind at 1. rewrite peekM_eq.
  destruct (peek 0 p) as [x|]; [|done].
  destruct (negb _); [|done].
  unfold bind at 1. unfold advance.
  specialize (IH (set_index (index p + 1) p)).
  by destruct (skipToEndOfParamScope fuel _).
Qed.

(** X20: [parseErrorUntilEndOfParamScope] never returns.  Whatever the
    tokens ahead, the call throws a TypeError: before its loop when there
    is no token, after it when no [)] and no [,] is left, and otherwise
    in [pushError], which calls a function the token module does not
    export.  So a parameter that is in error is never skipped: it ends the
    analysis, and no error and no token is recorded for it. *)
Theorem parseError_never_returns (fuel : nat) (p : Parser) :
  remaining p < fuel →
  ∃ p', parseErrorUntilEndOfParamScope fuel p = Throw p' ∧
        result_errors p' = result_errors p ∧
        result_tokens p' = result_tokens p.
Proof.
  intros Hfuel.
  pose proof (finishes_skip fuel p Hfuel) as Hfin.
  pose proof (skip_moves_cursor fuel p) as Hskip.
  unfold parseErrorUntilEndOfParamScope.
  unfold bind at 1. rewrite peekM_eq.
  destruct (peek 0 p) as [t|]; [|by exists p].
  unfold bind at 1. cbn [defined ret]. unfold bind at 1.
  destruct (skipToEndOfParamScope fuel p) as [[] p1|p1|]; [|done..].
  destruct Hskip as [He Ht].
  unfold bind at 1. rewrite peekM_eq.
  destruct (peek 0 p1) as [d|]; [|by exists p1].
  unfold bind at 1. cbn [defined ret]. unfold bind at 1. unfold when.
  destruct (test [comma] (tok_value d)).
  - unfold bind at 1. unfold advance. cbn [ret].
    unfold bind at 1. rewrite peekM_eq.
    destruct (peek (-1) _) as [prev|]; by eexists.
  - cbn [ret]. unfold bind at 1. rewrite peekM_eq.
    destruct (peek (-1) _) as [prev|]; by eexists.
Qed.

(** The loop of [parseErrorUntilEndOfParamScope] with no [)] and no [,]
    ahead runs to the end of the block. *)
Lemma skip_to_end : ∀ (fuel : nat) (p : Parser),
  (0 ≤ index p)%Z →
  (∀ (j : nat) x, peek (Z.of_nat j) p = Some x →
     test [closeParen; comma] (tok_value x) = false) →
  remaining p < fuel →
  ∃ p', skipToEndOfParamScope fuel p = Return tt p' ∧ peek 0 p' = None.
Proof.
  induction fuel as [|fuel IH]; intros p Hidx Hnone Hfuel; [lia|].
  cbn [skipToEndOfParamScope]. unfold bind at 1. rewrite peekM_eq.
  destruct (peek 0 p) as [x|] eqn:Hx; [|by exists p].
  rewrite (Hnone 0 x Hx). cbn [negb]. unfold bind at 1. unfold advance.
  apply IH.
  - cbn [index set_index]. lia.
  - intros j y. rewrite peek_set_index.
    replace (index p + 1 - index p + Z.of_nat j)%Z with (Z.of_nat (S j)) by lia.
    apply Hnone.
  - pose proof (peek_Some_bounds p x Hx). unfold remaining in *.
    cbn [index set_index stream]. lia.
Qed.

(** X21: when neither [)] nor [,] is left in the block,
    [parseErrorUntilEndOfParamScope] throws a TypeError: its loop runs to
    the end of the block and the test that follows reads the value of a
    token that is not there.  No error is recorded. *)
Theorem parseError_unclosed_throws (fuel : nat) (p : Parser) (t : LexicalToken) :
  peek 0 p = Some t →
  (∀ (j : nat) x, peek (Z.of_nat j) p = Some x →
     test [closeParen; comma] (tok_value x) = false) →
  remaining p < fuel →
  ∃ p', parseErrorUntilEndOfParamScope fuel p = Throw p' ∧
        result_errors p' = result_errors p ∧
        result_tokens p' = result_tokens p.
Proof.
  intros Ht Hnone Hfuel.
  pose proof (peek_Some_bounds p t Ht) as Hb.
  destruct (skip_to_end fuel p) as (p' & Hskip & Hend); [lia|done..|].
  pose proof (finishes_skip fuel p Hfuel) as Hfin.
  exists p'. unfold parseErrorUntilEndOfParamScope.
  unfold bind at 1. rewrite peekM_eq, Ht.
  unfold bind at 1. cbn [defined ret].
  unfold bind at 1. rewrite Hskip.
  unfold bind at 1. rewrite peekM_eq, Hend.
  unfold bind at 1. cbn [defined throw]. split; [done|].
  clear Hfin. revert Hskip. clear.
  revert p p'. induction fuel as [|fuel IH]; intros p p'; [done|].
  cbn [skipToEndOfParamScope]. unfold bind at 1. rewrite peekM_eq.
  destruct (peek 0 p) as [x|]; [|by intros [= <-]].
  destruct (negb _); [|by intros [= <-]].
  unfold bind at 1. unfold advance. intros H. by apply IH in H.
Qed.

(** X20, witness: [kick(zz: 1, b: 2)], from [zz]: the comma is found
    and stepped over, and the call throws all the same. *)
Lemma parseError_never_returns_witness :
  ∃ p', parseErrorUntilEndOfParamScope 9 atBadParameter = Throw p' ∧
        result_errors p' = result_errors atBadParameter ∧
        result_tokens p' = result_tokens atBadParameter.
Proof.
  apply (parseError_never_returns 9 atBadParameter).
  vm_compute. lia.
Defined.

(** X21, witness: [kick(zz: 1]. *)
Lemma parseError_unclosed_throws_witness :
  ∃ p', parseErrorUntilEndOfParamScope 4 atUnclosedParameter = Throw p' ∧
        result_errors p' = result_errors atUnclosedParameter ∧
        result_tokens p' = result_tokens atUnclosedParameter.
Proof.
  apply (parseError_unclosed_throws 4 atUnclosedParameter
           (Example.token "IDENTIFIER" "zz" 5)).
  - reflexivity.
  - intros j x Hx. destruct (decide (j < 3)) as [Hj|Hj].
    + destruct j as [|[|[|j]]]; try lia;
        vm_compute in Hx; injection Hx as <-; reflexivity.
    + exfalso. rewrite peek_lookup in Hx.
      destruct (0 <=? index atUnclosedParameter + Z.of_nat j)%Z; [|discriminate Hx].
      apply lookup_lt_Some in Hx. cbn in Hx. lia.
  - vm_compute. lia.
Defined.

End AnalyzerFacts.

(** ** Semantic tokens *)

Module TokensFacts.
Import Tokens FirstPass.

(** X22: the instance id [<block>-<start>] tells the tokens of one block
    apart: two tokens of the same block have the same instance id only
    when they start at the same place. *)
Theorem instance_distinguishes_starts (f g : Fields) (b : string) (s1 s2 : Z) :
  f_block f = Some b → f_block g = Some b →
  f_start f = Some s1 → f_start g = Some s2 →
  st_instance (newSemanticToken f) = st_instance (newSemanticToken g) →
  s1 = s2.
Proof.
  intros Hf Hg Hs1 Hs2. unfold newSemanticToken. cbn [st_instance].
  rewrite Hf, Hg, Hs1, Hs2. cbn [render renderZ default fmap option_fmap option_map].
  intros H. apply String.app_inj in H. apply String.app_inj in H.
  by apply pretty_Z_inj in H.
Qed.

(** X22, witness: a token of block [block] that starts at 0. *)
Lemma instance_distinguishes_starts_witness : 0%Z = 0%Z.
Proof.
  apply (instance_distinguishes_starts
           (ofToken (Some (Example.token "IDENTIFIER" "kick" 0)))
           (ofToken (Some (Example.token "IDENTIFIER" "kick" 0)))
           "block" 0 0); reflexivity.
Defined.

End TokensFacts.

(** ** The scheduler under the signals of the transport *)

Module TransportFacts.
Import Scheduler Transport SchedulerFacts.

Section WithThread.

Variable Thread : Type.
Variable resetReadHead : Thread → Thread.
Variable threadRun : Z → Thread → Thread.
Variable newThread : string → Thread.

Local Abbreviation Session := (Session Thread).
Local Abbreviation handle := (handle Thread resetReadHead threadRun newThread).
Local Abbreviation after := (after Thread resetReadHead threadRun newThread).

Ltac unfold_handlers :=
  unfold Transport.handle, onIsPlaying, onIsPaused, onIsRecording, onIsMuted,
    onBpm, onChange, fulfil, startRecording, stopRecording, recording, playing,
    onWorld, onScheduler, scheduleThread, start, Scheduler.stop, pause,
    killThread, toggleMute, tick, setInterval, clearInterval in *.

Lemma timerOwned_handle (s : Session) (e : Signal) :
  timerOwned (world Thread s) → timerOwned (world Thread (handle s e)).
Proof.
  destruct s as [[[ts pl pa re bc bn la tf g] iv au] rc pr].
  unfold timerOwned. cbn. intros ->.
  destruct e as [b|b|b|b|bpm|[k|k|]| |i]; unfold_handlers; cbn;
    repeat (match goal with
            | |- context [match ?x with _ => _ end] => destruct x eqn:?
            end; cbn in *; simplify_eq);
    try done; try apply delete_singleton_eq.
Qed.

Lemma timerOwned_after (audio0 : AudioState) (es : list Signal) :
  timerOwned (world Thread (after audio0 es)).
Proof.
  unfold Transport.after.
  assert (timerOwned (world Thread (newSession Thread audio0))) as H by done.
  revert H. generalize (newSession Thread audio0).
  induction es as [|e es IH]; intros s Hs; simpl; [done|].
  by apply IH, timerOwned_handle.
Qed.

(** X23: whatever the transport, the memory and the recorder do after
    construction (play, pause, record, mute, tempo, variables set and
    deleted, ticks, fulfilled promises), the event loop holds no other
    timer than the one [timerFn] names: at most one interval timer is
    active, and one is active exactly when [timerFn] is set. *)
Theorem one_timer_under_transport (audio0 : AudioState) (es : list Signal) :
  let w := world Thread (after audio0 es) in
  timerOwned w ∧
  activeTimers w ≤ 1 ∧
  (activeTimers w = 1 ↔ is_Some (timerFn (this w))).
Proof.
  intros w. pose proof (timerOwned_after audio0 es) as H. fold w in H.
  split; [done|].
  rewrite (timerOwned_activeTimers Thread w H).
  destruct (timerFn (this w)) as [id|]; split; try lia.
  - split; eauto.
  - split; [lia|]. by intros [? ?].
Qed.

(** X24: the play and pause signals decide whether the timer runs.  After
    [isPlaying] is signalled, one timer is active when the value is true
    (also when the scheduler is paused) and none when it is false; after
    [isPaused] is signalled, one timer is active when the value is false
    and the scheduler is playing, none otherwise; and whenever the signal
    leaves no timer, the audio context is suspended. *)
Theorem transport_decides_timer (audio0 : AudioState) (es : list Signal)
    (b : bool) :
  let s := after audio0 es in
  let played := world Thread (handle s (IsPlaying b)) in
  let paused := world Thread (handle s (IsPaused b)) in
  activeTimers played = (if b then 1 else 0) ∧
  activeTimers paused = (if negb b && playing Thread s then 1 else 0) ∧
  (activeTimers played = 0 → audio played = suspended) ∧
  (activeTimers paused = 0 → audio paused = suspended).
Proof.
  intros s played paused.
  pose proof (timerOwned_after audio0 es) as H. fold s in H.
  pose proof (timerOwned_handle s (IsPlaying b) H) as Hplayed. fold played in Hplayed.
  pose proof (timerOwned_handle s (IsPaused b) H) as Hpaused. fold paused in Hpaused.
  rewrite (timerOwned_activeTimers Thread played Hplayed).
  rewrite (timerOwned_activeTimers Thread paused Hpaused).
  subst played paused. clear Hplayed Hpaused H.
  destruct s as [[[ts pl pa re bc bn la tf g] iv au] rc pr].
  destruct b, pl, re, tf as [id|]; cbn; repeat split; try done.
Qed.

(** Signals that neither tick nor set the tempo leave both tempo fields
    alone. *)
Lemma handle_keeps_tempo (s : Session) (e : Signal) :
  e ≠ Ticks → (∀ bpm, e ≠ Bpm bpm) →
  bpm_current Thread (this (world Thread (handle s e))) =
    bpm_current Thread (this (world Thread s)) ∧
  bpm_next Thread (this (world Thread (handle s e))) =
    bpm_next Thread (this (world Thread s)).
Proof.
  intros Htick Hbpm.
  destruct s as [[[ts pl pa re bc bn la tf g] iv au] rc pr].
  destruct e as [b|b|b|b|bpm|[k|k|]| |i]; try done;
    try (by destruct (Hbpm bpm));
    unfold_handlers; cbn;
    repeat (match goal with
            | |- context [match ?x with _ => _ end] => destruct x eqn:?
            end; cbn in *; simplify_eq);
    done.
Qed.

Lemma handles_keep_tempo (es : list Signal) : ∀ s : Session,
  Forall (λ e, e ≠ Ticks ∧ ∀ bpm, e ≠ Bpm bpm) es →
  bpm_current Thread (this (world Thread (foldl handle s es))) =
    bpm_current Thread (this (world Thread s)) ∧
  bpm_next Thread (this (world Thread (foldl handle s es))) =
    bpm_next Thread (this (world Thread s)).
Proof.
  induction es as [|e es IH]; intros s Hall; [done|].
  inversion Hall as [|? ? [Htick Hbpm] Hall']; subst. cbn [foldl].
  destruct (IH (handle s e) Hall') as [-> ->].
  by apply handle_keeps_tempo.
Qed.

(** X25: a new tempo is used one tick late.  After [bpm] is signalled,
    and whatever other signals arrive before the timer fires, the next
    tick still runs the threads at the tempo the scheduler had, and the
    tick after that is the first to run them at the new one. *)
Theorem tempo_used_one_tick_late (s : Session) (bpm : Z) (es : list Signal) :
  Forall (λ e, e ≠ Ticks ∧ ∀ bpm, e ≠ Bpm bpm) es →
  let s0 := foldl handle (handle s (Bpm bpm)) es in
  let s1 := handle s0 Ticks in
  let s2 := handle s1 Ticks in
  threads (this (world Thread s1)) =
    threadRun (bpm_current Thread (this (world Thread s)))
      <$> threads (this (world Thread s0)) ∧
  threads (this (world Thread s2)) =
    threadRun bpm <$> threads (this (world Thread s1)).
Proof.
  intros Hall s0 s1 s2.
  destruct (handles_keep_tempo es (handle s (Bpm bpm)) Hall) as [Hc Hn].
  fold s0 in Hc, Hn. cbn in Hc, Hn.
  subst s1 s2. cbn. by rewrite Hc, Hn.
Qed.

(** X26: [startRecording] does not guard against a second call while the
    first one is not acknowledged: [isRecording] is set only when the
    promise of [recorder.start()] is fulfilled, so two [isRecording]
    signals in a row start the recorder twice, while a signal that comes
    after the fulfilment starts nothing. *)
Theorem recorder_started_twice (s : Session) :
  recording Thread s = false →
  let once := handle s (IsRecording true) in
  let twice := handle once (IsRecording true) in
  let acknowledged :=
    handle (handle once (Fulfils (length (promises Thread s))))
      (IsRecording true) in
  recorder Thread twice = recorder Thread s ++ [RecorderStart; RecorderStart] ∧
  recorder Thread acknowledged = recorder Thread s ++ [RecorderStart] ∧
  recording Thread acknowledged = true.
Proof.
  intros Hrec once twice acknowledged. subst once twice acknowledged.
  destruct s as [[[ts pl pa re bc bn la tf g] iv au] rc pr].
  cbn in Hrec. subst re.
  split; [|split].
  - destruct pl, tf as [id|]; cbn; by rewrite <- app_assoc.
  - destruct pl, tf as [id|]; unfold_handlers; cbn;
      rewrite list_lookup_middle by done; cbn; done.
  - destruct pl, tf as [id|]; unfold_handlers; cbn;
      rewrite list_lookup_middle by done; cbn; done.
Qed.

(** X27: a recording that is stopped before its start is acknowledged is
    not stopped at all: [stopRecording] finds [isRecording] false and
    returns, and when the promise of [recorder.start()] is fulfilled the
    scheduler records, with no call of [recorder.stop()] made. *)
Theorem early_stop_is_lost (s : Session) :
  recording Thread s = false →
  let s' :=
    handle (handle (handle s (IsRecording true)) (IsRecording false))
      (Fulfils (length (promises Thread s))) in
  recording Thread s' = true ∧
  recorder Thread s' = recorder Thread s ++ [RecorderStart] ∧
  promises Thread s' = promises Thread s.
Proof.
  intros Hrec s'. subst s'.
  destruct s as [[[ts pl pa re bc bn la tf g] iv au] rc pr].
  cbn in Hrec. subst re.
  destruct pl, tf as [id|]; unfold_handlers; cbn;
    rewrite list_lookup_middle by done; cbn;
    rewrite delete_middle, app_nil_r; done.
Qed.

End WithThread.

(** X25, witness: the scheduler plays the thread of [x] at 128; the tempo
    is set to 90 and the sound is unmuted; the first tick after that runs
    the thread at 128, the second one at 90. *)
Lemma tempo_used_one_tick_late_witness :
  is_Some (timerFn (this (world (list Z)
    (foldl Example.record (Example.record Example.playingX (Bpm 90))
       [IsMuted false])))) ∧
  threads (this (world (list Z)
    (foldl Example.record (Example.record Example.playingX (Bpm 90))
       [IsMuted false]))) !! "x" = Some [] ∧
  threads (this (world (list Z)
    (Example.record
       (foldl Example.record (Example.record Example.playingX (Bpm 90))
          [IsMuted false]) Ticks))) !! "x" = Some [128%Z] ∧
  threads (this (world (list Z)
    (Example.record
       (Example.record
          (foldl Example.record (Example.record Example.playingX (Bpm 90))
             [IsMuted false]) Ticks) Ticks))) !! "x" = Some [128%Z; 90%Z].
Proof.
  destruct (tempo_used_one_tick_late (list Z) (λ _, []) (λ bpm t, t ++ [bpm])
              (λ _, []) Example.playingX 90 [IsMuted false]) as [H1 H2].
  { repeat constructor; discriminate. }
  assert (threads (this (world (list Z)
            (foldl Example.record (Example.record Example.playingX (Bpm 90))
               [IsMuted false]))) !! "x" = Some []) as H0 by reflexivity.
  split; [by eexists|]. split; [exact H0|].
  unfold Example.record.
  split.
  - rewrite H1, lookup_fmap. unfold Example.record in H0. by rewrite H0.
  - rewrite H2, H1, !lookup_fmap. unfold Example.record in H0. by rewrite H0.
Defined.

(** X26, witness: the scheduler as constructed. *)
Lemma recorder_started_twice_witness :
  recorder unit
    (handle unit id (λ _ t, t) (λ _, tt)
       (handle unit id (λ _ t, t) (λ _, tt) (newSession unit suspended)
          (IsRecording true))
       (IsRecording true)) =
  recorder unit (newSession unit suspended) ++ [RecorderStart; RecorderStart].
Proof.
  apply (recorder_started_twice unit id (λ _ t, t) (λ _, tt)
           (newSession unit suspended)).
  reflexivity.
Defined.

(** X27, witness: the scheduler as constructed. *)
Lemma early_stop_is_lost_witness :
  recording unit
    (handle unit id (λ _ t, t) (λ _, tt)
       (handle unit id (λ _ t, t) (λ _, tt)
          (handle unit id (λ _ t, t) (λ _, tt) (newSession unit suspended)
             (IsRecording true))
          (IsRecording false))
       (Fulfils (length (promises unit (newSession unit suspended))))) = true.
Proof.
  apply (early_stop_is_lost unit id (λ _ t, t) (λ _, tt)
           (newSession unit suspended)).
  reflexivity.
Defined.

End TransportFacts.
